(** * The directory-tree watch cache of [inotify/inotify_dtree.c]

    A shallow embedding of the watch cache, the root set, the event
    processor with its one-record rename pairing, the reinitialization
    engine and the event reader loop, followed by the properties of the
    specification that concern them, and by further properties of the same
    functions and of the check of the command line.

    Conventions.
    - A value of type [string] stands for a C string: the bytes that precede
      the terminating NUL.  Reading the terminator ([s[strlen(s)]]) is
      reading past the last character of the Rocq string.
    - [int] values are in [Z], the unsigned fields of an inotify record in
      [N]; conversions between [size_t] and [int] are written out.
    - A slot number or a pointer into an array that the C code returns as
      [-1] or [NULL] when nothing is found is an [option nat].
    - Calls of [logMessage], [printf] and [displayInotifyEvent] only produce
      diagnostics and are left out, as are the counters that only feed them
      ([dirCnt], [reinitCnt], [overflowCnt], [inotifyReadCnt]).
      [logMessage] writes to the log file only when one is open;
      [dumpCacheToLog] does not test it, so the log file is part of the
      configuration.
    - Memory is the host's: [realloc], [calloc] and [strdup] succeed or fail
      as the host says, and a result that the program does not test is
      followed to where it is used. *)

From Stdlib Require Import ZArith NArith Ascii String List Lia Bool.
From stdpp Require Import base list strings.

Local Open Scope Z_scope.

(** ** Constants of the system headers *)

(** [<limits.h>] on Linux. *)
Definition PATH_MAX : nat := 4096.
Definition NAME_MAX : nat := 255.

(** [<sys/inotify.h>]. *)
Definition IN_MOVED_FROM : N := 0x40.
Definition IN_MOVED_TO : N := 0x80.
Definition IN_CREATE : N := 0x100.
Definition IN_DELETE_SELF : N := 0x400.
Definition IN_MOVE_SELF : N := 0x800.
Definition IN_UNMOUNT : N := 0x2000.
Definition IN_Q_OVERFLOW : N := 0x4000.
Definition IN_IGNORED : N := 0x8000.
Definition IN_ONLYDIR : N := 0x1000000.
Definition IN_ISDIR : N := 0x40000000.

(** [<errno.h>] and [<stdlib.h>]. *)
Definition ENOENT : Z := 2.
Definition EINTR : Z := 4.
Definition EXIT_SUCCESS : Z := 0.
Definition EXIT_FAILURE : Z := 1.

(** [sizeof(struct inotify_event)]: four 32-bit fields before the name. *)
Definition SIZEOF_INOTIFY_EVENT : Z := 16.

(** [INOTIFY_READ_BUF_LEN = 100 * (sizeof(struct inotify_event) + NAME_MAX + 1)]. *)
Definition INOTIFY_READ_BUF_LEN : Z :=
  100 * (SIZEOF_INOTIFY_EVENT + Z.of_nat NAME_MAX + 1).

(** [ALLOC_INCR] of [findEmptyCacheSlot]. *)
Definition ALLOC_INCR : nat := 200.

(** Conversions: a value stored in a [size_t] (64 bits) and in an [int]. *)
Definition to_size_t (x : Z) : Z := x mod 2 ^ 64.
Definition to_int (x : Z) : Z := (x + 2 ^ 31) mod 2 ^ 32 - 2 ^ 31.

(** ** C strings *)

Module CString.

Fixpoint str_take (n : nat) (s : string) : string :=
  match n, s with
  | S n', String c r => String c (str_take n' r)
  | _, _ => EmptyString
  end.

Fixpoint str_drop (n : nat) (s : string) : string :=
  match n, s with
  | S n', String _ r => str_drop n' r
  | _, _ => s
  end.

(** [snprintf(buf, size, fmt, ...)] where [s] is the full formatted text:
    the buffer receives at most [size - 1] characters of it. *)
Definition snprintf (size : nat) (s : string) : string :=
  str_take (size - 1) s.

(** [strncpy(dst, src, n)] seen as the content of [dst].  For a [src]
    shorter than [n] that is the C string [src].  When [src] has [n]
    characters or more no terminator is written: the array holds the first
    [n] characters and is no C string any more (the program's known
    limitation on pathnames of [PATH_MAX] and more).  The model keeps these
    [n] characters; what the program reads from such an array is not
    modelled, and the properties of a stored path that depend on it assume
    a source shorter than [n]. *)
Definition strncpy (n : nat) (src : string) : string := str_take n src.

Definition char_lt (a b : ascii) : bool := (N_of_ascii a <? N_of_ascii b)%N.

(** [strcmp] and [strncmp]: only the sign of the result is specified. *)
Fixpoint strcmp (s1 s2 : string) : Z :=
  match s1, s2 with
  | EmptyString, EmptyString => 0
  | EmptyString, String _ _ => -1
  | String _ _, EmptyString => 1
  | String c1 r1, String c2 r2 =>
      if Ascii.eqb c1 c2 then strcmp r1 r2
      else if char_lt c1 c2 then -1 else 1
  end.

Fixpoint strncmp (s1 s2 : string) (n : nat) : Z :=
  match n with
  | O => 0
  | S n' =>
      match s1, s2 with
      | EmptyString, EmptyString => 0
      | EmptyString, String _ _ => -1
      | String _ _, EmptyString => 1
      | String c1 r1, String c2 r2 =>
          if Ascii.eqb c1 c2 then strncmp r1 r2 n'
          else if char_lt c1 c2 then -1 else 1
      end
  end.

(** [s[i] == c] for a character [c] other than NUL, and [s[i] == '\0']. *)
Definition char_at_is (s : string) (i : nat) (c : ascii) : bool :=
  match String.get i s with
  | Some d => Ascii.eqb d c
  | None => false
  end.

Definition nul_at (s : string) (i : nat) : bool :=
  match String.get i s with
  | Some _ => false
  | None => true
  end.

(** The test shared by [rewriteCachedPaths] and [zapSubtree]:
    [strncmp(prefix, p, len) == 0 && (p[len] == '/' || p[len] == '\0')]
    with [len = strlen(prefix)]. *)
Definition prefix_match (prefix p : string) : bool :=
  let len := String.length prefix in
  (strncmp prefix p len =? 0) && (char_at_is p len "/" || nul_at p len).

(** The same in the words of the specification: [p] is [prefix] followed by
    nothing or by a suffix that starts with '/'. *)
Definition delimited_prefix (prefix p : string) : Prop :=
  exists suffix,
    p = prefix +:+ suffix /\ (suffix = "" \/ exists r, suffix = String "/" r).

End CString.

Import CString.

(** ** The watch cache *)

Record watch := mkWatch {
  wd : Z;          (* watch descriptor, -1 if the slot is unused *)
  path : string    (* cached pathname *)
}.

Definition empty_slot : watch := mkWatch (-1) "".

Definition active (w : watch) : bool := 0 <=? wd w.

Fixpoint findWatch_from (j : nat) (cache : list watch) (d : Z) : option nat :=
  match cache with
  | [] => None
  | w :: rest => if wd w =? d then Some j else findWatch_from (S j) rest d
  end.

(** [findWatch]: the first slot whose descriptor is [d]. *)
Definition findWatch (cache : list watch) (d : Z) : option nat :=
  findWatch_from 0 cache d.

(** [markCacheSlotEmpty]: [wd = -1] and [path[0] = '\0']. *)
Definition markCacheSlotEmpty (slot : nat) (cache : list watch) : list watch :=
  <[slot := empty_slot]> cache.

Fixpoint pathnameToCacheSlot_from (j : nat) (cache : list watch)
    (pathname : string) : option nat :=
  match cache with
  | [] => None
  | w :: rest =>
      if (0 <=? wd w) && (strcmp (path w) pathname =? 0) then Some j
      else pathnameToCacheSlot_from (S j) rest pathname
  end.

Definition pathnameToCacheSlot (cache : list watch) (pathname : string)
    : option nat :=
  pathnameToCacheSlot_from 0 cache pathname.

Definition pathnameInCache (cache : list watch) (pathname : string) : bool :=
  match pathnameToCacheSlot cache pathname with
  | Some _ => true
  | None => false
  end.

(** The pathnames of the slots in use, in slot order. *)
Definition active_paths (cache : list watch) : list string :=
  map path (filter (fun w => active w = true) cache).

(** ** The root set *)

Fixpoint findRootDirPath_from (j : nat) (roots : list (option string))
    (p : string) : option nat :=
  match roots with
  | [] => None
  | r :: rest =>
      match r with
      | Some s => if strcmp p s =? 0 then Some j
                  else findRootDirPath_from (S j) rest p
      | None => findRootDirPath_from (S j) rest p
      end
  end.

(** [findRootDirPath]: the element of [rootDirPaths] that is not [NULL] and
    equals [p]. *)
Definition findRootDirPath (roots : list (option string)) (p : string)
    : option nat :=
  findRootDirPath_from 0 roots p.

Definition isRootDirPath (roots : list (option string)) (p : string) : bool :=
  match findRootDirPath roots p with
  | Some _ => true
  | None => false
  end.

(** ** Rewriting cached paths after a rename *)

Definition rewrite_entry (fullPath newPrefix : string) (w : watch) : watch :=
  let len := String.length fullPath in
  if prefix_match fullPath (path w) then
    let newPath := snprintf PATH_MAX (newPrefix +:+ str_drop len (path w)) in
    mkWatch (wd w) (strncpy PATH_MAX newPath)
  else w.

(** The loop [for (j = 0; j < cacheSize; j++)]: slot [j] is read and, on a
    match, overwritten; [fullPath] and [newPrefix] are local copies, so a
    slot rewritten earlier does not influence a later one. *)
Fixpoint rewrite_slots (fullPath newPrefix : string) (cache : list watch)
    : list watch :=
  match cache with
  | [] => []
  | w :: rest =>
      rewrite_entry fullPath newPrefix w :: rewrite_slots fullPath newPrefix rest
  end.

Definition rewriteCachedPaths (oldPathPrefix oldName newPathPrefix newName : string)
    (cache : list watch) : list watch :=
  let fullPath := snprintf PATH_MAX (oldPathPrefix +:+ "/" +:+ oldName) in
  let newPrefix := snprintf PATH_MAX (newPathPrefix +:+ "/" +:+ newName) in
  rewrite_slots fullPath newPrefix cache.

(** ** Inotify records *)

Record inotify_event := mkEvent {
  ev_wd : Z;
  ev_mask : N;
  ev_cookie : N;
  ev_len : N;        (* size of the name field that follows the header *)
  ev_name : string
}.

(** [mask & bits] seen as a truth value. *)
Definition has (mask bits : N) : bool := negb (N.land mask bits =? 0)%N.

Definition record_size (e : inotify_event) : Z :=
  SIZEOF_INOTIFY_EVENT + Z.of_N (ev_len e).

Fixpoint bytes (evs : list inotify_event) : Z :=
  match evs with
  | [] => 0
  | e :: rest => record_size e + bytes rest
  end.

(** [evp += n]: the records that start [n] bytes further, when [n] falls on a
    record boundary. *)
Fixpoint advance (n : Z) (buf : list inotify_event) : option (list inotify_event) :=
  match buf with
  | [] => if n =? 0 then Some [] else None
  | e :: rest =>
      if n =? 0 then Some buf
      else if n <? record_size e then None
      else advance (n - record_size e) rest
  end.

(** What a [read()] from the inotify descriptor returns: a block of whole
    records, or [-1] with [errno] set. *)
Inductive read_result :=
| ReadData (evs : list inotify_event)
| ReadError (err : Z).

Definition read_nr (r : read_result) : Z :=
  match r with
  | ReadData evs => bytes evs
  | ReadError _ => -1
  end.

Definition read_data (r : read_result) : list inotify_event :=
  match r with
  | ReadData evs => evs
  | ReadError _ => []
  end.

(** ** The operating system

    The host interface of the engine.  Every operation takes the state of the
    world (file systems, kernel watch tables, other processes) and returns its
    result with the world that follows.  A result [-1] comes with the value
    stored in [errno]. *)

Class OS (World : Type) := {
  os_close : Z -> World -> World;
  os_inotify_init : World -> Z * World;
  os_inotify_add_watch : Z -> string -> N -> World -> Z * Z * World;
  os_inotify_rm_watch : Z -> Z -> World -> Z * Z * World;
  (* nftw(pathname, fn, 20, FTW_PHYS): the entries handed to [fn], each with
     S_ISDIR of its stat buffer, then the return value and errno *)
  os_nftw : string -> World -> list (string * bool) * Z * Z;
  (* lstat: None for -1, otherwise S_ISDIR(st_mode) *)
  os_lstat : string -> World -> option bool * Z;
  os_open : string -> World -> World;
  (* realloc of the cache to the given number of slots succeeds *)
  os_realloc : nat -> World -> bool;
  (* strdup of the string succeeds: it does not return NULL *)
  os_strdup : string -> World -> bool
}.

(** The calls the engine makes, in the order it makes them. *)
Inductive call :=
| CClose (fd : Z)
| CInotifyInit
| CInotifyAddWatch (fd : Z) (pathname : string) (mask : N)
| CInotifyRmWatch (fd : Z) (d : Z)
| CNftw (pathname : string)
| CLstat (pathname : string)
| COpen (pathname : string)
| CRead (fd : Z) (count : Z)
| CDumpCache (lines : list (nat * Z * string)) (total : Z).

(** The options of the command line.  [logfp] tells whether the log file is
    open: the variable is [NULL] unless the option [-l] was given. *)
Record Config := mkConfig {
  checkCache : bool;
  dumpCache : bool;
  abortOnCacheProblem : bool;
  stopFile : string;
  readBufferSize : Z;
  logfp : bool
}.

Section Engine.

Context {World : Type} `{OS World}.

(** The global variables of the program, the caller's [inotifyFd], [errno],
    the world and the calls made so far. [cacheSize] is the length of
    [wlCache] and [numRootDirs] the length of [rootDirPaths]; a zapped root
    is a [NULL] element, here [None]. *)
Record State := mkState {
  config : Config;
  wlCache : list watch;
  rootDirPaths : list (option string);
  ignoreRootDirs : Z;
  inotifyFd : Z;
  errno : Z;
  world : World;
  trace : list call
}.

Definition numRootDirs (s : State) : Z := Z.of_nat (length (rootDirPaths s)).

Definition set_wlCache (c : list watch) (s : State) : State :=
  mkState (config s) c (rootDirPaths s) (ignoreRootDirs s) (inotifyFd s)
          (errno s) (world s) (trace s).

Definition set_roots (r : list (option string)) (n : Z) (s : State) : State :=
  mkState (config s) (wlCache s) r n (inotifyFd s) (errno s) (world s) (trace s).

Definition set_inotifyFd (fd : Z) (s : State) : State :=
  mkState (config s) (wlCache s) (rootDirPaths s) (ignoreRootDirs s) fd
          (errno s) (world s) (trace s).

Definition set_errno (e : Z) (s : State) : State :=
  mkState (config s) (wlCache s) (rootDirPaths s) (ignoreRootDirs s)
          (inotifyFd s) e (world s) (trace s).

Definition set_world (w : World) (s : State) : State :=
  mkState (config s) (wlCache s) (rootDirPaths s) (ignoreRootDirs s)
          (inotifyFd s) (errno s) w (trace s).

Definition add_call (c : call) (s : State) : State :=
  mkState (config s) (wlCache s) (rootDirPaths s) (ignoreRootDirs s)
          (inotifyFd s) (errno s) (world s) (trace s ++ [c]).

(** How a piece of the program ends: it returns a value, the process ends
    through [exit] or [abort], or the behaviour is undefined (a variable is
    read before it is assigned, memory is read outside the records or
    written outside the buffer, a null pointer is handed to [fprintf] or
    [strncmp]). *)
Inductive Result (A : Type) :=
| Ok (a : A) (s : State)
| Exited (status : Z) (s : State)
| Aborted (s : State)
| Undefined.

Arguments Ok {A} a s.
Arguments Exited {A} status s.
Arguments Aborted {A} s.
Arguments Undefined {A}.

Definition M (A : Type) : Type := State -> Result A.

Definition ret {A} (a : A) : M A := fun s => Ok a s.

Definition bind {A B} (c : M A) (k : A -> M B) : M B :=
  fun s =>
    match c s with
    | Ok a s' => k a s'
    | Exited n s' => Exited n s'
    | Aborted s' => Aborted s'
    | Undefined => Undefined
    end.

Notation "x <- c ;; k" := (bind c (fun x => k))
  (at level 100, c at next level, right associativity).
Notation "c ;;; k" := (bind c (fun _ => k))
  (at level 100, right associativity).

Definition get : M State := fun s => Ok s s.
Definition modify (f : State -> State) : M unit := fun s => Ok tt (f s).
Definition exit {A} (status : Z) : M A := fun s => Exited status s.
Definition abort {A} : M A := fun s => Aborted s.
Definition undefined {A} : M A := fun _ => Undefined.
Definition when (b : bool) (c : M unit) : M unit := if b then c else ret tt.

Fixpoint for_each {A} (l : list A) (body : A -> M unit) : M unit :=
  match l with
  | [] => ret tt
  | x :: rest => body x ;;; for_each rest body
  end.

(** *** System calls *)

Definition sys_close (fd : Z) : M unit :=
  modify (fun s => add_call (CClose fd) (set_world (os_close fd (world s)) s)).

Definition sys_inotify_init : M Z :=
  s <- get ;;
  let '(fd, w) := os_inotify_init (world s) in
  modify (fun s => add_call CInotifyInit (set_world w s)) ;;;
  ret fd.

Definition sys_inotify_add_watch (fd : Z) (pathname : string) (mask : N) : M Z :=
  s <- get ;;
  let '(d, e, w) := os_inotify_add_watch fd pathname mask (world s) in
  modify (fun s => add_call (CInotifyAddWatch fd pathname mask) (set_world w s)) ;;;
  when (d =? -1) (modify (set_errno e)) ;;;
  ret d.

Definition sys_inotify_rm_watch (fd d : Z) : M Z :=
  s <- get ;;
  let '(r, e, w) := os_inotify_rm_watch fd d (world s) in
  modify (fun s => add_call (CInotifyRmWatch fd d) (set_world w s)) ;;;
  when (r =? -1) (modify (set_errno e)) ;;;
  ret r.

Definition sys_lstat (pathname : string) : M (option bool) :=
  s <- get ;;
  let '(r, e) := os_lstat pathname (world s) in
  modify (add_call (CLstat pathname)) ;;;
  when (match r with None => true | Some _ => false end) (modify (set_errno e)) ;;;
  ret r.

Definition sys_open (pathname : string) : M unit :=
  modify (fun s => add_call (COpen pathname) (set_world (os_open pathname (world s)) s)).

(** *** Diagnostics that the properties mention *)

Fixpoint cache_lines (j : nat) (cache : list watch) : list (nat * Z * string) :=
  match cache with
  | [] => []
  | w :: rest =>
      if 0 <=? wd w then (j, wd w, path w) :: cache_lines (S j) rest
      else cache_lines (S j) rest
  end.

(** [dumpCacheToLog]: one line per slot in use, then the total.  The lines
    go to [logfp] through [fprintf] without a test of the stream: without a
    log file the total, at the latest, is written to a null stream. *)
Definition dumpCacheToLog : M unit :=
  s <- get ;;
  if logfp (config s) then
    let lines := cache_lines 0 (wlCache s) in
    modify (add_call (CDumpCache lines (Z.of_nat (length lines))))
  else undefined.

(** [createStopFileAndAbort]. *)
Definition createStopFileAndAbort {A} : M A :=
  s <- get ;;
  sys_open (stopFile (config s)) ;;;
  dumpCacheToLog ;;;
  abort.

(** The body of the loop of [checkCacheConsistency] for slot [j]. *)
Definition checkSlot (j : nat) : M unit :=
  s <- get ;;
  match wlCache s !! j with
  | None => undefined
  | Some w =>
      if 0 <=? wd w then
        r <- sys_lstat (path w) ;;
        match r with
        | None => ret tt                         (* failures++ *)
        | Some isdir => if isdir then ret tt else exit EXIT_FAILURE
        end
      else ret tt
  end.

(** [checkCacheConsistency]. *)
Definition checkCacheConsistency : M unit :=
  s <- get ;;
  for_each (seq 0 (length (wlCache s))) checkSlot.

(** *** The cache in the state *)

(** [findWatchChecked]: the slot, [None] for the [-1] that signals the
    problem, unless the program was told to abort on it. *)
Definition findWatchChecked (d : Z) : M (option nat) :=
  s <- get ;;
  match findWatch (wlCache s) d with
  | Some slot => ret (Some slot)
  | None =>
      if abortOnCacheProblem (config s) then createStopFileAndAbort
      else ret None
  end.

(** [findEmptyCacheSlot]: the first slot with [wd == -1]; without one the
    array grows by [ALLOC_INCR] slots, each marked empty. *)
Definition findEmptyCacheSlot : M nat :=
  s <- get ;;
  match findWatch (wlCache s) (-1) with
  | Some j => ret j
  | None =>
      let cacheSize := (length (wlCache s) + ALLOC_INCR)%nat in
      if os_realloc cacheSize (world s) then
        modify (set_wlCache (wlCache s ++ replicate ALLOC_INCR empty_slot)) ;;;
        ret (cacheSize - ALLOC_INCR)%nat
      else exit EXIT_FAILURE
  end.

Definition addWatchToCache (d : Z) (pathname : string) : M nat :=
  slot <- findEmptyCacheSlot ;;
  modify (fun s =>
    set_wlCache (<[slot := mkWatch d (strncpy PATH_MAX pathname)]> (wlCache s)) s) ;;;
  ret slot.

Definition markSlotEmpty (slot : nat) : M unit :=
  modify (fun s => set_wlCache (markCacheSlotEmpty slot (wlCache s)) s).

(** [zapRootDirPath]. *)
Definition zapRootDirPath (p : string) : M unit :=
  s <- get ;;
  match findRootDirPath (rootDirPaths s) p with
  | None => exit EXIT_FAILURE
  | Some j =>
      modify (set_roots (<[j := None]> (rootDirPaths s))
                        (to_int (ignoreRootDirs s + 1))) ;;;
      s <- get ;;
      if ignoreRootDirs s =? numRootDirs s then exit EXIT_SUCCESS else ret tt
  end.

(** *** Watching a subtree *)

(** [traverseTree], the function called by [nftw] on every entry. *)
Definition traverseTree (ifd : Z) (entry : string * bool) : M unit :=
  let '(pathname, isdir) := entry in
  if negb isdir then ret tt
  else
    s <- get ;;
    let flags :=
      N.lor (N.lor (N.lor IN_CREATE IN_MOVED_FROM) IN_MOVED_TO) IN_DELETE_SELF in
    let flags :=
      if isRootDirPath (rootDirPaths s) pathname then N.lor flags IN_MOVE_SELF
      else flags in
    d <- sys_inotify_add_watch ifd pathname (N.lor flags IN_ONLYDIR) ;;
    if d =? -1 then
      s <- get ;;
      if errno s =? ENOENT then ret tt else exit EXIT_FAILURE
    else
      s <- get ;;
      match findWatch (wlCache s) d with
      | Some _ => ret tt
      | None => addWatchToCache d pathname ;;; ret tt
      end.

(** [watchDir] and [watchSubtree]: a failed walk is logged and ignored. *)
Definition watchSubtree (inotifyFd : Z) (pathname : string) : M unit :=
  s <- get ;;
  let '(entries, r, e) := os_nftw pathname (world s) in
  modify (add_call (CNftw pathname)) ;;;
  for_each entries (traverseTree inotifyFd) ;;;
  when (r =? -1) (modify (set_errno e)).

(** *** Removing a subtree *)

(** The loop of [zapSubtree] over the slots [js].  [pn] is the copy of the
    path made by [strdup], [None] when the copy failed: the result of
    [strdup] is not tested, and [strncmp] reads it for every slot in use. *)
Fixpoint zap_loop (inotifyFd : Z) (pn : option string) (js : list nat)
    (cnt : Z) : M Z :=
  match js with
  | [] => ret cnt
  | j :: js' =>
      s <- get ;;
      match wlCache s !! j with
      | None => undefined
      | Some w =>
          if 0 <=? wd w then
            match pn with
            | None => undefined
            | Some copy =>
                if prefix_match copy (path w) then
                  r <- sys_inotify_rm_watch inotifyFd (wd w) ;;
                  if r =? -1 then ret (-1)                 (* cnt = -1; break *)
                  else markSlotEmpty j ;;; zap_loop inotifyFd pn js' (cnt + 1)
                else zap_loop inotifyFd pn js' cnt
            end
          else zap_loop inotifyFd pn js' cnt
      end
  end.

(** [zapSubtree]: the number of entries zapped, or [-1]. *)
Definition zapSubtree (inotifyFd : Z) (p : string) : M Z :=
  s <- get ;;
  let pn := if os_strdup p (world s) then Some p else None in
  zap_loop inotifyFd pn (seq 0 (length (wlCache s))) 0.

(** *** Reinitialization *)

Definition reinitialize (oldInotifyFd : Z) : M Z :=
  when (0 <=? oldInotifyFd) (sys_close oldInotifyFd) ;;;
  fd <- sys_inotify_init ;;
  if fd =? -1 then exit EXIT_FAILURE
  else
    modify (set_wlCache []) ;;;                              (* freeCache *)
    s <- get ;;
    for_each (rootDirPaths s) (fun r =>
      match r with
      | Some p => watchSubtree fd p
      | None => ret tt
      end) ;;;
    ret fd.

(** *** Processing one event *)

(** How a branch of [processNextInotifyEvent] ends: it falls through to the
    end of the function with the current [evLen], or it returns at once. *)
Inductive flow :=
| Fall (evLen : Z)
| Return (v : Z).

(** [wlCache[evCacheSlot].path]; [evCacheSlot] is assigned only when the
    watch descriptor of the event was looked up. *)
Definition slotPath (evCacheSlot : option nat) : M string :=
  match evCacheSlot with
  | None => undefined
  | Some j =>
      s <- get ;;
      match wlCache s !! j with
      | Some w => ret (path w)
      | None => undefined
      end
  end.

(** The caller's descriptor is replaced by the result of [reinitialize]
    applied to it. *)
Definition reinitializeFd : M unit :=
  s <- get ;;
  fd <- reinitialize (inotifyFd s) ;;
  modify (set_inotifyFd fd).

(** "Cache reached an inconsistent state": reinitialize and discard all
    remaining events in the current read() buffer. *)
Definition discardBuffer : M flow :=
  reinitializeFd ;;;
  ret (Return (to_size_t INOTIFY_READ_BUF_LEN)).

(** The directory of a "moved from" event left the monitored trees. *)
Definition movedOut (ev : inotify_event) (evCacheSlot : option nat)
    (evLen : Z) : M flow :=
  p <- slotPath evCacheSlot ;;
  let fullPath := snprintf (PATH_MAX + NAME_MAX) (p +:+ "/" +:+ ev_name ev) in
  s <- get ;;
  r <- zapSubtree (inotifyFd s) fullPath ;;
  if r =? -1 then discardBuffer else ret (Fall evLen).

(** The branch for [IN_MOVED_FROM | IN_ISDIR].  [rest] holds the records that
    follow [ev] in the buffer; [nextEv = buf + evLen] lies in the buffer when
    [evLen < bufSize]. *)
Definition movedFrom (ev : inotify_event) (rest : list inotify_event)
    (bufSize : Z) (firstTry : bool) (evCacheSlot : option nat) (evLen : Z)
    : M flow :=
  if evLen <? bufSize then
    match rest with
    | [] => undefined
    | nextEv :: _ =>
        if has (ev_mask nextEv) IN_MOVED_TO
           && (ev_cookie nextEv =? ev_cookie ev)%N then
          nextEvCacheSlot <- findWatchChecked (ev_wd nextEv) ;;
          match nextEvCacheSlot with
          | None => discardBuffer
          | Some _ =>
              oldPathPrefix <- slotPath evCacheSlot ;;
              newPathPrefix <- slotPath nextEvCacheSlot ;;
              modify (fun s =>
                set_wlCache (rewriteCachedPaths oldPathPrefix (ev_name ev)
                               newPathPrefix (ev_name nextEv) (wlCache s)) s) ;;;
              ret (Fall (to_size_t (evLen + record_size nextEv)))
          end
        else movedOut ev evCacheSlot evLen
    end
  else if negb firstTry then movedOut ev evCacheSlot evLen
  else ret (Return (to_size_t (-1))).      (* tell our caller to do another read() *)

Definition dispatch (ev : inotify_event) (rest : list inotify_event)
    (bufSize : Z) (firstTry : bool) (evCacheSlot : option nat) (evLen : Z)
    : M flow :=
  let mask := ev_mask ev in
  if has mask IN_ISDIR && has mask (N.lor IN_CREATE IN_MOVED_TO) then
    p <- slotPath evCacheSlot ;;
    let fullPath := snprintf (PATH_MAX + NAME_MAX) (p +:+ "/" +:+ ev_name ev) in
    s <- get ;;
    when (negb (pathnameInCache (wlCache s) fullPath))
         (watchSubtree (inotifyFd s) fullPath) ;;;
    ret (Fall evLen)
  else if has mask IN_DELETE_SELF then
    p <- slotPath evCacheSlot ;;
    s <- get ;;
    when (isRootDirPath (rootDirPaths s) p) (zapRootDirPath p) ;;;
    match evCacheSlot with
    | Some slot => markSlotEmpty slot
    | None => undefined
    end ;;;
    ret (Fall evLen)
  else if (N.land mask (N.lor IN_MOVED_FROM IN_ISDIR)
           =? N.lor IN_MOVED_FROM IN_ISDIR)%N then
    movedFrom ev rest bufSize firstTry evCacheSlot evLen
  else if has mask IN_Q_OVERFLOW then
    reinitializeFd ;;;
    ret (Fall (to_size_t INOTIFY_READ_BUF_LEN))
  else if has mask IN_UNMOUNT then
    match evCacheSlot with
    | Some slot => markSlotEmpty slot
    | None => undefined
    end ;;;
    ret (Fall evLen)
  else if has mask IN_MOVE_SELF then
    p <- slotPath evCacheSlot ;;
    s <- get ;;
    if isRootDirPath (rootDirPaths s) p then
      zapRootDirPath p ;;;
      p <- slotPath evCacheSlot ;;
      s <- get ;;
      r <- zapSubtree (inotifyFd s) p ;;
      if r =? -1 then discardBuffer else ret (Fall evLen)
    else ret (Fall evLen)
  else ret (Fall evLen).

(** The end of [processNextInotifyEvent], reached by every branch that does
    not return early: the optional checks, then [return evLen]. *)
Definition finish (evLen : Z) : M Z :=
  s <- get ;;
  when (checkCache (config s)) checkCacheConsistency ;;;
  when (dumpCache (config s)) dumpCacheToLog ;;;
  ret evLen.

(** A branch followed by the end of the function. *)
Definition process_end (branch : M flow) : M Z :=
  fl <- branch ;;
  match fl with
  | Return v => ret v
  | Fall evLen => finish evLen
  end.

(** [processNextInotifyEvent(inotifyFd, buf, bufSize, firstTry)]: [buf] is
    the list of the records that start at the pointer; the result is the
    returned [size_t]. *)
Definition processNextInotifyEvent (buf : list inotify_event) (bufSize : Z)
    (firstTry : bool) : M Z :=
  match buf with
  | [] => undefined
  | ev :: rest =>
      lookup <-
        (if negb (ev_wd ev =? -1) && negb (has (ev_mask ev) IN_IGNORED) then
           slot <- findWatchChecked (ev_wd ev) ;; ret (Some slot)
         else ret None) ;;
      process_end
        match lookup with
        | Some None => discardBuffer
        | Some (Some slot) =>
            dispatch ev rest bufSize firstTry (Some slot)
                     (to_size_t (record_size ev))
        | None =>
            dispatch ev rest bufSize firstTry None (to_size_t (record_size ev))
        end
  end.

(** *** Reading and processing a block of events *)

Inductive loop_end :=
| Finished
| OutOfFuel.

(** The supplementary read of [processInotifyEvents]: the [numRead] bytes
    left are moved to the start of the buffer and a read bounded by the alarm
    is appended to them.  [rr] is what that read returns.  The result is the
    records in the buffer and the new [numRead].  When the records at [evp]
    do not fill exactly the [numRead] bytes, the bytes read would land inside
    them. *)
Definition supplementaryRead (buf : list inotify_event) (numRead : Z)
    (rr : read_result) : M (list inotify_event * Z) :=
  let nr := read_nr rr in
  s <- get ;;
  modify (add_call (CRead (inotifyFd s) (INOTIFY_READ_BUF_LEN - numRead))) ;;;
  match rr with
  | ReadError e => modify (set_errno e)
  | ReadData _ => ret tt
  end ;;;
  s <- get ;;
  if (nr =? -1) && negb (errno s =? EINTR) then exit EXIT_FAILURE
  else if nr =? 0 then exit EXIT_FAILURE
  else
    let numRead' := if negb (errno s =? -1) then numRead + nr else numRead in
    match rr with
    | ReadData evs =>
        if numRead =? bytes buf then ret (buf ++ evs, numRead')
        else undefined
    | ReadError _ => ret (buf, numRead')
    end.

(** What the next supplementary read returns: the head of the list, and an
    interruption by the alarm once the list is used up. *)
Definition next_read (more : list read_result) : read_result :=
  match more with
  | [] => ReadError EINTR
  | r :: _ => r
  end.

(** The [for] loop of [processInotifyEvents].  [buf] holds the records from
    [evp] on and [numLeft] is [buf + numRead - evp]; [more] lists what the
    following supplementary reads return. *)
Fixpoint events_loop (fuel : nat) (buf : list inotify_event) (numLeft : Z)
    (firstTry : bool) (more : list read_result) : M loop_end :=
  match fuel with
  | O => ret OutOfFuel
  | S fuel' =>
      if numLeft <=? 0 then ret Finished
      else
        r <- processNextInotifyEvent buf (to_int numLeft) firstTry ;;
        let evLen := to_int r in
        if 0 <? evLen then
          if numLeft - evLen <=? 0 then ret Finished
          else
            match advance evLen buf with
            | Some buf' => events_loop fuel' buf' (numLeft - evLen) true more
            | None => undefined
            end
        else
          bn <- supplementaryRead buf numLeft (next_read more) ;;
          events_loop fuel' (fst bn) (snd bn) false (tail more)
  end.

(** [processInotifyEvents]: [first] is what the read of the block returns.
    The read asks for [cnt] bytes, which is [readBufferSize] when the option
    [-b] set it, and stores them in a buffer of [INOTIFY_READ_BUF_LEN] bytes:
    a longer block is written past the end of the buffer. *)
Definition processInotifyEvents (fuel : nat) (first : read_result)
    (more : list read_result) : M loop_end :=
  s <- get ;;
  let cnt := if 0 <? readBufferSize (config s) then readBufferSize (config s)
             else INOTIFY_READ_BUF_LEN in
  modify (add_call (CRead (inotifyFd s) cnt)) ;;;
  match first with
  | ReadError e => modify (set_errno e) ;;; exit EXIT_FAILURE
  | ReadData evs =>
      let numRead := bytes evs in
      if numRead =? 0 then exit EXIT_FAILURE
      else if INOTIFY_READ_BUF_LEN <? numRead then undefined
      else events_loop fuel evs numRead true more
  end.

End Engine.

Arguments Ok {World A} a s.
Arguments Exited {World A} status s.
Arguments Aborted {World A} s.
Arguments Undefined {World A}.

(** ** A simulated host

    A small kernel to run the engine on: a set of directories, the watch
    table of the current inotify instance, and the next descriptors to hand
    out.  A watch is keyed by the pathname it was added for. *)

Record SimWorld := mkSim {
  sim_dirs : list string;
  sim_watches : list (Z * string);
  sim_next_wd : Z;
  sim_next_fd : Z
}.

Definition sim_is_dir (p : string) (w : SimWorld) : bool :=
  existsb (String.eqb p) (sim_dirs w).

Definition sim_wd_of (p : string) (w : SimWorld) : option Z :=
  match filter (fun e => String.eqb (snd e) p = true) (sim_watches w) with
  | e :: _ => Some (fst e)
  | [] => None
  end.

Definition sim_inotify_init (w : SimWorld) : Z * SimWorld :=
  (sim_next_fd w, mkSim (sim_dirs w) [] 1 (sim_next_fd w + 1)).

Definition sim_inotify_add_watch (fd : Z) (p : string) (mask : N) (w : SimWorld)
    : Z * Z * SimWorld :=
  if sim_is_dir p w then
    match sim_wd_of p w with
    | Some d => (d, 0, w)
    | None =>
        (sim_next_wd w, 0,
         mkSim (sim_dirs w) (sim_watches w ++ [(sim_next_wd w, p)])
               (sim_next_wd w + 1) (sim_next_fd w))
    end
  else (-1, ENOENT, w).

Definition sim_inotify_rm_watch (fd d : Z) (w : SimWorld) : Z * Z * SimWorld :=
  if existsb (fun e => fst e =? d) (sim_watches w) then
    (0, 0,
     mkSim (sim_dirs w) (filter (fun e => (fst e =? d) = false) (sim_watches w))
           (sim_next_wd w) (sim_next_fd w))
  else (-1, 22, w).

Definition sim_nftw (p : string) (w : SimWorld) : list (string * bool) * Z * Z :=
  if sim_is_dir p w then
    (map (fun d => (d, true))
         (filter (fun d => prefix_match p d = true) (sim_dirs w)), 0, 0)
  else ([], -1, ENOENT).

Definition sim_lstat (p : string) (w : SimWorld) : option bool * Z :=
  if sim_is_dir p w then (Some true, 0) else (None, ENOENT).

#[global] Instance sim_OS : OS SimWorld := {
  os_close := fun _ w => w;
  os_inotify_init := sim_inotify_init;
  os_inotify_add_watch := sim_inotify_add_watch;
  os_inotify_rm_watch := sim_inotify_rm_watch;
  os_nftw := sim_nftw;
  os_lstat := sim_lstat;
  os_open := fun _ w => w;
  os_realloc := fun _ _ => true;
  os_strdup := fun _ _ => true
}.

Definition quiet : Config := mkConfig false false false "stop" 0 false.

(** A state of the simulated program: the cache and the roots given, the
    kernel watching exactly the cached directories. *)
Definition sim_state (cfg : Config) (cache : list watch)
    (roots : list (option string)) (zapped : Z) (dirs : list string)
    : State :=
  mkState cfg cache roots zapped 3 0
    (mkSim dirs
       (map (fun w => (wd w, path w)) (filter (fun w => active w = true) cache))
       (1 + fold_right Z.max 0 (map wd cache)) 4)
    [].

(** What is left of a result once the world and the calls are set aside. *)
Inductive summary (A : Type) :=
| SOk (a : A) (cache : list watch) (roots : list (option string))
| SExited (status : Z)
| SAborted
| SUndefined.

Arguments SOk {A} a cache roots.
Arguments SExited {A} status.
Arguments SAborted {A}.
Arguments SUndefined {A}.

Definition summarize {World A} (r : @Result World A) : summary A :=
  match r with
  | Ok a s => SOk a (wlCache s) (rootDirPaths s)
  | Exited n _ => SExited n
  | Aborted _ => SAborted
  | Undefined => SUndefined
  end.

Definition final_trace {World A} (r : @Result World A) : list call :=
  match r with
  | Ok _ s => trace s
  | Exited _ s => trace s
  | Aborted s => trace s
  | Undefined => []
  end.

(** Records as the kernel writes them: the name field is padded to a
    multiple of 16 bytes. *)
Definition dir_event (d : Z) (kind cookie : N) (name : string) : inotify_event :=
  mkEvent d (N.lor kind IN_ISDIR) cookie 16 name.

Definition self_event (d : Z) (kind : N) : inotify_event :=
  mkEvent d kind 0 0 "".

Definition overflow_event : inotify_event := mkEvent (-1) IN_Q_OVERFLOW 0 0 "".

Notation "x <- c ;; k" := (bind c (fun x => k))
  (at level 100, c at next level, right associativity).
Notation "c ;;; k" := (bind c (fun _ => k))
  (at level 100, right associativity).

(** ** Predicates of the specification *)

Fixpoint str_repeat (s : string) (n : nat) : string :=
  match n with
  | O => ""
  | S n' => s +:+ str_repeat s n'
  end.

(** The effect of an in-tree rename of [oldP/oldN] to [newP/newN] on the
    cache: every entry keeps its slot and its descriptor; an entry whose path
    is the old path followed by nothing or by a suffix that starts with '/'
    gets the new path followed by that suffix, every other entry keeps its
    path; no duplicate appears unless an entry already lay at or under the
    new path; and, when neither path lies under the other, nothing is left
    under the old path. *)
Definition rename_applied (oldP oldN newP newN : string)
    (cache cache' : list watch) : Prop :=
  let old := oldP +:+ "/" +:+ oldN in
  let new := newP +:+ "/" +:+ newN in
  (forall j w, cache !! j = Some w ->
     exists w', cache' !! j = Some w' /\ wd w' = wd w /\
       (forall suffix, path w = old +:+ suffix ->
          suffix = "" \/ (exists r, suffix = String "/" r) ->
          path w' = new +:+ suffix) /\
       (~ delimited_prefix old (path w) -> path w' = path w)) /\
  (NoDup (active_paths cache) ->
   (forall p, p ∈ active_paths cache -> ~ delimited_prefix new p) ->
   NoDup (active_paths cache')) /\
  (~ delimited_prefix old new -> ~ delimited_prefix new old ->
   forall w', w' ∈ cache' -> ~ delimited_prefix old (path w')).

(** The fields of a record have 32 bits. *)
Definition wf_event (e : inotify_event) : Prop :=
  (ev_len e < 2 ^ 32)%N.

(** [nextEv] is a "moved to" record with the cookie of [ev]. *)
Definition pairs_with (ev nextEv : inotify_event) : bool :=
  has (ev_mask nextEv) IN_MOVED_TO && (ev_cookie nextEv =? ev_cookie ev)%N.

(** The record that immediately follows [ev] in the buffer, when it pairs
    with [ev]. *)
Definition following_match (ev : inotify_event) (rest : list inotify_event)
    : option inotify_event :=
  match rest with
  | nextEv :: _ => if pairs_with ev nextEv then Some nextEv else None
  | [] => None
  end.

(** [ev] is the "moved from" record of a directory, [nextEv] pairs with it,
    and the cache holds [w] for the watch of [ev] and [w'] for the watch of
    [nextEv]: the two records of a rename inside the monitored trees. *)
Definition in_tree_rename {World} (s : @State World)
    (ev nextEv : inotify_event) (w w' : watch) : Prop :=
  ev_mask ev = N.lor IN_MOVED_FROM IN_ISDIR /\ ev_wd ev <> -1 /\
  pairs_with ev nextEv = true /\ wf_event ev /\ wf_event nextEv /\
  (exists slot, findWatch (wlCache s) (ev_wd ev) = Some slot /\
                wlCache s !! slot = Some w) /\
  (exists nslot, findWatch (wlCache s) (ev_wd nextEv) = Some nslot /\
                 wlCache s !! nslot = Some w').

(** Calls that only observe: [lstat] and the dump of the cache. *)
Definition diagnostic_call (c : call) : Prop :=
  match c with
  | CLstat _ | CDumpCache _ _ => True
  | _ => False
  end.

(** [s'] differs from [s] by diagnostics only. *)
Definition quiet_step {World} (s s' : @State World) : Prop :=
  config s' = config s /\ wlCache s' = wlCache s /\
  rootDirPaths s' = rootDirPaths s /\ ignoreRootDirs s' = ignoreRootDirs s /\
  inotifyFd s' = inotifyFd s /\ world s' = world s /\
  exists calls, trace s' = trace s ++ calls /\ Forall diagnostic_call calls.

(** The one-record pairing of a "moved from" record [ev] of a directory,
    found in slot [slot] holding [w], with the records [rest] that follow it
    in a buffer they fill:
    - when the record that immediately follows pairs with it, the rename is
      handled as in-tree: the cached paths are rewritten and both records are
      consumed, or, when the watch of the second record is not cached, the
      cache miss is escalated;
    - otherwise it is not: the record is left for a supplementary read (it is
      the last one and this is the first try) or handled as a move out of
      the trees;
    - the records after the one that follows have no influence;
    - in the in-tree case the returned length covers both records. *)
Definition one_record_pairing {World} `{OS World} (s : @State World)
    (ev : inotify_event) (rest : list inotify_event) (firstTry : bool)
    (slot : nat) (w : watch) : Prop :=
  let buf := ev :: rest in
  (forall nextEv, following_match ev rest = Some nextEv ->
     match findWatch (wlCache s) (ev_wd nextEv) with
     | Some nslot =>
         exists w', wlCache s !! nslot = Some w' /\
           processNextInotifyEvent buf (bytes buf) firstTry s
           = finish (record_size ev + record_size nextEv)
               (set_wlCache (rewriteCachedPaths (path w) (ev_name ev) (path w')
                               (ev_name nextEv) (wlCache s)) s)
     | None =>
         processNextInotifyEvent buf (bytes buf) firstTry s
         = if abortOnCacheProblem (config s) then createStopFileAndAbort s
           else (reinitializeFd ;;; ret (to_size_t INOTIFY_READ_BUF_LEN)) s
     end) /\
  (following_match ev rest = None ->
     processNextInotifyEvent buf (bytes buf) firstTry s
     = match rest with
       | [] => if firstTry then Ok (to_size_t (-1)) s
               else process_end (movedOut ev (Some slot) (record_size ev)) s
       | _ :: _ => process_end (movedOut ev (Some slot) (record_size ev)) s
       end) /\
  (forall rest', head rest' = head rest ->
     processNextInotifyEvent (ev :: rest') (bytes (ev :: rest')) firstTry s
     = processNextInotifyEvent buf (bytes buf) firstTry s) /\
  (forall nextEv v s', following_match ev rest = Some nextEv ->
     bytes buf <= INOTIFY_READ_BUF_LEN ->
     processNextInotifyEvent buf (bytes buf) firstTry s = Ok v s' ->
     record_size ev + record_size nextEv <= v).

(** The cache is to be dumped after every record (the option [-d]) and no
    log file is open: [dumpCacheToLog] then writes to a null stream. *)
Definition dump_without_log {World} (s : @State World) : Prop :=
  dumpCache (config s) = true /\ logfp (config s) = false.

(** How a run that only observes can end: with a value that satisfies [Q],
    or by [exit(EXIT_FAILURE)], in both cases after diagnostics only; and it
    is undefined only in a dump without log file. *)
Definition observes {World A} (c : @M World A) (s : @State World)
    (Q : A -> Prop) : Prop :=
  match c s with
  | Ok a s' => Q a /\ quiet_step s s'
  | Exited n s' => n = EXIT_FAILURE /\ quiet_step s s'
  | Aborted _ => False
  | Undefined => dump_without_log s
  end.

(** A run from [s] that ends as [r]: its last state satisfies [Q], and it is
    undefined only in a dump without log file. *)
Definition ends_in {World A} (s : @State World) (r : @Result World A)
    (Q : @State World -> Prop) : Prop :=
  match r with
  | Ok _ s' => Q s'
  | Exited _ s' => Q s'
  | Aborted s' => Q s'
  | Undefined => dump_without_log s
  end.

(** The non-zapped roots, in the order of the command line. *)
Fixpoint active_roots (roots : list (option string)) : list string :=
  match roots with
  | [] => []
  | Some p :: rest => p :: active_roots rest
  | None :: rest => active_roots rest
  end.

(** [ignoreRootDirs] counts the zapped roots, and the roots were counted in
    an [int]. *)
Definition roots_consistent {World} (s : @State World) : Prop :=
  ignoreRootDirs s
  = Z.of_nat (length (rootDirPaths s)) - Z.of_nat (length (active_roots (rootDirPaths s)))
  /\ Z.of_nat (length (rootDirPaths s)) < 2 ^ 31.

(** The pathname an entry gets, as a function of the one it had. *)
Definition rewrite_path (fullPath newPrefix p : string) : string :=
  if prefix_match fullPath p then
    strncpy PATH_MAX
      (snprintf PATH_MAX (newPrefix +:+ str_drop (String.length fullPath) p))
  else p.

(** The rewritten paths fit the [PATH_MAX] bytes of a cache slot. *)
Definition rename_fits (oldP oldN newP newN : string) (cache : list watch)
    : Prop :=
  let old := oldP +:+ "/" +:+ oldN in
  let new := newP +:+ "/" +:+ newN in
  (String.length old < PATH_MAX)%nat /\
  (String.length new < PATH_MAX)%nat /\
  Forall (fun w => delimited_prefix old (path w) ->
            (String.length new + String.length (path w) - String.length old
             < PATH_MAX)%nat) cache.



(** A watch descriptor that the processor looks up for the records [ev ::
    rest] is not in the cache: the one of [ev] itself, or the one of the
    "moved to" record that pairs with [ev]. *)
Definition cache_miss {World} (s : @State World) (ev : inotify_event)
    (rest : list inotify_event) (bufSize : Z) : Prop :=
  (ev_wd ev <> -1 /\ has (ev_mask ev) IN_IGNORED = false /\
   findWatch (wlCache s) (ev_wd ev) = None)
  \/
  (exists nextEv rest' slot,
     rest = nextEv :: rest' /\
     ev_mask ev = N.lor IN_MOVED_FROM IN_ISDIR /\ ev_wd ev <> -1 /\
     findWatch (wlCache s) (ev_wd ev) = Some slot /\
     wf_event ev /\ record_size ev < bufSize /\
     pairs_with ev nextEv = true /\
     findWatch (wlCache s) (ev_wd nextEv) = None).

(** A "created" or "moved to" record of a directory whose full path is
    already cached is skipped: the step is the end of the function applied to
    the state as it is, so it ends after diagnostics only, with the cache it
    started from: no walk, no watch, no new entry, and no duplicate path
    that was not there.  The end of the function is undefined only in a dump
    without log file. *)
Definition created_skipped {World} `{OS World} (s : @State World)
    (ev : inotify_event) (r : @Result World Z) : Prop :=
  r = finish (record_size ev) s /\
  ends_in s r (quiet_step s) /\
  (NoDup (active_paths (wlCache s)) ->
   ends_in s r (fun s' => NoDup (active_paths (wlCache s')))).

(** The root test is an exact comparison with the strings of the non-zapped
    roots, and a run from [s] that ends as [r] has left these strings as
    they were in [s]; it is undefined only in a dump without log file. *)
Definition root_test_unchanged {World} (s : @State World)
    (r : @Result World Z) : Prop :=
  (forall roots p, isRootDirPath roots p = true <-> Some p ∈ roots) /\
  ends_in s r (fun s' =>
    rootDirPaths s' = rootDirPaths s /\
    forall p, isRootDirPath (rootDirPaths s') p
              = isRootDirPath (rootDirPaths s) p).

(** The frame of an in-tree rename from [s] that ends as [r]: the cache has
    the same slots with the same descriptors, the same slots are in use, an
    entry that is not under the old path is untouched, and the step has not
    changed the world nor called it but for diagnostics; it is undefined
    only in a dump without log file. *)
Definition rename_frame {World} (s : @State World) (ev nextEv : inotify_event)
    (w w' : watch) (r : @Result World Z) : Prop :=
  let fullPath := snprintf PATH_MAX (path w +:+ "/" +:+ ev_name ev) in
  let cache' := rewriteCachedPaths (path w) (ev_name ev) (path w')
                  (ev_name nextEv) (wlCache s) in
  length cache' = length (wlCache s) /\
  map wd cache' = map wd (wlCache s) /\
  map active cache' = map active (wlCache s) /\
  (forall j e, wlCache s !! j = Some e ->
     ~ delimited_prefix fullPath (path e) -> cache' !! j = Some e) /\
  ends_in s r (fun s' =>
    wlCache s' = cache' /\ world s' = world s /\ inotifyFd s' = inotifyFd s /\
    exists calls, trace s' = trace s ++ calls /\ Forall diagnostic_call calls).

(** Zapping the root [p] found in slot [j]: the list keeps its length, slot
    [j] becomes [NULL] and no other slot changes; the process exits with
    success when no root is left, at once also when this happens while a
    "delete self" or "move self" record of that root is processed. *)
Definition root_zapped {World} `{OS World} (s : @State World) (p : string)
    (j : nat) : Prop :=
  let roots' := <[j := None]> (rootDirPaths s) in
  let s' := set_roots roots' (ignoreRootDirs s + 1) s in
  length roots' = length (rootDirPaths s) /\
  roots' !! j = Some None /\
  (forall k, k <> j -> roots' !! k = rootDirPaths s !! k) /\
  zapRootDirPath p s
  = (if decide (active_roots roots' = []) then Exited EXIT_SUCCESS s'
     else Ok tt s') /\
  (forall ev rest bufSize firstTry slot w,
     ev_mask ev = IN_DELETE_SELF \/ ev_mask ev = IN_MOVE_SELF ->
     ev_wd ev <> -1 ->
     findWatch (wlCache s) (ev_wd ev) = Some slot ->
     wlCache s !! slot = Some w -> path w = p ->
     active_roots roots' = [] ->
     processNextInotifyEvent (ev :: rest) bufSize firstTry s
     = Exited EXIT_SUCCESS s').

(** Every end of [c] that is not undefined is related by [R] to the state
    [c] started from. *)
Definition run_rel {World A} (R : @State World -> @State World -> Prop)
    (c : @M World A) : Prop :=
  forall s,
    match c s with
    | Ok _ s' => R s s'
    | Exited _ s' => R s s'
    | Aborted s' => R s s'
    | Undefined => True
    end.

(** The root list of [s'] is the one of [s] but for slots set to [NULL]. *)
Definition roots_only_zapped {World} (s s' : @State World) : Prop :=
  length (rootDirPaths s') = length (rootDirPaths s) /\
  forall j, rootDirPaths s' !! j = rootDirPaths s !! j \/
            rootDirPaths s' !! j = Some None.

Definition is_read (c : call) : bool :=
  match c with
  | CRead _ _ => true
  | _ => false
  end.

(** The number of reads from the inotify descriptor among the calls. *)
Definition count_reads (calls : list call) : nat :=
  length (filter (fun c => is_read c = true) calls).

(** What a step of the event processor guarantees whatever the record: the
    root strings are kept or zapped, and no read is made. *)
Definition step_rel {World} (s s' : @State World) : Prop :=
  roots_only_zapped s s' /\ count_reads (trace s') = count_reads (trace s).

(** The number of records that the supplementary reads bring. *)
Fixpoint records_to_come (more : list read_result) : nat :=
  match more with
  | [] => 0
  | r :: rest => length (read_data r) + records_to_come rest
  end.

(** The reads made by a run that ends as [r] and started with the calls
    [calls], beyond [n]. *)
Definition reads_within {World A} (calls : list call) (n : nat)
    (r : @Result World A) : Prop :=
  match r with
  | Ok _ s' => (count_reads (trace s') <= count_reads calls + n)%nat
  | Exited _ s' => (count_reads (trace s') <= count_reads calls + n)%nat
  | Aborted s' => (count_reads (trace s') <= count_reads calls + n)%nat
  | Undefined => True
  end.

(** A record as the kernel writes it: the name field holds at most
    [NAME_MAX + 1] bytes. *)
Definition kernel_record (e : inotify_event) : Prop :=
  (ev_len e <= N.of_nat NAME_MAX + 1)%N.

(** Every value that [c] returns satisfies [Q]. *)
Definition returns {World A} (c : @M World A) (Q : A -> Prop) : Prop :=
  forall s a s', c s = Ok a s' -> Q a.

(** The lengths that a step on [ev :: rest] can report as consumed. *)
Definition consumed_length (ev : inotify_event) (rest : list inotify_event)
    (v : Z) : Prop :=
  v = to_size_t (record_size ev) \/
  v = to_size_t INOTIFY_READ_BUF_LEN \/
  exists nextEv, head rest = Some nextEv /\
    v = to_size_t (to_size_t (record_size ev) + record_size nextEv).

Definition flow_value (fl : flow) : Z :=
  match fl with
  | Fall evLen => evLen
  | Return v => v
  end.

(** Fuel that suffices for the reader loop: the bytes left, and for every
    supplementary read still to come one unit and the bytes it brings. *)
Fixpoint reads_weight (more : list read_result) : nat :=
  match more with
  | [] => 0
  | r :: rest => S (Z.to_nat (read_nr r)) + reads_weight rest
  end.

Definition loop_bound (numLeft : Z) (more : list read_result) : nat :=
  Z.to_nat numLeft + reads_weight more.

(** The retry flag.  A step with [firstTry] cleared never asks for another
    read: it reports a positive length.  A step that asks for one is followed
    by the supplementary read and by a pass over the buffer with the flag
    cleared.  The reader loop ends: with fuel above [loop_bound] it does
    not run out of fuel.  And it makes at most one supplementary read for
    each record that it is given. *)
Definition single_retry {World} `{OS World} (s : @State World)
    (buf : list inotify_event) (numLeft : Z) (more : list read_result)
    : Prop :=
  (forall bufSize v s',
     processNextInotifyEvent buf bufSize false s = Ok v s' -> 0 < to_int v) /\
  (forall fuel r s1,
     0 < numLeft ->
     processNextInotifyEvent buf (to_int numLeft) true s = Ok r s1 ->
     to_int r <= 0 ->
     events_loop (S fuel) buf numLeft true more s
     = (bn <- supplementaryRead buf numLeft (next_read more) ;;
        events_loop fuel (fst bn) (snd bn) false (tail more)) s1) /\
  (forall firstTry fuel s',
     (loop_bound numLeft more < fuel)%nat ->
     events_loop fuel buf numLeft firstTry more s <> Ok OutOfFuel s') /\
  (forall fuel s',
     (loop_bound (bytes buf) more < fuel)%nat ->
     processInotifyEvents fuel (ReadData buf) more s <> Ok OutOfFuel s') /\
  (forall fuel,
     Forall (fun r => Forall kernel_record (read_data r)) more ->
     reads_within (trace s) (length buf + records_to_come more)
       (events_loop fuel buf numLeft true more s)).

(** ** States and records of the examples *)

(** One root [/tmp/t] with the subdirectory [a], both watched. *)
Definition demo_state : @State SimWorld :=
  sim_state quiet [mkWatch 1 "/tmp/t"; mkWatch 2 "/tmp/t/a"] [Some "/tmp/t"] 0
    ["/tmp/t"; "/tmp/t/a"].

(** The same with [abortOnCacheProblem] set and the log file open. *)
Definition debug_state : @State SimWorld :=
  sim_state (mkConfig false false true "stop" 0 true)
    [mkWatch 1 "/tmp/t"; mkWatch 2 "/tmp/t/a"] [Some "/tmp/t"] 0
    ["/tmp/t"; "/tmp/t/a"].

(** The same without a log file: the options [-a stop] alone. *)
Definition debug_state_no_log : @State SimWorld :=
  sim_state (mkConfig false false true "stop" 0 false)
    [mkWatch 1 "/tmp/t"; mkWatch 2 "/tmp/t/a"] [Some "/tmp/t"] 0
    ["/tmp/t"; "/tmp/t/a"].

(** [/tmp/t] and [/tmp/t/a] watched, the cache dumped after every record
    (the option [-d]), with and without a log file. *)
Definition dump_state (log : bool) : @State SimWorld :=
  sim_state (mkConfig false true false "stop" 0 log)
    [mkWatch 1 "/tmp/t"; mkWatch 2 "/tmp/t/a"] [Some "/tmp/t"] 0
    ["/tmp/t"; "/tmp/t/a"].

(** Two roots, the second inside the tree of the first; [/t/a] has just been
    renamed to [/t/x]. *)
Definition nested_state : @State SimWorld :=
  sim_state quiet [mkWatch 1 "/t"; mkWatch 2 "/t/a"] [Some "/t"; Some "/t/a"] 0
    ["/t"; "/t/x"].

(** [/t/a] has just been renamed onto the empty directory [/t/b], whose own
    "delete self" record is still to come. *)
Definition overwrite_state : @State SimWorld :=
  sim_state quiet [mkWatch 1 "/t"; mkWatch 2 "/t/a"; mkWatch 3 "/t/b"]
    [Some "/t"] 0 ["/t"; "/t/b"].

Definition moved_from_a : inotify_event := dir_event 1 IN_MOVED_FROM 7 "a".
Definition moved_to_b : inotify_event := dir_event 1 IN_MOVED_TO 7 "b".
Definition moved_to_x : inotify_event := dir_event 1 IN_MOVED_TO 7 "x".
Definition created_z : inotify_event := dir_event 1 IN_CREATE 0 "z".
Definition created_a : inotify_event := dir_event 1 IN_CREATE 0 "a".

(** A directory [/t/a] above a chain of 440 directories, 3964 characters in
    all, and a name of [NAME_MAX] characters to rename [a] to. *)
Definition deep_suffix : string := str_repeat "/cccccccc" 440.
Definition long_name : string := str_repeat "b" 255.
Definition deep_cache : list watch :=
  [mkWatch 1 "/t"; mkWatch 2 "/t/a"; mkWatch 3 ("/t/a" +:+ deep_suffix)].

(** [A] with its child [C], next to an unused slot; [A] has just been
    renamed to [B]. *)
Definition parent_child_cache : list watch :=
  [mkWatch 1 "/t"; mkWatch 2 "/t/A"; mkWatch 3 "/t/A/C"; empty_slot].

Definition parent_child_state : @State SimWorld :=
  sim_state quiet parent_child_cache [Some "/t"] 0 ["/t"; "/t/B"; "/t/B/C"].

Definition moved_from_A : inotify_event := dir_event 1 IN_MOVED_FROM 9 "A".
Definition moved_to_B : inotify_event := dir_event 1 IN_MOVED_TO 9 "B".

(** ** More predicates on the cache *)

(** The slots that are not free: [wd != -1]. *)
Definition used (w : watch) : bool := negb (wd w =? -1).

(** No two slots that are not free hold the same watch descriptor. *)
Definition wd_unique (cache : list watch) : Prop :=
  forall i j w w',
    cache !! i = Some w -> cache !! j = Some w' ->
    wd w = wd w' -> wd w <> -1 -> i = j.

(** A free slot holds the empty path, and no path exceeds the [PATH_MAX]
    bytes of the [path] array. *)
Definition slots_wf (cache : list watch) : Prop :=
  forall w, w ∈ cache ->
    (wd w = -1 -> path w = "") /\ (String.length (path w) <= PATH_MAX)%nat.

Definition cache_ok (cache : list watch) : Prop :=
  wd_unique cache /\ slots_wf cache.

(** [w] is an entry in use whose path is [p] or lies under [p]: the test of
    the loop of [zapSubtree]. *)
Definition under (p : string) (w : watch) : bool :=
  (0 <=? wd w) && prefix_match p (path w).

Definition zapped (p : string) (w : watch) : watch :=
  if under p w then empty_slot else w.

(** [j] is the first slot of [cache] whose entry satisfies [P]. *)
Definition first_slot (P : watch -> Prop) (cache : list watch) (j : nat)
    : Prop :=
  (exists w, cache !! j = Some w /\ P w) /\
  forall i w, (i < j)%nat -> cache !! i = Some w -> ~ P w.

(** [s'] has the configuration, the roots, the descriptor, the world and the
    calls of [s]: at most the cache differs. *)
Definition cache_only {World} (s s' : @State World) : Prop :=
  config s' = config s /\ rootDirPaths s' = rootDirPaths s /\
  ignoreRootDirs s' = ignoreRootDirs s /\ inotifyFd s' = inotifyFd s /\
  errno s' = errno s /\ world s' = world s /\ trace s' = trace s.

(** What [addWatchToCache d p] does when it ends as [r]: the entry lands in
    the first free slot, or, when no slot is free, in the first of
    [ALLOC_INCR] new slots; it holds [d] and the first [PATH_MAX] characters
    of [p]; both lookups find it; every other slot is as it was or is a new
    free slot.  Without a free slot and without memory the process exits with
    failure, the state untouched. *)
Definition watch_added {World} `{OS World} (s : @State World) (d : Z)
    (p : string) (r : @Result World nat) : Prop :=
  let c := wlCache s in
  match r with
  | Ok slot s' =>
      let c' := wlCache s' in
      cache_only s s' /\
      (findWatch c (-1) = Some slot /\ length c' = length c \/
       findWatch c (-1) = None /\ slot = length c /\
       length c' = (length c + ALLOC_INCR)%nat) /\
      c' !! slot = Some (mkWatch d (strncpy PATH_MAX p)) /\
      findWatch c' d = Some slot /\
      (0 <= d -> pathnameInCache c' (strncpy PATH_MAX p) = true) /\
      (forall j w, c !! j = Some w -> j <> slot -> c' !! j = Some w) /\
      (forall j w, c' !! j = Some w -> j <> slot ->
         c !! j = Some w \/ (length c <= j)%nat /\ w = empty_slot)
  | Exited n s' =>
      n = EXIT_FAILURE /\ s' = s /\ findWatch c (-1) = None /\
      os_realloc (length c + ALLOC_INCR) (world s) = false
  | Aborted _ => False
  | Undefined => False
  end.

(** Emptying the slot that [addWatchToCache d p] has just filled, when the
    addition ends as [r]: the cache is the one before the addition, followed
    by the free slots the addition may have appended; the descriptor is
    unknown again and the slot is the one the next addition takes. *)
Definition add_undone {World} `{OS World} (s : @State World) (d : Z)
    (r : @Result World nat) : Prop :=
  forall slot s', r = Ok slot s' ->
    exists s'', markSlotEmpty slot s' = Ok tt s'' /\
      cache_only s s'' /\
      (wlCache s'' = wlCache s \/
       wlCache s'' = wlCache s ++ replicate ALLOC_INCR empty_slot) /\
      findWatch (wlCache s'') d = None /\
      findWatch (wlCache s'') (-1) = Some slot.

Definition cache_123 : list watch :=
  [mkWatch 1 "/tmp/t"; empty_slot; mkWatch 2 "/tmp/t/a"].

(** [s'] has the configuration, the roots and the descriptor of [s]. *)
Definition same_setup {World} (s s' : @State World) : Prop :=
  config s' = config s /\ rootDirPaths s' = rootDirPaths s /\
  ignoreRootDirs s' = ignoreRootDirs s /\ inotifyFd s' = inotifyFd s.

(** The calls that release the kernel watches of the entries at or under [p],
    in slot order. *)
Definition rm_calls (fd : Z) (p : string) (cache : list watch) : list call :=
  map (fun w => CInotifyRmWatch fd (wd w))
      (filter (fun w => under p w = true) cache).

(** What [zapSubtree fd p] does when it ends as [r], whether a removal fails
    or not: it returns; it touches neither the roots nor the descriptor; the
    cache keeps its length; a slot is either left as it was or was an entry
    at or under [p] and is now free; and it calls nothing but
    [inotify_rm_watch]. *)
Definition zap_frame {World} (s : @State World) (fd : Z) (p : string)
    (r : @Result World Z) : Prop :=
  exists cnt s', r = Ok cnt s' /\ same_setup s s' /\
    length (wlCache s') = length (wlCache s) /\
    (forall j w, wlCache s !! j = Some w ->
       wlCache s' !! j = Some w \/
       under p w = true /\ wlCache s' !! j = Some empty_slot) /\
    (exists ds, trace s' = trace s ++ map (CInotifyRmWatch fd) ds) /\
    (cnt = -1 \/ 0 <= cnt).

(** What it does when it does not report [-1]: exactly the entries in use
    whose path is [p] or [p] followed by a suffix that starts with '/' are
    freed, their number is returned, their kernel watches have been released
    in slot order, and no entry at or under [p] is left. *)
Definition zap_exact {World} (s : @State World) (fd : Z) (p : string)
    (r : @Result World Z) : Prop :=
  forall cnt s', r = Ok cnt s' -> cnt <> -1 ->
    wlCache s' = map (zapped p) (wlCache s) /\
    cnt = Z.of_nat (length (rm_calls fd p (wlCache s))) /\
    trace s' = trace s ++ rm_calls fd p (wlCache s) /\
    (forall w, w ∈ wlCache s' -> 0 <= wd w -> ~ delimited_prefix p (path w)) /\
    (forall j w, wlCache s !! j = Some w ->
       ~ (0 <= wd w /\ delimited_prefix p (path w)) ->
       wlCache s' !! j = Some w).

(** [s'] satisfies the invariant [I] of caches when [s] does. *)
Definition keeps {World} (I : list watch -> Prop) (s s' : @State World) : Prop :=
  I (wlCache s) -> I (wlCache s').

(** The ways [c] can end from [s] without leaving the invariant [I]. *)
Definition preserves {World A} (I : list watch -> Prop) (c : @M World A)
    (s : @State World) : Prop :=
  match c s with
  | Ok _ s' => I (wlCache s')
  | Exited _ s' => I (wlCache s')
  | Aborted s' => I (wlCache s')
  | Undefined => True
  end.

(** [c] returns, or the process exits with failure. *)
Definition fails_only {World A} (c : @M World A) : Prop :=
  forall s,
    match c s with
    | Ok _ _ => True
    | Exited n _ => n = EXIT_FAILURE
    | Aborted _ => False
    | Undefined => False
    end.

(** What a reinitialization that ends as [r] leaves: a new descriptor and a
    cache rebuilt from nothing that satisfies the invariants, the roots as
    they were; or the end of the process with failure. *)
Definition rebuilt {World} (s : @State World) (r : @Result World Z) : Prop :=
  match r with
  | Ok fd s' =>
      fd <> -1 /\ cache_ok (wlCache s') /\
      rootDirPaths s' = rootDirPaths s /\
      ignoreRootDirs s' = ignoreRootDirs s /\ config s' = config s
  | Exited n _ => n = EXIT_FAILURE
  | Aborted _ => False
  | Undefined => False
  end.

(** The events a directory is watched for: creation, both halves of a
    rename and its own deletion, for directories only; a root is also watched
    for its own move. *)
Definition watch_flags (root : bool) : N :=
  if root then 0x1000DC0%N else 0x10005C0%N.

(** The calls of a walk on the descriptor [fd] with the roots [roots], and
    diagnostics. *)
Definition walk_call (fd : Z) (roots : list (option string)) (c : call)
    : Prop :=
  match c with
  | CNftw _ | CLstat _ | CDumpCache _ _ => True
  | CInotifyAddWatch fd' p mask =>
      fd' = fd /\ mask = watch_flags (isRootDirPath roots p)
  | _ => False
  end.

(** [s'] comes from [s] by walks on [fd]: the setup is the same, the calls
    made are those of a walk, every slot that was not free holds what it
    held, and every entry that is new holds the first [PATH_MAX] characters
    of a pathname for which [inotify_add_watch] was called on [fd] in
    between. *)
Definition walk_adds {World} (fd : Z) (s s' : @State World) : Prop :=
  same_setup s s' /\
  exists calls, trace s' = trace s ++ calls /\
    Forall (walk_call fd (rootDirPaths s)) calls /\
    (forall j w, wlCache s !! j = Some w -> wd w <> -1 ->
       wlCache s' !! j = Some w) /\
    (forall j w, wlCache s' !! j = Some w -> wd w <> -1 ->
       wlCache s !! j = Some w \/
       exists p mask, CInotifyAddWatch fd p mask ∈ calls /\
                      path w = strncpy PATH_MAX p).

(** A run that ends as [r] returned or made the process exit with failure,
    and its last state satisfies [Q]. *)
Definition ends_well {World A} (r : @Result World A)
    (Q : @State World -> Prop) : Prop :=
  match r with
  | Ok _ s' => Q s'
  | Exited n s' => n = EXIT_FAILURE /\ Q s'
  | Aborted _ => False
  | Undefined => False
  end.

(** The same for a run from [s] that goes through the end of
    [processNextInotifyEvent]: it is undefined only in a dump without log
    file. *)
Definition ends_well_unless_dump {World A} (s : @State World)
    (r : @Result World A) (Q : @State World -> Prop) : Prop :=
  match r with
  | Ok _ s' => Q s'
  | Exited n s' => n = EXIT_FAILURE /\ Q s'
  | Aborted _ => False
  | Undefined => dump_without_log s
  end.

(** The record [ev] announces a directory created in, or moved into, the
    directory cached in slot [slot] as [w]. *)
Definition directory_arrived {World} (s : @State World) (ev : inotify_event)
    (slot : nat) (w : watch) : Prop :=
  has (ev_mask ev) IN_ISDIR = true /\
  has (ev_mask ev) (N.lor IN_CREATE IN_MOVED_TO) = true /\
  has (ev_mask ev) IN_IGNORED = false /\
  ev_wd ev <> -1 /\ wf_event ev /\
  findWatch (wlCache s) (ev_wd ev) = Some slot /\
  wlCache s !! slot = Some w.

(** How such a record is handled when the run from [s] ends as [r]: unless
    the path is cached already, the new directory is walked; nothing else is
    done before the end of the function, which is undefined only in a dump
    without log file. *)
Definition directory_watched {World} `{OS World} (s : @State World)
    (ev : inotify_event) (w : watch) (r : @Result World Z) : Prop :=
  let fullPath :=
    snprintf (PATH_MAX + NAME_MAX) (path w +:+ "/" +:+ ev_name ev) in
  r = (when (negb (pathnameInCache (wlCache s) fullPath))
            (watchSubtree (inotifyFd s) fullPath) ;;;
       finish (record_size ev)) s /\
  ends_well_unless_dump s r (walk_adds (inotifyFd s) s).

(** ** Reinitialization and what leads to it *)

(** The pathnames handed to [nftw] among the calls, in order. *)
Fixpoint nftw_paths (calls : list call) : list string :=
  match calls with
  | [] => []
  | CNftw p :: rest => p :: nftw_paths rest
  | _ :: rest => nftw_paths rest
  end.

(** [s'] was reached from [s] without a call of [nftw]. *)
Definition no_walk {World} (s s' : @State World) : Prop :=
  nftw_paths (trace s') = nftw_paths (trace s).

(** The state once the descriptor of [s] is closed (when it is one), and
    once a new inotify instance was asked for after that, with the
    descriptor the kernel answers. *)
Definition closed {World} `{OS World} (s : @State World) : @State World :=
  if 0 <=? inotifyFd s then
    add_call (CClose (inotifyFd s))
             (set_world (os_close (inotifyFd s) (world s)) s)
  else s.

Definition new_instance {World} `{OS World} (s : @State World) : Z :=
  fst (os_inotify_init (world (closed s))).

Definition reopened {World} `{OS World} (s : @State World) : @State World :=
  add_call CInotifyInit
           (set_world (snd (os_inotify_init (world (closed s)))) (closed s)).

(** What [reinitializeFd] does from [s] when it ends as [r].  The old
    descriptor is closed and a new instance is opened; if that fails the
    process exits.  Otherwise the cache is emptied and every non-zapped root
    is walked on the new descriptor, in the order of the command line.  When
    the walks return, the new descriptor is the one in use, the roots and the
    configuration are as they were, the calls were the close, the
    initialization and those of the walks, [nftw] was called exactly for the
    non-zapped roots, and the cache satisfies its invariants and holds
    nothing but directories for which a watch was added on the new
    descriptor; a walk may also end the process with failure. *)
Definition reinitialized {World} `{OS World} (s : @State World)
    (r : @Result World unit) : Prop :=
  let fd := new_instance s in
  if fd =? -1 then r = Exited EXIT_FAILURE (reopened s)
  else
    r = (for_each (active_roots (rootDirPaths s)) (watchSubtree fd) ;;;
         modify (set_inotifyFd fd)) (set_wlCache [] (reopened s)) /\
    match r with
    | Ok _ s' =>
        inotifyFd s' = fd /\ config s' = config s /\
        rootDirPaths s' = rootDirPaths s /\
        ignoreRootDirs s' = ignoreRootDirs s /\
        cache_ok (wlCache s') /\
        exists calls,
          trace s'
          = trace s
            ++ (if 0 <=? inotifyFd s then [CClose (inotifyFd s)] else [])
            ++ [CInotifyInit] ++ calls /\
          nftw_paths calls = active_roots (rootDirPaths s) /\
          Forall (walk_call fd (rootDirPaths s)) calls /\
          forall j w, wlCache s' !! j = Some w -> wd w <> -1 ->
            exists p mask, CInotifyAddWatch fd p mask ∈ calls /\
                           path w = strncpy PATH_MAX p
    | Exited n _ => n = EXIT_FAILURE
    | Aborted _ => False
    | Undefined => False
    end.

(** The answer to a cache miss.  Without [abortOnCacheProblem] the engine
    reinitializes and returns the length of the whole read buffer, so that
    the reader loop ends without looking at another record.  With it the
    stop file is created and the cache is dumped; with a log file open the
    dump is written and the process aborts, without one the dump writes to a
    null stream and [abort] is not reached. *)
Definition escalated {World} `{OS World} (s : @State World)
    (buf : list inotify_event) (bufSize : Z) (firstTry : bool) : Prop :=
  let r := processNextInotifyEvent buf bufSize firstTry s in
  let stopped :=
    add_call (COpen (stopFile (config s)))
             (set_world (os_open (stopFile (config s)) (world s)) s) in
  if abortOnCacheProblem (config s) then
    sys_open (stopFile (config s)) s = Ok tt stopped /\
    if logfp (config s) then
      r = Aborted
            (add_call (CDumpCache (cache_lines 0 (wlCache s))
                         (Z.of_nat (length (cache_lines 0 (wlCache s)))))
               stopped)
    else dumpCacheToLog stopped = Undefined /\ r = Undefined
  else
    r = (reinitializeFd ;;; ret INOTIFY_READ_BUF_LEN) s /\
    reinitialized s (reinitializeFd s) /\
    forall fuel numLeft more,
      0 < numLeft <= INOTIFY_READ_BUF_LEN -> to_int numLeft = bufSize ->
      events_loop (S fuel) buf numLeft firstTry more s
      = (reinitializeFd ;;; ret Finished) s.


(** ** Records and what they lead to *)

(** A record that concerns no directory and no watch as such: none of
    [IN_ISDIR], [IN_DELETE_SELF], [IN_Q_OVERFLOW], [IN_UNMOUNT] and
    [IN_MOVE_SELF] is set.  The events on files are of this kind, and so is
    [IN_IGNORED]. *)
Definition no_directory_record (ev : inotify_event) : Prop :=
  has (ev_mask ev) IN_ISDIR = false /\
  has (ev_mask ev) IN_DELETE_SELF = false /\
  has (ev_mask ev) IN_Q_OVERFLOW = false /\
  has (ev_mask ev) IN_UNMOUNT = false /\
  has (ev_mask ev) IN_MOVE_SELF = false.

(** The watch of the record is not looked up, or it is in the cache. *)
Definition lookup_succeeds {World} (s : @State World) (ev : inotify_event)
    : Prop :=
  ev_wd ev = -1 \/ has (ev_mask ev) IN_IGNORED = true \/
  exists slot, findWatch (wlCache s) (ev_wd ev) = Some slot.

(** The step is the end of the function applied to [s]: it returns the size
    of the record, or the process exits with failure in the consistency
    check, after diagnostics only; it is undefined only in a dump without
    log file. *)
Definition skipped {World} `{OS World} (s : @State World)
    (ev : inotify_event) (r : @Result World Z) : Prop :=
  r = finish (record_size ev) s /\
  match r with
  | Ok v s' => v = record_size ev /\ quiet_step s s'
  | Exited n s' => n = EXIT_FAILURE /\ quiet_step s s'
  | Aborted _ => False
  | Undefined => dump_without_log s
  end.

(** The record says that the watched directory itself is deleted, or that
    its file system is unmounted, and the watch is cached in [slot] as [w]. *)
Definition deleted_self (ev : inotify_event) : Prop :=
  has (ev_mask ev) IN_DELETE_SELF = true /\
  has (ev_mask ev) (N.lor IN_CREATE IN_MOVED_TO) = false.

Definition unmounted (ev : inotify_event) : Prop :=
  has (ev_mask ev) IN_UNMOUNT = true /\
  has (ev_mask ev) (N.lor IN_CREATE IN_MOVED_TO) = false /\
  has (ev_mask ev) IN_DELETE_SELF = false /\
  has (ev_mask ev) IN_MOVED_FROM = false /\
  has (ev_mask ev) IN_Q_OVERFLOW = false.

Definition watch_cached {World} (s : @State World) (ev : inotify_event)
    (slot : nat) (w : watch) : Prop :=
  ev_wd ev <> -1 /\ has (ev_mask ev) IN_IGNORED = false /\ wf_event ev /\
  findWatch (wlCache s) (ev_wd ev) = Some slot /\ wlCache s !! slot = Some w.

(** The slot of the watch is marked empty and nothing else happens to the
    cache; no call is made to the kernel to remove the watch.  A root that
    is deleted is zapped first (the process exits with success if it was the
    last one); a root that is unmounted is not. *)
Definition slot_released {World} `{OS World} (s : @State World)
    (ev : inotify_event) (slot : nat) (w : watch) (r : @Result World Z)
    : Prop :=
  let freed := set_wlCache (markCacheSlotEmpty slot (wlCache s)) in
  (unmounted ev \/ isRootDirPath (rootDirPaths s) (path w) = false ->
   r = finish (record_size ev) (freed s)) /\
  (deleted_self ev -> roots_consistent s ->
   forall j, findRootDirPath (rootDirPaths s) (path w) = Some j ->
     let zap := set_roots (<[j := None]> (rootDirPaths s))
                          (ignoreRootDirs s + 1) in
     r = if decide (active_roots (<[j := None]> (rootDirPaths s)) = [])
         then Exited EXIT_SUCCESS (zap s)
         else finish (record_size ev) (freed (zap s))).

(** [zapSubtree fd p] from [s], then the end of the step: when a removal
    failed the engine reinitializes and reports the whole buffer as
    consumed; otherwise the entries at or under [p] are gone, their kernel
    watches released, and the function ends as usual with [evLen]. *)
Definition subtree_dropped {World} `{OS World} (s : @State World) (fd : Z)
    (p : string) (evLen : Z) (r : @Result World Z) : Prop :=
  exists cnt s1, zapSubtree fd p s = Ok cnt s1 /\
    r = (if cnt =? -1
         then (reinitializeFd ;;; ret (to_size_t INOTIFY_READ_BUF_LEN)) s1
         else finish evLen s1) /\
    (cnt <> -1 ->
     wlCache s1 = map (zapped p) (wlCache s) /\
     trace s1 = trace s ++ rm_calls fd p (wlCache s) /\
     same_setup s s1).

(** A "moved from" record of a directory cached in [slot] as [w] that is
    handled as a move out of the monitored trees: it is followed by a record
    that does not pair with it, or it is the last record of the buffer on the
    second try. *)
Definition moved_out_of_trees {World} (s : @State World) (ev : inotify_event)
    (rest : list inotify_event) (firstTry : bool) (slot : nat) (w : watch)
    : Prop :=
  ev_mask ev = N.lor IN_MOVED_FROM IN_ISDIR /\
  watch_cached s ev slot w /\
  match rest with
  | nextEv :: _ => pairs_with ev nextEv = false
  | [] => firstTry = false
  end.

(** A "move self" record for the watch cached in [slot] as [w]. *)
Definition moved_self (ev : inotify_event) : Prop :=
  has (ev_mask ev) IN_MOVE_SELF = true /\
  has (ev_mask ev) (N.lor IN_CREATE IN_MOVED_TO) = false /\
  has (ev_mask ev) IN_DELETE_SELF = false /\
  has (ev_mask ev) IN_MOVED_FROM = false /\
  has (ev_mask ev) IN_Q_OVERFLOW = false /\
  has (ev_mask ev) IN_UNMOUNT = false.

(** What it leads to: nothing when the cached path is not a root; otherwise
    the root is zapped (the process exits with success if it was the last
    one) and its whole subtree is dropped from the cache. *)
Definition root_moved_away {World} `{OS World} (s : @State World)
    (ev : inotify_event) (w : watch) (r : @Result World Z) : Prop :=
  (isRootDirPath (rootDirPaths s) (path w) = false ->
   r = finish (record_size ev) s) /\
  (roots_consistent s ->
   forall j, findRootDirPath (rootDirPaths s) (path w) = Some j ->
     let zap := set_roots (<[j := None]> (rootDirPaths s))
                          (ignoreRootDirs s + 1) in
     if decide (active_roots (<[j := None]> (rootDirPaths s)) = [])
     then r = Exited EXIT_SUCCESS (zap s)
     else subtree_dropped (zap s) (inotifyFd s) (path w) (record_size ev) r).

(** ** The consistency check and the dump *)

(** [lstat] says that the path of the entry [w], which is in use, exists
    and is not a directory. *)
Definition not_a_directory {World} `{OS World} (s : @State World) (w : watch)
    : bool :=
  (0 <=? wd w) &&
  match fst (os_lstat (path w) (world s)) with
  | Some false => true
  | _ => false
  end.

(** How [checkCacheConsistency] ends from [s]: after diagnostics only; with
    [exit(EXIT_FAILURE)] exactly when some entry in use is not a directory;
    and when it returns it has called [lstat] once for each slot in use, in
    slot order. *)
Definition consistency_checked {World} `{OS World} (s : @State World)
    (r : @Result World unit) : Prop :=
  match r with
  | Ok _ s' =>
      quiet_step s s' /\
      trace s' = trace s ++ map CLstat (active_paths (wlCache s)) /\
      forall w, w ∈ wlCache s -> not_a_directory s w = false
  | Exited n s' =>
      n = EXIT_FAILURE /\ quiet_step s s' /\
      exists w, w ∈ wlCache s /\ not_a_directory s w = true
  | Aborted _ => False
  | Undefined => False
  end.

(** The lines of the dump are the slots in use, each with its index, its
    descriptor and its path. *)
Definition dump_lists_cache (cache : list watch)
    (lines : list (nat * Z * string)) : Prop :=
  (forall j d p, (j, d, p) ∈ lines <->
                 cache !! j = Some (mkWatch d p) /\ 0 <= d) /\
  map snd lines = active_paths cache.

(** ** The reader loop *)

(** The step on [buf] consumed the records [consumed], which [rest]
    follows. *)
Definition step_consumed {World} `{OS World} (s : @State World)
    (buf consumed rest : list inotify_event) (numLeft : Z) (firstTry : bool)
    (s1 : @State World) : Prop :=
  buf = consumed ++ rest /\ consumed <> [] /\
  0 < numLeft /\ bytes consumed < 2 ^ 31 /\
  processNextInotifyEvent buf (to_int numLeft) firstTry s
  = Ok (bytes consumed) s1.

(** ** The roots of the command line

    [copyRootDirPaths] needs more of the host than the engine: the identity
    of a file as [lstat] reports it, and memory.  A failed allocation that
    the program detects ends the process through the macro [errExit] of the
    file, which prints the message and calls [exit(EXIT_FAILURE)]. *)

Definition SIZEOF_POINTER : Z := 8.
Definition SIZEOF_STAT : Z := 144.

Class OSStartup (World : Type) := {
  (* st_ino and st_dev of the buffer that a successful lstat fills in *)
  os_stat_id : string -> World -> N * N;
  (* calloc(nmemb, size) succeeds *)
  os_calloc : nat -> Z -> World -> bool
}.

Definition same_object (a b : N * N) : bool :=
  (fst a =? fst b)%N && (snd a =? snd b)%N.

Section Startup.

Context {World : Type} `{OS World} `{OSStartup World}.

(** The first loop: every argument must be a directory; [n] is
    [numRootDirs], an [int]. *)
Fixpoint check_roots (argv : list string) (n : Z) : @M World Z :=
  match argv with
  | [] => ret n
  | p :: rest =>
      r <- sys_lstat p ;;
      match r with
      | None => exit EXIT_FAILURE
      | Some isdir =>
          if isdir then
            if 2 ^ 31 <=? n + 1 then undefined else check_roots rest (n + 1)
          else exit EXIT_FAILURE
      end
  end.

(** The second loop, from index [j] on: [rest] holds [argv[j]] and what
    follows, [rootDirStat] the identities stored so far.  [statOk] tells
    whether the array [rootDirStat] was allocated: the program does not
    check. *)
Fixpoint copy_roots (statOk : bool) (j : nat) (rest : list string)
    (rootDirStat : list (N * N)) : @M World unit :=
  match rest with
  | [] => ret tt
  | a :: rest' =>
      s <- get ;;
      if os_strdup a (world s) then
        modify (fun s => set_roots (<[j := Some a]> (rootDirPaths s))
                                   (ignoreRootDirs s) s) ;;;
        if statOk then
          r <- sys_lstat a ;;
          match r with
          | None => exit EXIT_FAILURE
          | Some _ =>
              s <- get ;;
              let id := os_stat_id a (world s) in
              if existsb (same_object id) rootDirStat then exit EXIT_FAILURE
              else copy_roots statOk (S j) rest' (rootDirStat ++ [id])
          end
        else undefined
      else exit EXIT_FAILURE
  end.

(** [copyRootDirPaths(argv)]. *)
Definition copyRootDirPaths (argv : list string) : @M World unit :=
  n <- check_roots argv 0 ;;
  s <- get ;;
  if os_calloc (Z.to_nat n) SIZEOF_POINTER (world s) then
    modify (fun s => set_roots (replicate (Z.to_nat n) None)
                               (ignoreRootDirs s) s) ;;;
    s <- get ;;
    copy_roots (os_calloc (Z.to_nat n) SIZEOF_STAT (world s)) 0
               (take (Z.to_nat n) argv) [] ;;;
    modify (fun s => set_roots (rootDirPaths s) 0 s)
  else exit EXIT_FAILURE.

End Startup.

(** In the simulated host a directory is identified by its pathname, and
    memory never runs out. *)
Fixpoint sim_index (p : string) (dirs : list string) : nat :=
  match dirs with
  | [] => 0
  | d :: rest => if String.eqb d p then 0 else S (sim_index p rest)
  end.

Definition sim_stat_id (p : string) (w : SimWorld) : N * N :=
  (N.of_nat (sim_index p (sim_dirs w)), 0%N).

#[global] Instance sim_OSStartup : OSStartup SimWorld := {
  os_stat_id := sim_stat_id;
  os_calloc := fun _ _ _ => true
}.

(** The arguments are directories, and no two of them are the same object. *)
Definition acceptable_roots {World} `{OS World} `{OSStartup World}
    (s : @State World) (argv : list string) : Prop :=
  Forall (fun p => fst (os_lstat p (world s)) = Some true) argv /\
  NoDup (map (fun p => os_stat_id p (world s)) argv).

(** There are fewer than [2^31] arguments and memory for them. *)
Definition startup_resources {World} `{OS World} `{OSStartup World}
    (s : @State World) (argv : list string) : Prop :=
  Z.of_nat (length argv) < 2 ^ 31 /\
  os_calloc (length argv) SIZEOF_POINTER (world s) = true /\
  os_calloc (length argv) SIZEOF_STAT (world s) = true /\
  Forall (fun p => os_strdup p (world s) = true) argv.

(** How [copyRootDirPaths argv] ends as [r]: it returns exactly when the
    arguments are acceptable, and then the roots are the arguments in order,
    none zapped, their strings pairwise distinct, the counts consistent, and
    the cache and the world untouched; otherwise the process exits with
    failure. *)
Definition roots_copied {World} `{OS World} `{OSStartup World}
    (s : @State World) (argv : list string) (r : @Result World unit) : Prop :=
  match r with
  | Ok _ s' =>
      acceptable_roots s argv /\
      rootDirPaths s' = map Some argv /\ ignoreRootDirs s' = 0 /\
      roots_consistent s' /\ NoDup (active_roots (rootDirPaths s')) /\
      wlCache s' = wlCache s /\ world s' = world s /\
      inotifyFd s' = inotifyFd s /\ config s' = config s
  | Exited n _ => n = EXIT_FAILURE /\ ~ acceptable_roots s argv
  | Aborted _ => False
  | Undefined => False
  end.

(** The state after the supplementary read for the pending record [ev] was
    interrupted by the alarm. *)
Definition read_interrupted {World} (s : @State World) (ev : inotify_event)
    : @State World :=
  set_errno EINTR
    (add_call (CRead (inotifyFd s) (INOTIFY_READ_BUF_LEN - record_size ev)) s).

(** What [traverseTree] does with the entry [p] that [nftw] hands over, when
    [inotify_add_watch] answers [d] with [errno] [e]: a file that is not a
    directory is passed over without a call; a directory that has vanished
    ([ENOENT]) is passed over and the walk goes on; any other failure ends
    the process; a watch descriptor that is cached already adds nothing; and
    a new one is added to the cache. *)
Definition entry_visited {World} `{OS World} (s : @State World) (ifd : Z)
    (p : string) : Prop :=
  let mask := watch_flags (isRootDirPath (rootDirPaths s) p) in
  let d := fst (fst (os_inotify_add_watch ifd p mask (world s))) in
  let e := snd (fst (os_inotify_add_watch ifd p mask (world s))) in
  traverseTree ifd (p, false) s = Ok tt s /\
  exists s1,
    same_setup s s1 /\
    trace s1 = trace s ++ [CInotifyAddWatch ifd p mask] /\
    wlCache s1 = wlCache s /\
    (d = -1 -> e = ENOENT -> traverseTree ifd (p, true) s = Ok tt s1) /\
    (d = -1 -> e <> ENOENT ->
     traverseTree ifd (p, true) s = Exited EXIT_FAILURE s1) /\
    (d <> -1 -> (exists slot, findWatch (wlCache s) d = Some slot) ->
     traverseTree ifd (p, true) s = Ok tt s1) /\
    (d <> -1 -> findWatch (wlCache s) d = None ->
     traverseTree ifd (p, true) s = (addWatchToCache d p ;;; ret tt) s1 /\
     watch_added s1 d p (addWatchToCache d p s1)).

(** ** More states and records of the examples *)

(** A file created in [/tmp/t]. *)
Definition created_file : inotify_event := mkEvent 1 IN_CREATE 0 16 "f".

(** [/tmp/t/a] is deleted; the root [/tmp/t] is moved. *)
Definition deleted_a : inotify_event := self_event 2 IN_DELETE_SELF.
Definition moved_root : inotify_event := self_event 1 IN_MOVE_SELF.

(** Two roots, both watched. *)
Definition two_roots_state : @State SimWorld :=
  sim_state quiet [mkWatch 1 "/r1"; mkWatch 2 "/r2"; mkWatch 3 "/r2/d"]
    [Some "/r1"; Some "/r2"] 0 ["/r1"; "/r2"; "/r2/d"].

(** * Properties *)

(** ** Facts on C strings *)

Section CStringFacts.

Local Open Scope nat_scope.

Lemma str_app_cons (c : ascii) (a b : string) :
  String c a +:+ b = String c (a +:+ b).
Proof. reflexivity. Qed.

Lemma str_app_nil_l (b : string) : "" +:+ b = b.
Proof. reflexivity. Qed.

Lemma str_take_app (a b : string) : str_take (String.length a) (a +:+ b) = a.
Proof.
  induction a as [|c a IH]; [by destruct b|].
  rewrite str_app_cons. simpl. by rewrite IH.
Qed.

Lemma str_drop_app (a b : string) : str_drop (String.length a) (a +:+ b) = b.
Proof.
  induction a as [|c a IH]; [by destruct b|].
  rewrite str_app_cons. simpl. apply IH.
Qed.

Lemma str_take_drop (n : nat) (s : string) : str_take n s +:+ str_drop n s = s.
Proof.
  revert s; induction n as [|n IH]; intros [|c s]; simpl; try done.
  rewrite str_app_cons. f_equal. apply IH.
Qed.

Lemma str_take_all (n : nat) (s : string) :
  String.length s <= n -> str_take n s = s.
Proof.
  revert s; induction n as [|n IH]; intros [|c s]; simpl; intros Hn;
    try done; try lia.
  rewrite IH; [done | lia].
Qed.

Lemma str_take_length (n : nat) (s : string) :
  String.length (str_take n s) = Nat.min n (String.length s).
Proof.
  revert s; induction n as [|n IH]; intros [|c s]; simpl; try done.
  by rewrite IH.
Qed.

Lemma str_app_length (a b : string) :
  String.length (a +:+ b) = String.length a + String.length b.
Proof.
  induction a as [|c a IH]; [done|].
  rewrite str_app_cons. simpl. by rewrite IH.
Qed.

Lemma str_app_inv_head (a b c : string) : a +:+ b = a +:+ c -> b = c.
Proof.
  induction a as [|x a IH]; [done|].
  rewrite !str_app_cons. intros [= E]. auto.
Qed.

Lemma snprintf_fits (size : nat) (s : string) :
  String.length s < size -> snprintf size s = s.
Proof. intros Hs. unfold snprintf. apply str_take_all. lia. Qed.

Lemma strcmp_zero_iff (a b : string) : strcmp a b = 0%Z <-> a = b.
Proof.
  revert b; induction a as [|c a IH]; intros [|d b]; simpl; try done.
  destruct (Ascii.eqb_spec c d) as [->|Hne].
  - rewrite IH. split; [by intros -> | by intros [= ->]].
  - split; [by destruct (char_lt c d) | by intros [= -> ->]].
Qed.

Lemma strncmp_zero_iff (a p : string) :
  strncmp a p (String.length a) = 0%Z <-> str_take (String.length a) p = a.
Proof.
  revert p; induction a as [|c a IH]; intros [|d p]; simpl; try done.
  destruct (Ascii.eqb_spec c d) as [->|Hne].
  - rewrite IH. split; [intros E; by rewrite E | by intros [= E]].
  - split; [by destruct (char_lt c d) | intros [= E _]; by destruct Hne].
Qed.

Lemma get_drop (n : nat) (s : string) :
  String.get n s = match str_drop n s with
                   | EmptyString => None
                   | String c _ => Some c
                   end.
Proof.
  revert s; induction n as [|n IH]; intros [|c s]; simpl; try done.
Qed.

(** The test of the code is the delimited prefix of the specification. *)
Lemma prefix_match_iff (prefix p : string) :
  prefix_match prefix p = true <-> delimited_prefix prefix p.
Proof.
  unfold prefix_match, delimited_prefix, char_at_is, nul_at.
  rewrite andb_true_iff, Z.eqb_eq, strncmp_zero_iff, get_drop. split.
  - intros [Ht Hd]. exists (str_drop (String.length prefix) p). split.
    + rewrite <- Ht at 1. by rewrite str_take_drop.
    + destruct (str_drop (String.length prefix) p) as [|c r]; [by left|].
      right. exists r. rewrite orb_false_r in Hd.
      by apply Ascii.eqb_eq in Hd as ->.
  - intros (suffix & -> & Hs). rewrite str_take_app, str_drop_app.
    split; [done|]. by destruct Hs as [->|[r ->]].
Qed.

Lemma prefix_match_false (prefix p : string) :
  prefix_match prefix p = false <-> ~ delimited_prefix prefix p.
Proof.
  rewrite <- prefix_match_iff. by destruct (prefix_match prefix p).
Qed.

End CStringFacts.

(** ** The rewrite of cached paths *)

Section RewriteFacts.

Lemma str_app_eq_app (a b c d : string) :
  a +:+ b = c +:+ d ->
  (exists x, c = a +:+ x /\ b = x +:+ d) \/ (exists x, a = c +:+ x /\ d = x +:+ b).
Proof.
  revert c; induction a as [|x a IH]; intros c E.
  - left. exists c. by rewrite str_app_nil_l in *.
  - destruct c as [|y c].
    + right. exists (String x a). by rewrite str_app_nil_l in *.
    + rewrite !str_app_cons in E. injection E as -> E.
      destruct (IH _ E) as [(z & -> & ->)|(z & -> & ->)];
        [left | right]; by exists z.
Qed.

Lemma delimited_prefix_app (old new suffix : string) :
  suffix = "" \/ (exists r, suffix = String "/" r) ->
  delimited_prefix old (new +:+ suffix) ->
  delimited_prefix old new \/ delimited_prefix new old.
Proof.
  intros Hs (s' & E & Hs').
  destruct (str_app_eq_app _ _ _ _ E) as [(x & -> & ->)|(x & -> & ->)].
  - right. exists x. split; [done|].
    destruct x as [|c x]; [by left|]. right.
    destruct Hs as [Hs|[r Hs]]; [done|].
    rewrite str_app_cons in Hs. injection Hs as -> _. by exists x.
  - left. exists x. split; [done|].
    destruct x as [|c x]; [by left|]. right.
    destruct Hs' as [Hs'|[r Hs']]; [done|].
    rewrite str_app_cons in Hs'. injection Hs' as -> _. by exists x.
Qed.

Lemma rewrite_slots_map (fullPath newPrefix : string) (cache : list watch) :
  rewrite_slots fullPath newPrefix cache
  = map (rewrite_entry fullPath newPrefix) cache.
Proof. induction cache as [|w rest IH]; simpl; [done | by rewrite IH]. Qed.

Lemma rewrite_entry_wd (fullPath newPrefix : string) (w : watch) :
  wd (rewrite_entry fullPath newPrefix w) = wd w.
Proof. unfold rewrite_entry. by destruct (prefix_match _ _). Qed.

Lemma rewrite_entry_other (fullPath newPrefix : string) (w : watch) :
  ~ delimited_prefix fullPath (path w) ->
  rewrite_entry fullPath newPrefix w = w.
Proof.
  intros Hn. apply prefix_match_false in Hn. unfold rewrite_entry.
  by rewrite Hn.
Qed.

Lemma rewrite_entry_path (fullPath newPrefix : string) (w : watch) :
  path (rewrite_entry fullPath newPrefix w)
  = rewrite_path fullPath newPrefix (path w).
Proof. unfold rewrite_entry, rewrite_path. by destruct (prefix_match _ _). Qed.

Lemma rewrite_path_match (old new suffix : string) :
  (String.length new + String.length suffix < PATH_MAX)%nat ->
  suffix = "" \/ (exists r, suffix = String "/" r) ->
  rewrite_path old new (old +:+ suffix) = new +:+ suffix.
Proof.
  intros Hlen Hs. unfold rewrite_path.
  assert (prefix_match old (old +:+ suffix) = true) as ->
    by (apply prefix_match_iff; by exists suffix).
  rewrite str_drop_app. unfold strncpy.
  rewrite snprintf_fits by (rewrite str_app_length; lia).
  apply str_take_all. rewrite str_app_length. lia.
Qed.

Lemma active_rewrite_entry (fullPath newPrefix : string) (w : watch) :
  active (rewrite_entry fullPath newPrefix w) = active w.
Proof. unfold active. by rewrite rewrite_entry_wd. Qed.

Lemma active_paths_rewrite (fullPath newPrefix : string) (cache : list watch) :
  active_paths (rewrite_slots fullPath newPrefix cache)
  = map (rewrite_path fullPath newPrefix) (active_paths cache).
Proof.
  unfold active_paths. induction cache as [|w rest IH]; [done|].
  simpl. destruct (active w) eqn:Ha.
  - rewrite !filter_cons_True by (by rewrite ?active_rewrite_entry).
    simpl. by rewrite IH, rewrite_entry_path.
  - rewrite !filter_cons_False by (by rewrite ?active_rewrite_entry, Ha).
    apply IH.
Qed.

Lemma rename_fits_paths (oldP oldN newP newN : string) (cache : list watch) :
  rename_fits oldP oldN newP newN cache ->
  rewriteCachedPaths oldP oldN newP newN cache
  = rewrite_slots (oldP +:+ "/" +:+ oldN) (newP +:+ "/" +:+ newN) cache.
Proof.
  intros (Ho & Hn & _). unfold rewriteCachedPaths.
  by rewrite !snprintf_fits.
Qed.

End RewriteFacts.

Section RenameTheorems.

Lemma rename_fits_suffix (old new suffix : string) (w : watch) :
  (delimited_prefix old (path w) ->
   (String.length new + String.length (path w) - String.length old < PATH_MAX)%nat) ->
  path w = old +:+ suffix ->
  suffix = "" \/ (exists r, suffix = String "/" r) ->
  (String.length new + String.length suffix < PATH_MAX)%nat.
Proof.
  intros Hfit E Hs.
  assert (delimited_prefix old (path w)) as Hd by (by exists suffix).
  specialize (Hfit Hd). rewrite E, str_app_length in Hfit. lia.
Qed.

(** The rewrite, when the rewritten paths fit a cache slot. *)
Lemma rewriteCachedPaths_rename (oldP oldN newP newN : string)
    (cache : list watch) :
  rename_fits oldP oldN newP newN cache ->
  rename_applied oldP oldN newP newN cache
    (rewriteCachedPaths oldP oldN newP newN cache).
Proof.
  intros Hfits. rewrite (rename_fits_paths _ _ _ _ _ Hfits).
  destruct Hfits as (Ho & Hn & Hall).
  set (old := oldP +:+ "/" +:+ oldN) in *.
  set (new := newP +:+ "/" +:+ newN) in *.
  rewrite Forall_forall in Hall.
  assert (Hpath : forall p, p ∈ active_paths cache ->
            forall suffix, p = old +:+ suffix ->
            suffix = "" \/ (exists r, suffix = String "/" r) ->
            rewrite_path old new p = new +:+ suffix).
  { intros p Hp suffix -> Hs. apply rewrite_path_match; [|done].
    unfold active_paths in Hp. apply list_elem_of_fmap in Hp as (w & E & Hw).
    apply list_elem_of_filter in Hw as [_ Hw].
    eapply (rename_fits_suffix old new suffix w); eauto. }
  unfold rename_applied. fold old new. split; [|split].
  - intros j w Hj. exists (rewrite_entry old new w).
    rewrite rewrite_slots_map, list_lookup_fmap, Hj.
    split; [done|]. split; [apply rewrite_entry_wd|]. split.
    + intros suffix E Hs. rewrite rewrite_entry_path, E.
      apply rewrite_path_match; [|done].
      apply (rename_fits_suffix old new suffix w); auto.
      apply Hall. eapply list_elem_of_lookup_2; eauto.
    + intros Hnd. by rewrite rewrite_entry_other.
  - intros Hnodup Hfresh. rewrite active_paths_rewrite.
    apply NoDup_fmap_2_strong; [|done].
    intros p q Hp Hq E.
    destruct (prefix_match old p) eqn:Mp, (prefix_match old q) eqn:Mq.
    + apply prefix_match_iff in Mp as (sp & Ep & Hsp).
      apply prefix_match_iff in Mq as (sq & Eq & Hsq).
      rewrite (Hpath p Hp sp Ep Hsp), (Hpath q Hq sq Eq Hsq) in E.
      apply str_app_inv_head in E. by subst.
    + apply prefix_match_iff in Mp as (sp & Ep & Hsp).
      rewrite (Hpath p Hp sp Ep Hsp) in E.
      unfold rewrite_path in E. rewrite Mq in E.
      destruct (Hfresh q Hq). by exists sp.
    + apply prefix_match_iff in Mq as (sq & Eq & Hsq).
      rewrite (Hpath q Hq sq Eq Hsq) in E.
      unfold rewrite_path in E. rewrite Mp in E.
      destruct (Hfresh p Hp). by exists sq.
    + unfold rewrite_path in E. by rewrite Mp, Mq in E.
  - intros Hno Hon w' Hw'. rewrite rewrite_slots_map in Hw'.
    apply list_elem_of_fmap in Hw' as (w & -> & Hw).
    destruct (prefix_match old (path w)) eqn:Mw.
    + apply prefix_match_iff in Mw as (suffix & E & Hs).
      rewrite rewrite_entry_path, E, rewrite_path_match; [|
        apply (rename_fits_suffix old new suffix w); auto | done].
      intros Hd. destruct (delimited_prefix_app _ _ _ Hs Hd); auto.
    + apply prefix_match_false in Mw. by rewrite rewrite_entry_other.
Qed.

(** The rewrite changes nothing but the path of the entries that match. *)
Lemma rewriteCachedPaths_frame (oldP oldN newP newN : string)
    (cache : list watch) :
  let fullPath := snprintf PATH_MAX (oldP +:+ "/" +:+ oldN) in
  let cache' := rewriteCachedPaths oldP oldN newP newN cache in
  length cache' = length cache /\
  map wd cache' = map wd cache /\
  map active cache' = map active cache /\
  (forall j w, cache !! j = Some w ->
     ~ delimited_prefix fullPath (path w) -> cache' !! j = Some w).
Proof.
  unfold rewriteCachedPaths. cbv zeta.
  set (fullPath := snprintf PATH_MAX (oldP +:+ "/" +:+ oldN)).
  set (newPrefix := snprintf PATH_MAX (newP +:+ "/" +:+ newN)).
  rewrite rewrite_slots_map. repeat split.
  - by rewrite length_map.
  - rewrite map_map. apply map_ext. intros w. apply rewrite_entry_wd.
  - rewrite map_map. apply map_ext. intros w. apply active_rewrite_entry.
  - intros j w Hj Hn. rewrite list_lookup_fmap, Hj. simpl.
    by rewrite rewrite_entry_other.
Qed.

End RenameTheorems.

(** ** Lookups in the cache and in the root set *)

Section LookupFacts.

Lemma findWatch_from_lookup (cache : list watch) (d : Z) (k j : nat) :
  findWatch_from k cache d = Some j ->
  exists w, cache !! (j - k)%nat = Some w /\ wd w = d /\ (k <= j)%nat.
Proof.
  revert k; induction cache as [|w rest IH]; intros k; simpl; [done|].
  destruct (Z.eqb_spec (wd w) d) as [E|Hne].
  - intros [= <-]. exists w. by rewrite Nat.sub_diag.
  - intros Hf. destruct (IH _ Hf) as (w' & Hl & Hw & Hk).
    exists w'. split; [|split; [done | lia]].
    replace (j - k)%nat with (S (j - S k)) by lia. done.
Qed.

Lemma findWatch_lookup (cache : list watch) (d : Z) (j : nat) :
  findWatch cache d = Some j -> exists w, cache !! j = Some w /\ wd w = d.
Proof.
  intros Hf. destruct (findWatch_from_lookup _ _ _ _ Hf) as (w & Hl & Hw & _).
  exists w. by rewrite Nat.sub_0_r in Hl.
Qed.

Lemma pathnameToCacheSlot_from_Some (cache : list watch) (p : string) (k : nat) :
  p ∈ active_paths cache ->
  exists j, pathnameToCacheSlot_from k cache p = Some j.
Proof.
  revert k; unfold active_paths.
  induction cache as [|w rest IH]; intros k Hin; simpl.
  - by apply elem_of_nil in Hin.
  - destruct (active w) eqn:Ha.
    + rewrite filter_cons_True in Hin by done. unfold active in Ha.
      rewrite Ha. simpl. destruct (Z.eqb_spec (strcmp (path w) p) 0) as [E|Hne].
      * by exists k.
      * simpl in Hin. apply elem_of_cons in Hin as [->|Hin]; [|by apply IH].
        destruct Hne. by apply strcmp_zero_iff.
    + rewrite filter_cons_False in Hin by (by rewrite Ha).
      unfold active in Ha. rewrite Ha. simpl. by apply IH.
Qed.

Lemma pathnameToCacheSlot_from_None (cache : list watch) (p : string) (k : nat) :
  p ∉ active_paths cache -> pathnameToCacheSlot_from k cache p = None.
Proof.
  revert k; unfold active_paths.
  induction cache as [|w rest IH]; intros k Hin; simpl; [done|].
  destruct (active w) eqn:Ha.
  - rewrite filter_cons_True in Hin by done. unfold active in Ha.
    rewrite Ha. simpl in *. apply not_elem_of_cons in Hin as [Hne Hin].
    destruct (Z.eqb_spec (strcmp (path w) p) 0) as [E|_]; [|by apply IH].
    destruct Hne. symmetry. by apply strcmp_zero_iff.
  - rewrite filter_cons_False in Hin by (by rewrite Ha).
    unfold active in Ha. rewrite Ha. simpl. by apply IH.
Qed.

(** [pathnameInCache] holds exactly for the paths of the slots in use. *)
Lemma pathnameInCache_iff (cache : list watch) (p : string) :
  pathnameInCache cache p = true <-> p ∈ active_paths cache.
Proof.
  unfold pathnameInCache, pathnameToCacheSlot. split.
  - intros Hc. destruct (decide (p ∈ active_paths cache)) as [|Hn]; [done|].
    by rewrite (pathnameToCacheSlot_from_None _ _ 0 Hn) in Hc.
  - intros Hin. by destruct (pathnameToCacheSlot_from_Some _ _ 0 Hin) as [j ->].
Qed.

Lemma findRootDirPath_from_lookup (roots : list (option string)) (p : string)
    (k j : nat) :
  findRootDirPath_from k roots p = Some j ->
  roots !! (j - k)%nat = Some (Some p) /\ (k <= j)%nat.
Proof.
  revert k; induction roots as [|r rest IH]; intros k; simpl; [done|].
  assert (Hrec : findRootDirPath_from (S k) rest p = Some j ->
            (r :: rest) !! (j - k)%nat = Some (Some p) /\ (k <= j)%nat).
  { intros Hf. destruct (IH _ Hf) as [Hl Hk]. split; [|lia].
    replace (j - k)%nat with (S (j - S k)) by lia. done. }
  destruct r as [s|]; [|done].
  destruct (Z.eqb_spec (strcmp p s) 0) as [E|Hne]; [|done].
  intros [= <-]. apply strcmp_zero_iff in E as ->.
  by rewrite Nat.sub_diag.
Qed.

Lemma findRootDirPath_lookup (roots : list (option string)) (p : string) (j : nat) :
  findRootDirPath roots p = Some j -> roots !! j = Some (Some p).
Proof.
  intros Hf. destruct (findRootDirPath_from_lookup _ _ _ _ Hf) as [Hl _].
  by rewrite Nat.sub_0_r in Hl.
Qed.

Lemma findRootDirPath_from_None (roots : list (option string)) (p : string)
    (k : nat) :
  findRootDirPath_from k roots p = None -> Some p ∉ roots.
Proof.
  revert k; induction roots as [|r rest IH]; intros k; simpl.
  - intros _. apply not_elem_of_nil.
  - intros Hf. apply not_elem_of_cons. destruct r as [s|].
    + destruct (Z.eqb_spec (strcmp p s) 0) as [E|Hne]; [done|].
      split; [|by eapply IH]. intros [= ->]. destruct Hne.
      by apply strcmp_zero_iff.
    + split; [done | by eapply IH].
Qed.

Lemma isRootDirPath_true (roots : list (option string)) (p : string) :
  isRootDirPath roots p = true <-> Some p ∈ roots.
Proof.
  unfold isRootDirPath. destruct (findRootDirPath roots p) as [j|] eqn:Hf.
  - split; [|done]. intros _. apply findRootDirPath_lookup in Hf.
    eapply list_elem_of_lookup_2; eauto.
  - split; [done|]. intros Hin.
    by destruct (findRootDirPath_from_None _ _ _ Hf).
Qed.

End LookupFacts.

(** ** The end of [processNextInotifyEvent] *)

Section FinishFacts.

Context {World : Type} `{OS World}.

Implicit Types s : @State World.

Lemma quiet_step_refl s : quiet_step s s.
Proof.
  repeat split. exists []. split; [by rewrite app_nil_r | constructor].
Qed.

Lemma quiet_step_trans s1 s2 s3 :
  quiet_step s1 s2 -> quiet_step s2 s3 -> quiet_step s1 s3.
Proof.
  intros (C1 & W1 & R1 & I1 & F1 & O1 & l1 & T1 & D1)
         (C2 & W2 & R2 & I2 & F2 & O2 & l2 & T2 & D2).
  repeat split; try congruence.
  exists (l1 ++ l2). split; [|by apply Forall_app].
  by rewrite T2, T1, app_assoc.
Qed.

Lemma quiet_step_call s c :
  diagnostic_call c -> quiet_step s (add_call c s).
Proof.
  intros Hc. repeat split. exists [c]. split; [done | by constructor].
Qed.

Lemma quiet_step_errno s e : quiet_step s (set_errno e s).
Proof.
  repeat split. exists []. split; [by rewrite app_nil_r | constructor].
Qed.

Lemma observes_bind {A B} (c : @M World A) (k : A -> @M World B) s
    (Q : A -> Prop) (Q' : B -> Prop) :
  observes c s Q ->
  (forall a s', Q a -> quiet_step s s' -> observes (k a) s' Q') ->
  observes (bind c k) s Q'.
Proof.
  unfold observes, bind. destruct (c s) as [a s'| n s' | s' |]; try done.
  intros [Ha Hq] Hk. specialize (Hk a s' Ha Hq).
  destruct (k a s') as [b s''| n s'' | s'' |]; try done.
  - destruct Hk as [? Hq']. split; [done | by eapply quiet_step_trans].
  - destruct Hk as [? Hq']. split; [done | by eapply quiet_step_trans].
  - destruct Hq as (Hc & _). unfold dump_without_log in *. by rewrite <- Hc.
Qed.

Lemma observes_ret {A} (a : A) s (Q : A -> Prop) :
  Q a -> observes (ret a) s Q.
Proof. intros Ha. split; [done | apply quiet_step_refl]. Qed.

Lemma bind_get {B} (k : State -> @M World B) s : bind get k s = k s s.
Proof. done. Qed.

Lemma observes_get {B} (k : State -> @M World B) s (Q : B -> Prop) :
  observes (k s) s Q -> observes (bind get k) s Q.
Proof. done. Qed.

Lemma sys_lstat_observes p s : observes (sys_lstat p) s (fun _ => True).
Proof.
  unfold observes, sys_lstat, bind, get, modify, when, ret.
  destruct (os_lstat p (world s)) as [[b|] e]; simpl; (split; [done|]).
  - by apply quiet_step_call.
  - eapply quiet_step_trans; [by apply (quiet_step_call _ (CLstat p))|].
    apply quiet_step_errno.
Qed.

Lemma checkSlot_observes j s :
  (j < length (wlCache s))%nat -> observes (checkSlot j) s (fun _ => True).
Proof.
  intros Hj. destruct (lookup_lt_is_Some_2 _ _ Hj) as [w Hw].
  unfold checkSlot. apply observes_get. rewrite Hw.
  destruct (0 <=? wd w); [|by apply observes_ret].
  eapply observes_bind; [apply sys_lstat_observes|].
  intros [[|]|] s' _ Hq; [by apply observes_ret | | by apply observes_ret].
  split; [done | apply quiet_step_refl].
Qed.

Lemma for_each_checkSlot_observes js s :
  Forall (fun j => (j < length (wlCache s))%nat) js ->
  observes (for_each js checkSlot) s (fun _ => True).
Proof.
  revert s; induction js as [|j js IH]; intros s Hjs; simpl.
  - by apply observes_ret.
  - apply Forall_cons in Hjs as [Hj Hjs].
    eapply observes_bind; [by apply checkSlot_observes|].
    intros _ s' _ Hq. apply IH. destruct Hq as (_ & -> & _). done.
Qed.

Lemma checkCacheConsistency_observes s :
  observes checkCacheConsistency s (fun _ => True).
Proof.
  unfold checkCacheConsistency. apply observes_get.
  apply for_each_checkSlot_observes.
  apply Forall_forall. intros j Hj.
  apply list_elem_of_In, in_seq in Hj. lia.
Qed.

Lemma dumpCacheToLog_observes s :
  dumpCache (config s) = true -> observes dumpCacheToLog s (fun _ => True).
Proof.
  intros Hd. unfold observes, dumpCacheToLog. rewrite bind_get.
  destruct (logfp (config s)) eqn:Hl; [|done].
  split; [done | by apply quiet_step_call].
Qed.

(** The end of the function only observes, and returns [evLen]. *)
Lemma finish_observes evLen s : observes (finish evLen) s (fun v => v = evLen).
Proof.
  unfold finish. apply observes_get.
  eapply observes_bind with (Q := fun _ => True).
  { destruct (checkCache (config s)); simpl;
      [apply checkCacheConsistency_observes | by apply observes_ret]. }
  intros _ s1 _ H0.
  eapply observes_bind with (Q := fun _ => True).
  { destruct (dumpCache (config s)) eqn:Hd; simpl;
      [|by apply observes_ret].
    apply dumpCacheToLog_observes.
    destruct H0 as (Hc & _). by rewrite Hc. }
  intros _ s2 _ _. by apply observes_ret.
Qed.

(** How the end of the function ends. *)
Lemma finish_ends evLen s :
  match finish evLen s with
  | Ok v s' => v = evLen /\ quiet_step s s'
  | Exited n s' => n = EXIT_FAILURE /\ quiet_step s s'
  | Aborted _ => False
  | Undefined => dump_without_log s
  end.
Proof. apply finish_observes. Qed.

(** With a log file, or without the dump, it is defined. *)
Lemma finish_defined evLen s :
  dumpCache (config s) = false \/ logfp (config s) = true ->
  finish evLen s <> Undefined.
Proof.
  intros Hc E. pose proof (finish_ends evLen s) as He. rewrite E in He.
  destruct He as [Hd Hl]. destruct Hc; congruence.
Qed.

End FinishFacts.

(** ** Steps of the event processor *)

Section StepFacts.

Context {World : Type} `{OS World}.

Implicit Types s : @State World.

Lemma to_int_small (x : Z) : -2 ^ 31 <= x < 2 ^ 31 -> to_int x = x.
Proof. intros Hx. unfold to_int. rewrite Z.mod_small; lia. Qed.

Lemma active_roots_length (roots : list (option string)) :
  (length (active_roots roots) <= length roots)%nat.
Proof.
  induction roots as [|[p|] roots IH]; simpl; lia.
Qed.

Lemma active_roots_zap_length (roots : list (option string)) (j : nat) (p : string) :
  roots !! j = Some (Some p) ->
  S (length (active_roots (<[j := None]> roots))) = length (active_roots roots).
Proof.
  revert j; induction roots as [|r roots IH]; intros j Hj; [done|].
  destruct j as [|j]; simpl in *.
  - by injection Hj as ->.
  - destruct r; simpl; by rewrite <- (IH j Hj).
Qed.

Lemma record_size_pos (e : inotify_event) : 16 <= record_size e.
Proof. unfold record_size, SIZEOF_INOTIFY_EVENT. lia. Qed.

Lemma to_size_t_record (e : inotify_event) :
  wf_event e -> to_size_t (record_size e) = record_size e.
Proof.
  unfold wf_event, to_size_t, record_size, SIZEOF_INOTIFY_EVENT. intros Hl.
  apply Z.mod_small. lia.
Qed.

Lemma to_size_t_two_records (e e' : inotify_event) :
  wf_event e -> wf_event e' ->
  to_size_t (record_size e + record_size e') = record_size e + record_size e'.
Proof.
  unfold wf_event, to_size_t, record_size, SIZEOF_INOTIFY_EVENT. intros Hl Hl'.
  apply Z.mod_small. lia.
Qed.

Lemma bytes_nonneg (evs : list inotify_event) : 0 <= bytes evs.
Proof.
  induction evs as [|e evs IH]; simpl; [done|].
  pose proof (record_size_pos e). lia.
Qed.

Lemma findWatchChecked_found d slot s :
  findWatch (wlCache s) d = Some slot ->
  findWatchChecked d s = Ok (Some slot) s.
Proof. intros Hf. unfold findWatchChecked. by rewrite bind_get, Hf. Qed.

(** What the program does when a watch descriptor is not in the cache. *)
Lemma findWatchChecked_missing d s :
  findWatch (wlCache s) d = None ->
  findWatchChecked d s
  = if abortOnCacheProblem (config s) then createStopFileAndAbort s
    else Ok None s.
Proof.
  intros Hf. unfold findWatchChecked. rewrite bind_get, Hf.
  by destruct (abortOnCacheProblem (config s)).
Qed.

Lemma createStopFileAndAbort_run {A} s :
  @createStopFileAndAbort World _ A s
  = if logfp (config s) then
      Aborted
        (add_call (CDumpCache (cache_lines 0 (wlCache s))
                              (Z.of_nat (length (cache_lines 0 (wlCache s)))))
           (add_call (COpen (stopFile (config s)))
              (set_world (os_open (stopFile (config s)) (world s)) s)))
    else Undefined.
Proof.
  unfold createStopFileAndAbort, dumpCacheToLog, sys_open, bind, get, modify,
    abort, undefined. simpl. by destruct (logfp (config s)).
Qed.

Lemma slotPath_found slot w s :
  wlCache s !! slot = Some w -> slotPath (Some slot) s = Ok (path w) s.
Proof. intros Hw. unfold slotPath. by rewrite bind_get, Hw. Qed.

(** The record is looked up and found: the branch is chosen with the slot. *)
Lemma processNext_found ev rest bufSize firstTry slot s :
  ev_wd ev <> -1 -> has (ev_mask ev) IN_IGNORED = false ->
  findWatch (wlCache s) (ev_wd ev) = Some slot ->
  processNextInotifyEvent (ev :: rest) bufSize firstTry s
  = process_end (dispatch ev rest bufSize firstTry (Some slot)
                          (to_size_t (record_size ev))) s.
Proof.
  intros Hwd Hig Hf. unfold processNextInotifyEvent.
  apply Z.eqb_neq in Hwd. rewrite Hwd, Hig. simpl.
  unfold bind at 1. unfold bind at 1.
  by rewrite (findWatchChecked_found _ _ _ Hf).
Qed.

(** The record is looked up and not found. *)
Lemma processNext_missing ev rest bufSize firstTry s :
  ev_wd ev <> -1 -> has (ev_mask ev) IN_IGNORED = false ->
  findWatch (wlCache s) (ev_wd ev) = None ->
  processNextInotifyEvent (ev :: rest) bufSize firstTry s
  = if abortOnCacheProblem (config s) then createStopFileAndAbort s
    else (reinitializeFd ;;; ret (to_size_t INOTIFY_READ_BUF_LEN)) s.
Proof.
  intros Hwd Hig Hf. unfold processNextInotifyEvent.
  apply Z.eqb_neq in Hwd. rewrite Hwd, Hig. simpl.
  unfold bind at 1. unfold bind at 1.
  rewrite (findWatchChecked_missing _ _ Hf).
  destruct (abortOnCacheProblem (config s)).
  { rewrite !createStopFileAndAbort_run. by destruct (logfp (config s)). }
  unfold process_end, discardBuffer, bind, ret.
  by destruct (reinitializeFd s).
Qed.

(** The record is not looked up. *)
Lemma processNext_unchecked ev rest bufSize firstTry s :
  ev_wd ev = -1 \/ has (ev_mask ev) IN_IGNORED = true ->
  processNextInotifyEvent (ev :: rest) bufSize firstTry s
  = process_end (dispatch ev rest bufSize firstTry None
                          (to_size_t (record_size ev))) s.
Proof.
  intros Hc. unfold processNextInotifyEvent.
  assert (negb (ev_wd ev =? -1) && negb (has (ev_mask ev) IN_IGNORED) = false)
    as ->; [|done].
  destruct Hc as [->| ->]; [done | by rewrite andb_false_r].
Qed.

Lemma has_moved_from_mask ev :
  ev_mask ev = N.lor IN_MOVED_FROM IN_ISDIR ->
  has (ev_mask ev) IN_IGNORED = false /\
  (has (ev_mask ev) IN_ISDIR && has (ev_mask ev) (N.lor IN_CREATE IN_MOVED_TO)) = false /\
  has (ev_mask ev) IN_DELETE_SELF = false /\
  (N.land (ev_mask ev) (N.lor IN_MOVED_FROM IN_ISDIR)
   =? N.lor IN_MOVED_FROM IN_ISDIR)%N = true.
Proof. intros ->. by vm_compute. Qed.

(** A "moved from" record of a directory is handled by [movedFrom]. *)
Lemma dispatch_moved_from ev rest bufSize firstTry evCacheSlot evLen s :
  ev_mask ev = N.lor IN_MOVED_FROM IN_ISDIR ->
  dispatch ev rest bufSize firstTry evCacheSlot evLen s
  = movedFrom ev rest bufSize firstTry evCacheSlot evLen s.
Proof.
  intros Hm. destruct (has_moved_from_mask ev Hm) as (_ & H1 & H2 & H3).
  unfold dispatch. by rewrite H1, H2, H3.
Qed.

Lemma movedFrom_paired ev nextEv rest bufSize firstTry slot nslot w w' evLen s :
  evLen < bufSize -> pairs_with ev nextEv = true ->
  findWatch (wlCache s) (ev_wd nextEv) = Some nslot ->
  wlCache s !! slot = Some w -> wlCache s !! nslot = Some w' ->
  movedFrom ev (nextEv :: rest) bufSize firstTry (Some slot) evLen s
  = Ok (Fall (to_size_t (evLen + record_size nextEv)))
       (set_wlCache (rewriteCachedPaths (path w) (ev_name ev) (path w')
                       (ev_name nextEv) (wlCache s)) s).
Proof.
  intros Hlt Hp Hf Hw Hw'. unfold movedFrom, pairs_with in *.
  apply Z.ltb_lt in Hlt. rewrite Hlt, Hp.
  unfold bind at 1. rewrite (findWatchChecked_found _ _ _ Hf).
  unfold bind at 1. rewrite (slotPath_found _ _ _ Hw).
  unfold bind at 1. rewrite (slotPath_found _ _ _ Hw').
  reflexivity.
Qed.

Lemma movedFrom_paired_missing ev nextEv rest bufSize firstTry slot evLen s :
  evLen < bufSize -> pairs_with ev nextEv = true ->
  findWatch (wlCache s) (ev_wd nextEv) = None ->
  process_end (movedFrom ev (nextEv :: rest) bufSize firstTry slot evLen) s
  = if abortOnCacheProblem (config s) then createStopFileAndAbort s
    else (reinitializeFd ;;; ret (to_size_t INOTIFY_READ_BUF_LEN)) s.
Proof.
  intros Hlt Hp Hf. unfold process_end, movedFrom, pairs_with in *.
  apply Z.ltb_lt in Hlt. rewrite Hlt, Hp.
  unfold bind at 1. unfold bind at 1. rewrite (findWatchChecked_missing _ _ Hf).
  destruct (abortOnCacheProblem (config s)).
  { rewrite !createStopFileAndAbort_run. by destruct (logfp (config s)). }
  unfold discardBuffer, bind, ret. by destruct (reinitializeFd s).
Qed.

Lemma movedFrom_unpaired ev nextEv rest bufSize firstTry slot evLen s :
  evLen < bufSize -> pairs_with ev nextEv = false ->
  movedFrom ev (nextEv :: rest) bufSize firstTry slot evLen s
  = movedOut ev slot evLen s.
Proof.
  intros Hlt Hp. unfold movedFrom, pairs_with in *.
  apply Z.ltb_lt in Hlt. by rewrite Hlt, Hp.
Qed.

Lemma movedFrom_last ev rest bufSize firstTry slot evLen s :
  bufSize <= evLen ->
  movedFrom ev rest bufSize firstTry slot evLen s
  = if firstTry then Ok (Return (to_size_t (-1))) s
    else movedOut ev slot evLen s.
Proof.
  intros Hle. unfold movedFrom.
  assert ((evLen <? bufSize) = false) as -> by (apply Z.ltb_ge; lia).
  by destruct firstTry.
Qed.

(** The step of an in-tree rename: the cached paths are rewritten and both
    records are consumed. *)
Lemma in_tree_rename_step s ev nextEv w w' rest bufSize firstTry :
  in_tree_rename s ev nextEv w w' -> record_size ev < bufSize ->
  processNextInotifyEvent (ev :: nextEv :: rest) bufSize firstTry s
  = finish (record_size ev + record_size nextEv)
      (set_wlCache (rewriteCachedPaths (path w) (ev_name ev) (path w')
                      (ev_name nextEv) (wlCache s)) s).
Proof.
  intros (Hm & Hwd & Hp & Hwf & Hwf' & (slot & Hf & Hw) & (nslot & Hf' & Hw')) Hlt.
  destruct (has_moved_from_mask ev Hm) as (Hig & _).
  rewrite (processNext_found _ _ _ _ _ _ Hwd Hig Hf).
  unfold process_end. unfold bind at 1.
  rewrite (dispatch_moved_from _ _ _ _ _ _ _ Hm), to_size_t_record by done.
  rewrite (movedFrom_paired _ _ _ _ _ _ _ _ _ _ _ Hlt Hp Hf' Hw Hw').
  by rewrite to_size_t_two_records.
Qed.

End StepFacts.

(** ** What every step of the event processor preserves *)

Section RunRel.

Context {World : Type} `{OS World}.

Implicit Types s : @State World.

Variable R : @State World -> @State World -> Prop.

Hypothesis R_refl : forall s, R s s.
Hypothesis R_trans : forall s1 s2 s3, R s1 s2 -> R s2 s3 -> R s1 s3.
Hypothesis R_cache : forall c s, R s (set_wlCache c s).
Hypothesis R_errno : forall e s, R s (set_errno e s).
Hypothesis R_world : forall w s, R s (set_world w s).
Hypothesis R_fd : forall fd s, R s (set_inotifyFd fd s).
Hypothesis R_call : forall c s, is_read c = false -> R s (add_call c s).
Hypothesis R_zap :
  forall p j s,
    findRootDirPath (rootDirPaths s) p = Some j ->
    R s (set_roots (<[j := None]> (rootDirPaths s))
                   (to_int (ignoreRootDirs s + 1)) s).

Lemma run_rel_ret {A} (a : A) : run_rel R (@ret World A a).
Proof. intros s. apply R_refl. Qed.

Lemma run_rel_exit {A} n : run_rel R (@exit World A n).
Proof. intros s. apply R_refl. Qed.

Lemma run_rel_undefined {A} : run_rel R (@undefined World A).
Proof. by intros s. Qed.

Lemma run_rel_modify (f : State -> State) :
  (forall s, R s (f s)) -> run_rel R (modify f).
Proof. intros Hf s. apply Hf. Qed.

Lemma run_rel_bind {A B} (c : @M World A) (k : A -> @M World B) :
  run_rel R c -> (forall a, run_rel R (k a)) -> run_rel R (bind c k).
Proof.
  intros Hc Hk s. unfold bind. specialize (Hc s).
  destruct (c s) as [a s1| | |]; try done.
  specialize (Hk a s1). destruct (k a s1); try done; by eapply R_trans.
Qed.

Lemma run_rel_get {B} (k : State -> @M World B) :
  (forall s0, run_rel R (k s0)) -> run_rel R (bind get k).
Proof. intros Hk s. apply (Hk s s). Qed.

Lemma run_rel_when b (c : @M World unit) : run_rel R c -> run_rel R (when b c).
Proof. intros Hc. destruct b; [done | apply run_rel_ret]. Qed.

Lemma run_rel_for_each {A} (l : list A) (body : A -> @M World unit) :
  (forall a, run_rel R (body a)) -> run_rel R (for_each l body).
Proof.
  intros Hb. induction l as [|a l IH]; simpl; [apply run_rel_ret|].
  apply run_rel_bind; [apply Hb | by intros _].
Qed.

Lemma R_call_world c w s :
  is_read c = false -> R s (add_call c (set_world w s)).
Proof. intros Hc. eapply R_trans; [apply R_world | by apply R_call]. Qed.

Lemma run_rel_sys_close fd : run_rel R (sys_close fd).
Proof. apply run_rel_modify. intros s. by apply R_call_world. Qed.

Lemma run_rel_sys_open p : run_rel R (sys_open p).
Proof. apply run_rel_modify. intros s. by apply R_call_world. Qed.

Lemma run_rel_sys_inotify_init : run_rel R sys_inotify_init.
Proof.
  unfold sys_inotify_init. apply run_rel_get. intros s0.
  destruct (os_inotify_init (world s0)) as [fd w].
  apply run_rel_bind; [|intros _; apply run_rel_ret].
  apply run_rel_modify. intros s. by apply R_call_world.
Qed.

Lemma run_rel_sys_inotify_add_watch fd p m :
  run_rel R (sys_inotify_add_watch fd p m).
Proof.
  unfold sys_inotify_add_watch. apply run_rel_get. intros s0.
  destruct (os_inotify_add_watch fd p m (world s0)) as [[d e] w].
  apply run_rel_bind; [|intros _].
  { apply run_rel_modify. intros s. by apply R_call_world. }
  apply run_rel_bind; [|intros _; apply run_rel_ret].
  apply run_rel_when, run_rel_modify, R_errno.
Qed.

Lemma run_rel_sys_inotify_rm_watch fd d :
  run_rel R (sys_inotify_rm_watch fd d).
Proof.
  unfold sys_inotify_rm_watch. apply run_rel_get. intros s0.
  destruct (os_inotify_rm_watch fd d (world s0)) as [[r e] w].
  apply run_rel_bind; [|intros _].
  { apply run_rel_modify. intros s. by apply R_call_world. }
  apply run_rel_bind; [|intros _; apply run_rel_ret].
  apply run_rel_when, run_rel_modify, R_errno.
Qed.

Lemma run_rel_sys_lstat p : run_rel R (sys_lstat p).
Proof.
  unfold sys_lstat. apply run_rel_get. intros s0.
  destruct (os_lstat p (world s0)) as [r e].
  apply run_rel_bind; [|intros _].
  { apply run_rel_modify. intros s. by apply R_call. }
  apply run_rel_bind; [|intros _; apply run_rel_ret].
  apply run_rel_when, run_rel_modify, R_errno.
Qed.

Lemma run_rel_dumpCacheToLog : run_rel R dumpCacheToLog.
Proof.
  unfold dumpCacheToLog. apply run_rel_get. intros s0.
  destruct (logfp (config s0)); [|apply run_rel_undefined].
  apply run_rel_modify. intros s. by apply R_call.
Qed.

Lemma run_rel_createStopFileAndAbort {A} :
  run_rel R (@createStopFileAndAbort World _ A).
Proof.
  unfold createStopFileAndAbort. apply run_rel_get. intros s0.
  apply run_rel_bind; [apply run_rel_sys_open | intros _].
  apply run_rel_bind; [apply run_rel_dumpCacheToLog | intros _].
  intros s. apply R_refl.
Qed.

Lemma run_rel_checkCacheConsistency : run_rel R checkCacheConsistency.
Proof.
  unfold checkCacheConsistency. apply run_rel_get. intros s0.
  apply run_rel_for_each. intros j. unfold checkSlot.
  apply run_rel_get. intros s1.
  destruct (wlCache s1 !! j) as [w|]; [|apply run_rel_undefined].
  destruct (0 <=? wd w); [|apply run_rel_ret].
  apply run_rel_bind; [apply run_rel_sys_lstat|].
  intros [[|]|]; try apply run_rel_ret. apply run_rel_exit.
Qed.

Lemma run_rel_findWatchChecked d : run_rel R (findWatchChecked d).
Proof.
  unfold findWatchChecked. apply run_rel_get. intros s0.
  destruct (findWatch _ _); [apply run_rel_ret|].
  destruct (abortOnCacheProblem _);
    [apply run_rel_createStopFileAndAbort | apply run_rel_ret].
Qed.

Lemma run_rel_addWatchToCache d p : run_rel R (addWatchToCache d p).
Proof.
  unfold addWatchToCache. apply run_rel_bind.
  - unfold findEmptyCacheSlot. apply run_rel_get. intros s0.
    destruct (findWatch _ _); [apply run_rel_ret|].
    destruct (os_realloc _ _); [|apply run_rel_exit].
    apply run_rel_bind; [|intros _; apply run_rel_ret].
    apply run_rel_modify, R_cache.
  - intros slot. apply run_rel_bind; [|intros _; apply run_rel_ret].
    apply run_rel_modify. intros s. apply R_cache.
Qed.

Lemma run_rel_markSlotEmpty slot : run_rel R (markSlotEmpty slot).
Proof. apply run_rel_modify. intros s. apply R_cache. Qed.

Lemma run_rel_zapRootDirPath p : run_rel R (zapRootDirPath p).
Proof.
  intros s. unfold zapRootDirPath. rewrite bind_get.
  destruct (findRootDirPath (rootDirPaths s) p) as [j|] eqn:Hf; [|apply R_refl].
  unfold bind, modify, get.
  destruct (_ =? _); by apply (R_zap p).
Qed.

Lemma run_rel_traverseTree ifd entry : run_rel R (traverseTree ifd entry).
Proof.
  unfold traverseTree. destruct entry as [pathname isdir].
  destruct (negb isdir); [apply run_rel_ret|].
  apply run_rel_get. intros s0.
  apply run_rel_bind; [apply run_rel_sys_inotify_add_watch | intros d].
  destruct (d =? -1).
  - apply run_rel_get. intros s1.
    destruct (_ =? ENOENT); [apply run_rel_ret | apply run_rel_exit].
  - apply run_rel_get. intros s1.
    destruct (findWatch _ _); [apply run_rel_ret|].
    apply run_rel_bind; [apply run_rel_addWatchToCache|].
    intros _. apply run_rel_ret.
Qed.

Lemma run_rel_watchSubtree fd p : run_rel R (watchSubtree fd p).
Proof.
  unfold watchSubtree. apply run_rel_get. intros s0.
  destruct (os_nftw p (world s0)) as [[entries r] e].
  apply run_rel_bind; [|intros _].
  { apply run_rel_modify. intros s. by apply R_call. }
  apply run_rel_bind; [|intros _].
  { apply run_rel_for_each. intros entry. apply run_rel_traverseTree. }
  apply run_rel_when, run_rel_modify, R_errno.
Qed.

Lemma run_rel_zap_loop fd pn js cnt : run_rel R (zap_loop fd pn js cnt).
Proof.
  revert cnt; induction js as [|j js IH]; intros cnt; simpl;
    [apply run_rel_ret|].
  apply run_rel_get. intros s0.
  destruct (wlCache s0 !! j) as [w|]; [|apply run_rel_undefined].
  destruct (0 <=? wd w); [|apply IH].
  destruct pn as [copy|]; [|apply run_rel_undefined].
  destruct (prefix_match copy (path w)); [|apply IH].
  apply run_rel_bind; [apply run_rel_sys_inotify_rm_watch | intros r].
  destruct (r =? -1); [apply run_rel_ret|].
  apply run_rel_bind; [apply run_rel_markSlotEmpty | intros _; apply IH].
Qed.

Lemma run_rel_zapSubtree fd p : run_rel R (zapSubtree fd p).
Proof.
  unfold zapSubtree. apply run_rel_get. intros s0. apply run_rel_zap_loop.
Qed.

Lemma run_rel_reinitialize old : run_rel R (reinitialize old).
Proof.
  unfold reinitialize.
  apply run_rel_bind; [apply run_rel_when, run_rel_sys_close | intros _].
  apply run_rel_bind; [apply run_rel_sys_inotify_init | intros fd].
  destruct (fd =? -1); [apply run_rel_exit|].
  apply run_rel_bind; [apply run_rel_modify, R_cache | intros _].
  apply run_rel_get. intros s0.
  apply run_rel_bind; [|intros _; apply run_rel_ret].
  apply run_rel_for_each. intros [p|];
    [apply run_rel_watchSubtree | apply run_rel_ret].
Qed.

Lemma run_rel_reinitializeFd : run_rel R reinitializeFd.
Proof.
  unfold reinitializeFd. apply run_rel_get. intros s0.
  apply run_rel_bind; [apply run_rel_reinitialize | intros fd].
  apply run_rel_modify, R_fd.
Qed.

Lemma run_rel_discardBuffer : run_rel R discardBuffer.
Proof.
  unfold discardBuffer.
  apply run_rel_bind; [apply run_rel_reinitializeFd | intros _].
  apply run_rel_ret.
Qed.

Lemma run_rel_slotPath slot : run_rel R (slotPath slot).
Proof.
  unfold slotPath. destruct slot as [j|]; [|apply run_rel_undefined].
  apply run_rel_get. intros s0.
  destruct (wlCache s0 !! j); [apply run_rel_ret | apply run_rel_undefined].
Qed.

Lemma run_rel_movedOut ev slot evLen : run_rel R (movedOut ev slot evLen).
Proof.
  unfold movedOut.
  apply run_rel_bind; [apply run_rel_slotPath | intros p].
  apply run_rel_get. intros s0.
  apply run_rel_bind; [apply run_rel_zapSubtree | intros r].
  destruct (r =? -1); [apply run_rel_discardBuffer | apply run_rel_ret].
Qed.

Lemma run_rel_movedFrom ev rest bufSize firstTry slot evLen :
  run_rel R (movedFrom ev rest bufSize firstTry slot evLen).
Proof.
  unfold movedFrom. destruct (_ <? _).
  - destruct rest as [|nextEv rest]; [apply run_rel_undefined|].
    destruct (_ && _); [|apply run_rel_movedOut].
    apply run_rel_bind; [apply run_rel_findWatchChecked | intros [nslot|]];
      [|apply run_rel_discardBuffer].
    apply run_rel_bind; [apply run_rel_slotPath | intros p].
    apply run_rel_bind; [apply run_rel_slotPath | intros p'].
    apply run_rel_bind; [|intros _; apply run_rel_ret].
    apply run_rel_modify. intros s. apply R_cache.
  - destruct (negb firstTry); [apply run_rel_movedOut | apply run_rel_ret].
Qed.

Lemma run_rel_finish evLen : run_rel R (finish evLen).
Proof.
  unfold finish. apply run_rel_get. intros s0.
  apply run_rel_bind;
    [apply run_rel_when, run_rel_checkCacheConsistency | intros _].
  apply run_rel_bind;
    [apply run_rel_when, run_rel_dumpCacheToLog | intros _].
  apply run_rel_ret.
Qed.

Lemma run_rel_dispatch ev rest bufSize firstTry slot evLen :
  run_rel R (dispatch ev rest bufSize firstTry slot evLen).
Proof.
  unfold dispatch. destruct (_ && _).
  { apply run_rel_bind; [apply run_rel_slotPath | intros p].
    apply run_rel_get. intros s0.
    apply run_rel_bind; [|intros _; apply run_rel_ret].
    apply run_rel_when, run_rel_watchSubtree. }
  destruct (has _ IN_DELETE_SELF).
  { apply run_rel_bind; [apply run_rel_slotPath | intros p].
    apply run_rel_get. intros s0.
    apply run_rel_bind; [apply run_rel_when, run_rel_zapRootDirPath | intros _].
    apply run_rel_bind; [|intros _; apply run_rel_ret].
    destruct slot; [apply run_rel_markSlotEmpty | apply run_rel_undefined]. }
  destruct (_ =? _)%N; [apply run_rel_movedFrom|].
  destruct (has _ IN_Q_OVERFLOW).
  { apply run_rel_bind; [apply run_rel_reinitializeFd | intros _].
    apply run_rel_ret. }
  destruct (has _ IN_UNMOUNT).
  { apply run_rel_bind; [|intros _; apply run_rel_ret].
    destruct slot; [apply run_rel_markSlotEmpty | apply run_rel_undefined]. }
  destruct (has _ IN_MOVE_SELF); [|apply run_rel_ret].
  apply run_rel_bind; [apply run_rel_slotPath | intros p].
  apply run_rel_get. intros s0.
  destruct (isRootDirPath _ _); [|apply run_rel_ret].
  apply run_rel_bind; [apply run_rel_zapRootDirPath | intros _].
  apply run_rel_bind; [apply run_rel_slotPath | intros p'].
  apply run_rel_get. intros s1.
  apply run_rel_bind; [apply run_rel_zapSubtree | intros r].
  destruct (r =? -1); [apply run_rel_discardBuffer | apply run_rel_ret].
Qed.

Lemma run_rel_process_end (branch : @M World flow) :
  run_rel R branch -> run_rel R (process_end branch).
Proof.
  intros Hb. unfold process_end. apply run_rel_bind; [done|].
  intros [evLen|v]; [apply run_rel_finish | apply run_rel_ret].
Qed.

(** Whatever the buffer, a step of the event processor respects [R]. *)
Lemma run_rel_processNext buf bufSize firstTry :
  run_rel R (processNextInotifyEvent buf bufSize firstTry).
Proof.
  unfold processNextInotifyEvent.
  destruct buf as [|ev rest]; [apply run_rel_undefined|].
  apply run_rel_bind.
  - destruct (_ && _); [|apply run_rel_ret].
    apply run_rel_bind; [apply run_rel_findWatchChecked | intros slot].
    apply run_rel_ret.
  - intros [[slot|]|]; apply run_rel_process_end;
      try apply run_rel_dispatch. apply run_rel_discardBuffer.
Qed.

End RunRel.

Section StepRel.

Context {World : Type} `{OS World}.

Implicit Types s : @State World.

Lemma roots_only_zapped_refl s : roots_only_zapped s s.
Proof. split; [done | by left]. Qed.

Lemma roots_only_zapped_trans s1 s2 s3 :
  roots_only_zapped s1 s2 -> roots_only_zapped s2 s3 -> roots_only_zapped s1 s3.
Proof.
  intros [L1 Z1] [L2 Z2]. split; [congruence|].
  intros j. destruct (Z2 j) as [E|E]; [|by right].
  rewrite E. apply Z1.
Qed.

Lemma roots_only_zapped_insert s j n :
  roots_only_zapped s (set_roots (<[j := None]> (rootDirPaths s)) n s).
Proof.
  split; [apply length_insert|]. intros k. simpl.
  destruct (decide (j = k)) as [->|Hne]; [|left; by apply list_lookup_insert_ne].
  destruct (decide (k < length (rootDirPaths s))%nat).
  - right. by apply list_lookup_insert_eq.
  - left. rewrite list_insert_ge; [done | lia].
Qed.

Lemma count_reads_snoc calls c :
  count_reads (calls ++ [c])
  = (count_reads calls + if is_read c then 1 else 0)%nat.
Proof.
  unfold count_reads. rewrite filter_app, length_app. f_equal.
  destruct (is_read c) eqn:E.
  - by rewrite filter_cons_True.
  - rewrite filter_cons_False; [done | by rewrite E].
Qed.

Lemma step_rel_refl s : step_rel s s.
Proof. split; [apply roots_only_zapped_refl | done]. Qed.

Lemma step_rel_trans s1 s2 s3 : step_rel s1 s2 -> step_rel s2 s3 -> step_rel s1 s3.
Proof.
  intros [Z1 C1] [Z2 C2].
  split; [by eapply roots_only_zapped_trans | congruence].
Qed.

(** A step of the event processor keeps or zaps the root strings and makes
    no read, whatever the records, the try and the state. *)
Lemma processNext_step_rel buf bufSize firstTry :
  run_rel step_rel (@processNextInotifyEvent World _ buf bufSize firstTry).
Proof.
  apply run_rel_processNext.
  - apply step_rel_refl.
  - apply step_rel_trans.
  - intros c s. split; [split; [done | by left] | done].
  - intros e s. split; [split; [done | by left] | done].
  - intros w s. split; [split; [done | by left] | done].
  - intros fd s. split; [split; [done | by left] | done].
  - intros c s Hc. split; [split; [done | by left] |].
    simpl. rewrite count_reads_snoc, Hc. lia.
  - intros p j s _. split; [apply roots_only_zapped_insert | done].
Qed.

(** [ignoreRootDirs] keeps counting the zapped roots through every step. *)
Lemma processNext_roots_consistent buf bufSize firstTry :
  run_rel (fun s s' => roots_consistent s -> roots_consistent s')
          (@processNextInotifyEvent World _ buf bufSize firstTry).
Proof.
  apply run_rel_processNext; try done.
  - auto.
  - intros p j s Hf [Hcount Hint]. unfold roots_consistent. simpl.
    pose proof (active_roots_zap_length _ _ _ (findRootDirPath_lookup _ _ _ Hf)).
    pose proof (active_roots_length (rootDirPaths s)).
    rewrite length_insert, to_int_small by lia. lia.
Qed.

(** No step ever rewrites a root string: a path that passes the root test
    after the step passed it before. *)
Lemma processNext_keeps_root_strings buf bufSize firstTry s :
  match processNextInotifyEvent buf bufSize firstTry s with
  | Ok _ s' | Exited _ s' | Aborted s' =>
      roots_only_zapped s s' /\
      forall p, isRootDirPath (rootDirPaths s') p = true ->
                isRootDirPath (rootDirPaths s) p = true
  | Undefined => True
  end.
Proof.
  pose proof (processNext_step_rel buf bufSize firstTry s) as Hs.
  assert (Hmono : forall s', roots_only_zapped s s' ->
            forall p, isRootDirPath (rootDirPaths s') p = true ->
                      isRootDirPath (rootDirPaths s) p = true).
  { intros s' [_ Hz] p. rewrite !isRootDirPath_true.
    intros Hin. apply list_elem_of_lookup in Hin as [j Hj].
    destruct (Hz j) as [E|E]; [|by rewrite E in Hj].
    rewrite E in Hj. by eapply list_elem_of_lookup_2. }
  destruct (processNextInotifyEvent buf bufSize firstTry s); try done;
    destruct Hs as [Hz _]; (split; [done | by apply Hmono]).
Qed.

End StepRel.

(** ** Pairing the two records of a rename *)

Section PairingTheorems.

Context {World : Type} `{OS World}.

Implicit Types s : @State World.

Lemma movedFrom_tail_irrelevant ev nextEv rest rest' b b' firstTry slot evLen s :
  evLen < b -> evLen < b' ->
  movedFrom ev (nextEv :: rest) b firstTry slot evLen s
  = movedFrom ev (nextEv :: rest') b' firstTry slot evLen s.
Proof.
  intros Hb Hb'. unfold movedFrom.
  apply Z.ltb_lt in Hb, Hb'. by rewrite Hb, Hb'.
Qed.

Lemma reinitialize_then_ret_value (n v : Z) s s' :
  (reinitializeFd ;;; ret n) s = Ok v s' -> v = n.
Proof.
  unfold bind, ret. destruct (reinitializeFd s); try done. by intros [= <- _].
Qed.

Lemma finish_value evLen v s s' : finish evLen s = Ok v s' -> v = evLen.
Proof.
  intros E. pose proof (finish_observes evLen s) as Ho.
  unfold observes in Ho. rewrite E in Ho. by destruct Ho.
Qed.

(** C2. A "moved from" record of a directory is paired with the one record
    that immediately follows it and with no other: the rename is handled as
    in-tree exactly when that record is a "moved to" record with the same
    cookie, and then both records are consumed in the same step. *)
Theorem movedFrom_pairs_with_next_record s ev rest firstTry slot w :
  ev_mask ev = N.lor IN_MOVED_FROM IN_ISDIR ->
  ev_wd ev <> -1 ->
  findWatch (wlCache s) (ev_wd ev) = Some slot ->
  wlCache s !! slot = Some w ->
  Forall wf_event (ev :: rest) ->
  one_record_pairing s ev rest firstTry slot w.
Proof.
  intros Hm Hwd Hf Hw Hwf.
  apply Forall_cons in Hwf as [Hwfe Hwfr].
  destruct (has_moved_from_mask ev Hm) as (Hig & _).
  assert (Hstep : forall rest0 b,
            processNextInotifyEvent (ev :: rest0) b firstTry s
            = process_end (movedFrom ev rest0 b firstTry (Some slot)
                                     (record_size ev)) s).
  { intros rest0 b. rewrite (processNext_found _ _ _ _ _ _ Hwd Hig Hf).
    unfold process_end, bind.
    by rewrite (dispatch_moved_from _ _ _ _ _ _ _ Hm), to_size_t_record. }
  assert (Hnext : forall nextEv rest0,
            record_size ev < bytes (ev :: nextEv :: rest0)).
  { intros nextEv rest0. simpl. pose proof (record_size_pos nextEv).
    pose proof (bytes_nonneg rest0). lia. }
  unfold one_record_pairing. cbv zeta. repeat split.
  - intros nextEv Hfm. destruct rest as [|n rest0]; [done|].
    simpl in Hfm. destruct (pairs_with ev n) eqn:Hp; [|done].
    injection Hfm as ->. apply Forall_cons in Hwfr as [Hwfn _].
    destruct (findWatch (wlCache s) (ev_wd nextEv)) as [nslot|] eqn:Hf'.
    + destruct (findWatch_lookup _ _ _ Hf') as (w' & Hw' & _).
      exists w'. split; [done|].
      apply in_tree_rename_step; [|apply Hnext].
      repeat split; eauto.
    + rewrite Hstep. by apply movedFrom_paired_missing.
  - intros Hfm. rewrite Hstep. destruct rest as [|n rest0].
    + unfold process_end, bind.
      rewrite movedFrom_last by (simpl; lia).
      destruct firstTry; [done|]. reflexivity.
    + simpl in Hfm. destruct (pairs_with ev n) eqn:Hp; [done|].
      unfold process_end, bind.
      by rewrite movedFrom_unpaired.
  - intros rest' Hhd. rewrite !Hstep. unfold process_end, bind.
    destruct rest as [|n rest0], rest' as [|n' rest0'];
      [reflexivity | discriminate Hhd | discriminate Hhd |].
    simpl in Hhd. injection Hhd as ->.
    by rewrite (movedFrom_tail_irrelevant ev n rest0' rest0
                  (bytes (ev :: n :: rest0')) (bytes (ev :: n :: rest0))).
  - intros nextEv v s' Hfm Hlen E. destruct rest as [|n rest0]; [done|].
    simpl in Hfm. destruct (pairs_with ev n) eqn:Hp; [|done].
    injection Hfm as ->. apply Forall_cons in Hwfr as [Hwfn _].
    destruct (findWatch (wlCache s) (ev_wd nextEv)) as [nslot|] eqn:Hf'.
    + destruct (findWatch_lookup _ _ _ Hf') as (w' & Hw' & _).
      rewrite (in_tree_rename_step s ev nextEv w w') in E;
        [| repeat split; eauto | apply Hnext].
      apply finish_value in E. lia.
    + rewrite Hstep, movedFrom_paired_missing in E; [|apply Hnext|done..].
      destruct (abortOnCacheProblem (config s)).
      { rewrite createStopFileAndAbort_run in E.
        by destruct (logfp (config s)). }
      apply reinitialize_then_ret_value in E. subst v.
      simpl in Hlen. pose proof (bytes_nonneg rest0).
      change (to_size_t INOTIFY_READ_BUF_LEN) with INOTIFY_READ_BUF_LEN. lia.
Qed.

End PairingTheorems.

(** ** Deferring, and escalating a cache miss *)

Section DeferTheorems.

Context {World : Type} `{OS World}.

Implicit Types s : @State World.

Lemma to_int_minus_one : to_int (to_size_t (-1)) = -1.
Proof. reflexivity. Qed.

Lemma to_int_buf_len : to_int INOTIFY_READ_BUF_LEN = INOTIFY_READ_BUF_LEN.
Proof. reflexivity. Qed.

Lemma events_loop_step fuel buf numLeft firstTry more :
  @events_loop World _ (S fuel) buf numLeft firstTry more
  = if numLeft <=? 0 then ret Finished
    else
      r <- processNextInotifyEvent buf (to_int numLeft) firstTry ;;
      if 0 <? to_int r then
        if numLeft - to_int r <=? 0 then ret Finished
        else
          match advance (to_int r) buf with
          | Some buf' => events_loop fuel buf' (numLeft - to_int r) true more
          | None => undefined
          end
      else
        bn <- supplementaryRead buf numLeft (next_read more) ;;
        events_loop fuel (fst bn) (snd bn) false (tail more).
Proof. reflexivity. Qed.


End DeferTheorems.

(** ** Queue overflow and reinitialization *)

Section OverflowTheorems.

Context {World : Type} `{OS World}.

Implicit Types s : @State World.

Lemma for_each_active_roots roots (f : string -> @M World unit) s :
  for_each roots (fun r => match r with
                           | Some p => f p
                           | None => ret tt
                           end) s
  = for_each (active_roots roots) f s.
Proof.
  revert s; induction roots as [|[p|] roots IH]; intros s; [done| |apply IH].
  simpl. unfold bind. by destruct (f p s).
Qed.

Lemma reinitialize_forgets_cache old cache fd s s' :
  reinitialize old s = Ok fd s' ->
  reinitialize old (set_wlCache cache s) = Ok fd s'.
Proof.
  unfold reinitialize, when, sys_close, sys_inotify_init.
  unfold bind, modify, get, ret.
  destruct (0 <=? old); simpl.
  - destruct (os_inotify_init (os_close old (world s))) as [fd0 w].
    by destruct (fd0 =? -1).
  - destruct (os_inotify_init (world s)) as [fd0 w].
    by destruct (fd0 =? -1).
Qed.


End OverflowTheorems.

(** ** What the steps leave alone *)

Section FrameTheorems.

Context {World : Type} `{OS World}.

Implicit Types s : @State World.

Lemma observes_ends_in {A} (c : @M World A) s (Q : A -> Prop) :
  observes c s Q -> ends_in s (c s) (quiet_step s).
Proof.
  unfold observes, ends_in. destruct (c s) as [| | |]; try done; by intros [].
Qed.

Lemma ends_in_weaken {A} s0 s (r : @Result World A) (Q Q' : State -> Prop) :
  config s0 = config s ->
  (forall s', Q s' -> Q' s') -> ends_in s0 r Q -> ends_in s r Q'.
Proof.
  unfold ends_in, dump_without_log. intros Hc HQ. destruct r; auto.
  by rewrite Hc.
Qed.

Lemma dispatch_created_cached ev rest bufSize firstTry slot w evLen s :
  has (ev_mask ev) IN_ISDIR = true ->
  has (ev_mask ev) (N.lor IN_CREATE IN_MOVED_TO) = true ->
  wlCache s !! slot = Some w ->
  snprintf (PATH_MAX + NAME_MAX) (path w +:+ "/" +:+ ev_name ev)
    ∈ active_paths (wlCache s) ->
  dispatch ev rest bufSize firstTry (Some slot) evLen s = Ok (Fall evLen) s.
Proof.
  intros Hd Hc Hw Hin. unfold dispatch. rewrite Hd, Hc. cbn [andb].
  unfold bind at 1. rewrite (slotPath_found _ _ _ Hw). rewrite bind_get.
  apply pathnameInCache_iff in Hin. by rewrite Hin.
Qed.

(** C9 (as amended). Processing a "created" or "moved to" record of a
    directory whose full path is already the path of a slot in use leaves the
    cache as it is: no walk of the subtree and no insertion take place, so
    this record adds no entry and no duplicate path.  The step is the end of
    the function, which is undefined only when the cache is to be dumped and
    no log file is open. *)
Theorem created_dir_already_cached_is_skipped s ev rest bufSize firstTry slot w :
  has (ev_mask ev) IN_ISDIR = true ->
  has (ev_mask ev) (N.lor IN_CREATE IN_MOVED_TO) = true ->
  ev_wd ev <> -1 ->
  has (ev_mask ev) IN_IGNORED = false ->
  wf_event ev ->
  findWatch (wlCache s) (ev_wd ev) = Some slot ->
  wlCache s !! slot = Some w ->
  snprintf (PATH_MAX + NAME_MAX) (path w +:+ "/" +:+ ev_name ev)
    ∈ active_paths (wlCache s) ->
  created_skipped s ev
    (processNextInotifyEvent (ev :: rest) bufSize firstTry s).
Proof.
  intros Hd Hc Hwd Hig Hwf Hf Hw Hin.
  assert (E : processNextInotifyEvent (ev :: rest) bufSize firstTry s
              = finish (record_size ev) s).
  { rewrite (processNext_found _ _ _ _ _ _ Hwd Hig Hf).
    unfold process_end, bind.
    rewrite (dispatch_created_cached _ _ _ _ _ w) by done.
    by rewrite to_size_t_record. }
  pose proof (observes_ends_in _ _ _ (finish_observes (record_size ev) s)) as He.
  rewrite E. split; [done|]. split; [done|].
  intros Hnd. eapply ends_in_weaken; [done| |exact He].
  intros s' (_ & -> & _). done.
Qed.

(** C7 (as amended). The root test holds for a path exactly when the path is
    equal to the string of a non-zapped root; these strings are the ones of
    the command line: an in-tree rename rewrites cached paths only and leaves
    every root string as it was, so the test answers after the rename as it
    did before.  The step of the rename is undefined only when the cache is
    to be dumped and no log file is open. *)
Theorem isRootDirPath_exact_and_not_rewritten s ev nextEv w w' rest bufSize
    firstTry :
  in_tree_rename s ev nextEv w w' ->
  record_size ev < bufSize ->
  root_test_unchanged s
    (processNextInotifyEvent (ev :: nextEv :: rest) bufSize firstTry s).
Proof.
  intros Hr Hlt. split; [apply isRootDirPath_true|].
  rewrite (in_tree_rename_step _ _ _ _ _ _ _ _ Hr Hlt).
  eapply (ends_in_weaken (set_wlCache _ s));
    [done | | eapply observes_ends_in, finish_observes].
  intros s' (_ & _ & Hroots & _). simpl in Hroots.
  split; [done|]. intros p. by rewrite Hroots.
Qed.

(** C1 (as amended). For an in-tree rename, a "moved from" record of a
    directory paired with the "moved to" record that follows it, whose
    rewritten paths fit a cache slot, the cache update rewrites exactly the
    cached paths that are the old full path followed by nothing or by a
    suffix starting with '/', replaces that prefix by the new full path and
    keeps the suffix (so [A] becomes [B] and [A/C] becomes [B/C]); it creates
    no duplicate when no cached entry lay at or under the new path, and,
    the two paths not lying one under the other, leaves no entry under the
    old path.  This holds however the step ends; the step is undefined only
    when the cache is to be dumped and no log file is open. *)
Theorem in_tree_rename_rewrites_paths s ev nextEv w w' rest bufSize firstTry :
  in_tree_rename s ev nextEv w w' ->
  record_size ev < bufSize ->
  rename_fits (path w) (ev_name ev) (path w') (ev_name nextEv) (wlCache s) ->
  ends_in s
    (processNextInotifyEvent (ev :: nextEv :: rest) bufSize firstTry s)
    (fun s' => rename_applied (path w) (ev_name ev) (path w') (ev_name nextEv)
                 (wlCache s) (wlCache s')).
Proof.
  intros Hr Hlt Hfits.
  rewrite (in_tree_rename_step _ _ _ _ _ _ _ _ Hr Hlt).
  eapply (ends_in_weaken (set_wlCache _ s));
    [done | | eapply observes_ends_in, finish_observes].
  intros s' (_ & -> & _). simpl. by apply rewriteCachedPaths_rename.
Qed.

(** C10. An in-tree rename changes nothing but the path of the cache entries
    under the old path: the slots, every watch descriptor and the set of
    slots in use are the same, the entries elsewhere are untouched, and the
    step neither adds nor removes a kernel watch.  The step is undefined
    only when the cache is to be dumped and no log file is open. *)
Theorem in_tree_rename_frame s ev nextEv w w' rest bufSize firstTry :
  in_tree_rename s ev nextEv w w' ->
  record_size ev < bufSize ->
  rename_frame s ev nextEv w w'
    (processNextInotifyEvent (ev :: nextEv :: rest) bufSize firstTry s).
Proof.
  intros Hr Hlt.
  destruct (rewriteCachedPaths_frame (path w) (ev_name ev) (path w')
              (ev_name nextEv) (wlCache s)) as (Hlen & Hwd & Hact & Hother).
  unfold rename_frame. cbv zeta. repeat split; try done.
  rewrite (in_tree_rename_step _ _ _ _ _ _ _ _ Hr Hlt).
  eapply (ends_in_weaken (set_wlCache _ s));
    [done | | eapply observes_ends_in, finish_observes].
  intros s' (_ & Hc & _ & _ & Hfd & Hworld & Hcalls). by simpl in *.
Qed.

End FrameTheorems.

(** ** Zapping a root *)

Section RootTheorems.

Context {World : Type} `{OS World}.

Implicit Types s : @State World.

Lemma ignoreRootDirs_set_roots roots n s :
  ignoreRootDirs (set_roots roots n s) = n.
Proof. reflexivity. Qed.

Lemma numRootDirs_set_roots roots n s :
  numRootDirs (set_roots roots n s) = Z.of_nat (length roots).
Proof. reflexivity. Qed.

Lemma zapRootDirPath_run s p j :
  roots_consistent s ->
  findRootDirPath (rootDirPaths s) p = Some j ->
  zapRootDirPath p s
  = (if decide (active_roots (<[j := None]> (rootDirPaths s)) = [])
     then Exited EXIT_SUCCESS
            (set_roots (<[j := None]> (rootDirPaths s)) (ignoreRootDirs s + 1) s)
     else Ok tt
            (set_roots (<[j := None]> (rootDirPaths s)) (ignoreRootDirs s + 1) s)).
Proof.
  intros [Hcount Hint] Hf. unfold zapRootDirPath. rewrite bind_get, Hf.
  pose proof (active_roots_zap_length _ _ _ (findRootDirPath_lookup _ _ _ Hf)) as Hz.
  pose proof (active_roots_length (rootDirPaths s)) as Hle.
  assert (to_int (ignoreRootDirs s + 1) = ignoreRootDirs s + 1) as Hi
    by (apply to_int_small; lia).
  unfold bind, modify, get. rewrite Hi.
  rewrite ignoreRootDirs_set_roots, numRootDirs_set_roots, length_insert.
  destruct (decide (active_roots (<[j:=None]> (rootDirPaths s)) = [])) as [E|Hne].
  - rewrite E in Hz. simpl in Hz.
    assert ((ignoreRootDirs s + 1 =? Z.of_nat (length (rootDirPaths s))) = true)
      as -> by (apply Z.eqb_eq; lia).
    done.
  - assert (length (active_roots (<[j:=None]> (rootDirPaths s))) <> 0%nat)
      by (by intros E0%nil_length_inv).
    assert ((ignoreRootDirs s + 1 =? Z.of_nat (length (rootDirPaths s))) = false)
      as -> by (apply Z.eqb_neq; lia).
    done.
Qed.

Lemma dispatch_last_root_gone ev rest bufSize firstTry slot w j evLen s :
  ev_mask ev = IN_DELETE_SELF \/ ev_mask ev = IN_MOVE_SELF ->
  roots_consistent s ->
  wlCache s !! slot = Some w ->
  findRootDirPath (rootDirPaths s) (path w) = Some j ->
  active_roots (<[j := None]> (rootDirPaths s)) = [] ->
  dispatch ev rest bufSize firstTry (Some slot) evLen s
  = Exited EXIT_SUCCESS
      (set_roots (<[j := None]> (rootDirPaths s)) (ignoreRootDirs s + 1) s).
Proof.
  intros Hm Hc Hw Hf Hlast.
  assert (isRootDirPath (rootDirPaths s) (path w) = true) as Hroot
    by (unfold isRootDirPath; by rewrite Hf).
  pose proof (zapRootDirPath_run s (path w) j Hc Hf) as Hz.
  rewrite decide_True in Hz by done.
  unfold dispatch. destruct Hm as [-> | ->].
  - change (has IN_DELETE_SELF IN_ISDIR) with false.
    change (has IN_DELETE_SELF IN_DELETE_SELF) with true. cbn [andb].
    unfold bind at 1. rewrite (slotPath_found _ _ _ Hw). rewrite bind_get.
    rewrite Hroot. unfold when, bind. by rewrite Hz.
  - change (has IN_MOVE_SELF IN_ISDIR) with false.
    change (has IN_MOVE_SELF IN_DELETE_SELF) with false.
    change (N.land IN_MOVE_SELF (N.lor IN_MOVED_FROM IN_ISDIR)
            =? N.lor IN_MOVED_FROM IN_ISDIR)%N with false.
    change (has IN_MOVE_SELF IN_Q_OVERFLOW) with false.
    change (has IN_MOVE_SELF IN_UNMOUNT) with false.
    change (has IN_MOVE_SELF IN_MOVE_SELF) with true. cbn [andb].
    unfold bind at 1. rewrite (slotPath_found _ _ _ Hw). rewrite bind_get.
    rewrite Hroot. unfold bind. by rewrite Hz.
Qed.

(** C8. Zapping a root never removes its slot from the root list: the slot
    is set to [NULL] and the others stay; and when the root zapped is the
    last one, for instance because it is deleted or moved, the process exits
    at once. *)
Theorem zapRootDirPath_marks_and_terminates s p j :
  roots_consistent s ->
  findRootDirPath (rootDirPaths s) p = Some j ->
  root_zapped s p j.
Proof.
  intros Hc Hf. pose proof (findRootDirPath_lookup _ _ _ Hf) as Hj.
  unfold root_zapped. cbv zeta. repeat split.
  - apply length_insert.
  - apply list_lookup_insert_eq. by eapply lookup_lt_Some.
  - intros k Hk. by apply list_lookup_insert_ne.
  - by apply zapRootDirPath_run.
  - intros ev rest bufSize firstTry slot w Hm Hwd Hfw Hw <- Hlast.
    assert (has (ev_mask ev) IN_IGNORED = false) as Hig
      by (by destruct Hm as [-> | ->]).
    rewrite (processNext_found _ _ _ _ _ _ Hwd Hig Hfw).
    unfold process_end, bind.
    by rewrite (dispatch_last_root_gone _ _ _ _ _ w j).
Qed.

End RootTheorems.

(** ** The retry flag and the end of the reader loop *)

Section RetryTheorems.

Context {World : Type} `{OS World}.

Implicit Types s : @State World.

Lemma returns_ret {A} (a : A) (Q : A -> Prop) : Q a -> returns (@ret World A a) Q.
Proof. intros Ha s a' s' [= <- _]. done. Qed.

Lemma returns_bind {A B} (c : @M World A) (k : A -> @M World B)
    (Q : A -> Prop) (Q' : B -> Prop) :
  returns c Q -> (forall a, Q a -> returns (k a) Q') -> returns (bind c k) Q'.
Proof.
  intros Hc Hk s b s'. unfold bind.
  destruct (c s) as [a s1| | |] eqn:E; try done.
  intros E'. eapply Hk; eauto.
Qed.

Lemma returns_any {A} (c : @M World A) : returns c (fun _ => True).
Proof. by intros s a s' _. Qed.

Lemma returns_seq {A B} (c : @M World A) (k : A -> @M World B) (Q' : B -> Prop) :
  (forall a, returns (k a) Q') -> returns (bind c k) Q'.
Proof. intros Hk. eapply returns_bind; [apply returns_any | auto]. Qed.

Lemma returns_none {A} (c : @M World A) (Q : A -> Prop) :
  (forall s a s', c s <> Ok a s') -> returns c Q.
Proof. intros Hc s a s' E. by destruct (Hc s a s'). Qed.

Lemma returns_discardBuffer :
  returns (@discardBuffer World _)
          (fun fl => flow_value fl = to_size_t INOTIFY_READ_BUF_LEN).
Proof.
  unfold discardBuffer. apply returns_seq. intros _. by apply returns_ret.
Qed.

Lemma returns_movedOut ev slot evLen :
  returns (@movedOut World _ ev slot evLen)
          (fun fl => flow_value fl = evLen \/
                     flow_value fl = to_size_t INOTIFY_READ_BUF_LEN).
Proof.
  unfold movedOut. do 3 (apply returns_seq; intros ?).
  destruct (_ =? -1).
  - intros s fl s' E. right. by eapply returns_discardBuffer.
  - apply returns_ret. by left.
Qed.

Lemma returns_movedFrom ev rest bufSize slot :
  returns (@movedFrom World _ ev rest bufSize false slot
             (to_size_t (record_size ev)))
          (fun fl => consumed_length ev rest (flow_value fl)).
Proof.
  assert (Hout : returns (@movedOut World _ ev slot (to_size_t (record_size ev)))
                   (fun fl => consumed_length ev rest (flow_value fl))).
  { intros s fl s' E. unfold consumed_length.
    destruct (returns_movedOut _ _ _ _ _ _ E) as [->| ->]; auto. }
  unfold movedFrom. destruct (_ <? bufSize); [|done].
  destruct rest as [|nextEv rest]; [by apply returns_none|].
  destruct (_ && _); [|done].
  apply returns_seq. intros [nslot|].
  - do 3 (apply returns_seq; intros ?). apply returns_ret.
    right. right. by exists nextEv.
  - intros s fl s' E. right. left. by eapply returns_discardBuffer.
Qed.

Lemma returns_dispatch ev rest bufSize slot :
  returns (@dispatch World _ ev rest bufSize false slot
             (to_size_t (record_size ev)))
          (fun fl => consumed_length ev rest (flow_value fl)).
Proof.
  assert (Hfall : returns (@ret World _ (Fall (to_size_t (record_size ev))))
                    (fun fl => consumed_length ev rest (flow_value fl)))
    by (apply returns_ret; by left).
  assert (Hbuf : forall fl : flow,
            flow_value fl = to_size_t INOTIFY_READ_BUF_LEN ->
            consumed_length ev rest (flow_value fl))
    by (intros fl ->; right; by left).
  unfold dispatch. destruct (_ && _).
  { do 3 (apply returns_seq; intros ?). done. }
  destruct (has _ IN_DELETE_SELF).
  { do 4 (apply returns_seq; intros ?). done. }
  destruct (_ =? _)%N; [apply returns_movedFrom|].
  destruct (has _ IN_Q_OVERFLOW).
  { apply returns_seq; intros ?. by apply returns_ret, Hbuf. }
  destruct (has _ IN_UNMOUNT).
  { apply returns_seq; intros ?. done. }
  destruct (has _ IN_MOVE_SELF); [|done].
  do 2 (apply returns_seq; intros ?). destruct (isRootDirPath _ _); [|done].
  do 4 (apply returns_seq; intros ?). destruct (_ =? -1); [|done].
  intros s fl s' E. by eapply Hbuf, returns_discardBuffer.
Qed.

Lemma returns_process_end (branch : @M World flow) (Q : Z -> Prop) :
  returns branch (fun fl => Q (flow_value fl)) -> returns (process_end branch) Q.
Proof.
  intros Hb. unfold process_end. eapply returns_bind; [exact Hb|].
  intros [evLen|v] Hq; [|by apply returns_ret].
  intros s v s' E. apply finish_value in E. by subst.
Qed.

Lemma returns_processNext ev rest bufSize :
  returns (@processNextInotifyEvent World _ (ev :: rest) bufSize false)
          (consumed_length ev rest).
Proof.
  unfold processNextInotifyEvent. apply returns_seq. intros [[slot|]|].
  - apply returns_process_end, returns_dispatch.
  - apply returns_process_end. intros s fl s' E. right. left.
    by eapply returns_discardBuffer.
  - apply returns_process_end, returns_dispatch.
Qed.

Lemma consumed_length_positive ev rest v :
  Forall kernel_record (ev :: rest) -> consumed_length ev rest v ->
  0 < to_int v.
Proof.
  intros Hk Hv. apply Forall_cons in Hk as [Hev Hrest].
  unfold kernel_record, NAME_MAX in *.
  assert (Hsz : forall e, (ev_len e <= N.of_nat 255 + 1)%N ->
            16 <= record_size e <= 272).
  { intros e He. unfold record_size, SIZEOF_INOTIFY_EVENT. lia. }
  pose proof (Hsz ev Hev) as Hs.
  assert (Hsmall : forall x, 0 < x < 2 ^ 31 -> 0 < to_int (to_size_t x)).
  { intros x Hx. unfold to_size_t. rewrite Z.mod_small by lia.
    rewrite to_int_small; lia. }
  destruct Hv as [->|[->|(nextEv & Hhd & ->)]].
  - apply Hsmall. lia.
  - done.
  - destruct rest as [|n rest]; [done|]. injection Hhd as ->.
    apply Forall_cons in Hrest as [Hn _]. pose proof (Hsz nextEv Hn).
    unfold to_size_t at 2. rewrite Z.mod_small by lia. apply Hsmall. lia.
Qed.

Lemma supplementaryRead_measure buf numLeft more bn s s' :
  0 < numLeft ->
  supplementaryRead buf numLeft (next_read more) s = Ok bn s' ->
  (loop_bound (snd bn) (tail more) < loop_bound numLeft more)%nat.
Proof.
  intros Hpos. unfold supplementaryRead, loop_bound.
  unfold bind, get, modify, ret.
  destruct more as [|[evs|e] more]; simpl.
  - intros [= <- _]. simpl. lia.
  - pose proof (bytes_nonneg evs).
    assert ((bytes evs =? -1) = false) as -> by (apply Z.eqb_neq; lia).
    simpl. destruct (bytes evs =? 0) eqn:E0; [done|].
    apply Z.eqb_neq in E0.
    destruct (numLeft =? bytes buf); [|done].
    intros [= <- _]. simpl. destruct (negb (errno s =? -1)); lia.
  - destruct (e =? EINTR) eqn:Ee; [|done]. simpl.
    apply Z.eqb_eq in Ee. subst e. intros [= <- _]. simpl. lia.
Qed.

Lemma events_loop_terminates fuel buf numLeft firstTry more s s' :
  (loop_bound numLeft more < fuel)%nat ->
  events_loop fuel buf numLeft firstTry more s <> Ok OutOfFuel s'.
Proof.
  revert buf numLeft firstTry more s.
  induction fuel as [|fuel IH]; intros buf numLeft firstTry more s Hb; [lia|].
  rewrite events_loop_step.
  destruct (numLeft <=? 0) eqn:Hn; [done|]. apply Z.leb_gt in Hn.
  unfold bind at 1.
  destruct (processNextInotifyEvent buf (to_int numLeft) firstTry s)
    as [r s1| | |]; try done.
  destruct (0 <? to_int r) eqn:Hr.
  - apply Z.ltb_lt in Hr. destruct (numLeft - to_int r <=? 0); [done|].
    destruct (advance (to_int r) buf) as [buf'|]; [|done].
    apply IH. unfold loop_bound in *. lia.
  - unfold bind.
    destruct (supplementaryRead buf numLeft (next_read more) s1)
      as [bn s2| | |] eqn:Es; try done.
    apply IH. pose proof (supplementaryRead_measure _ _ _ _ _ _ Hn Es). lia.
Qed.

Lemma advance_shorter (P : inotify_event -> Prop) n buf buf' :
  0 < n -> advance n buf = Some buf' ->
  (length buf' < length buf)%nat /\ (Forall P buf -> Forall P buf').
Proof.
  assert (Hle : forall buf n buf', advance n buf = Some buf' ->
            (length buf' <= length buf)%nat /\ (Forall P buf -> Forall P buf')).
  { clear. induction buf as [|e buf IH]; intros n buf'; simpl.
    - destruct (n =? 0); [|done]. by intros [= <-].
    - destruct (n =? 0); [by intros [= <-]|].
      destruct (n <? record_size e); [done|]. intros E.
      destruct (IH _ _ E) as [Hl Hf]. split; [lia|].
      intros Hall. apply Forall_cons in Hall as [_ Hall]. auto. }
  intros Hn. destruct buf as [|e buf]; simpl.
  - assert ((n =? 0) = false) as -> by (apply Z.eqb_neq; lia). done.
  - assert ((n =? 0) = false) as -> by (apply Z.eqb_neq; lia).
    destruct (n <? record_size e); [done|]. intros E.
    destruct (Hle _ _ _ E) as [Hl Hf]. split; [lia|].
    intros Hall. apply Forall_cons in Hall as [_ Hall]. auto.
Qed.

Lemma supplementaryRead_effect buf numLeft more s :
  match supplementaryRead buf numLeft (next_read more) s with
  | Ok bn s' =>
      count_reads (trace s') = S (count_reads (trace s)) /\
      exists evs, fst bn = buf ++ evs /\
        (length evs + records_to_come (tail more) <= records_to_come more)%nat /\
        (Forall (fun r => Forall kernel_record (read_data r)) more ->
         Forall kernel_record evs)
  | Exited _ s' => count_reads (trace s') = S (count_reads (trace s))
  | Aborted _ => False
  | Undefined => True
  end.
Proof.
  assert (Hc : forall c, is_read c = true ->
            count_reads (trace s ++ [c]) = S (count_reads (trace s))).
  { intros c Hc. rewrite count_reads_snoc, Hc. lia. }
  unfold supplementaryRead. unfold bind, get, modify, ret.
  destruct more as [|[evs|e] more]; simpl.
  - split; [by apply Hc|]. exists []. by rewrite app_nil_r.
  - pose proof (bytes_nonneg evs).
    assert ((bytes evs =? -1) = false) as -> by (apply Z.eqb_neq; lia).
    simpl. destruct (bytes evs =? 0); [by apply Hc|].
    destruct (numLeft =? bytes buf); [|done].
    split; [by apply Hc|]. exists evs. simpl. split; [done|]. split; [lia|].
    intros Hall. by apply Forall_cons in Hall as [Hall _].
  - destruct (e =? EINTR); simpl; [|by apply Hc].
    split; [by apply Hc|]. exists []. by rewrite app_nil_r.
Qed.

Lemma reads_within_weaken {A} calls calls' n n' (r : @Result World A) :
  (count_reads calls + n <= count_reads calls' + n')%nat ->
  reads_within calls n r -> reads_within calls' n' r.
Proof. unfold reads_within. destruct r; try done; lia. Qed.

(** The reads of the loop: one supplementary read at most for each record
    in the buffer or still to come. *)
Lemma events_loop_reads fuel buf numLeft firstTry more s :
  Forall kernel_record buf ->
  Forall (fun r => Forall kernel_record (read_data r)) more ->
  (firstTry = false -> buf <> []) ->
  reads_within (trace s)
    (length buf + records_to_come more - if firstTry then 0 else 1)
    (events_loop fuel buf numLeft firstTry more s).
Proof.
  revert buf numLeft firstTry more s.
  induction fuel as [|fuel IH]; intros buf numLeft firstTry more s Hk Hm Hne.
  { simpl. lia. }
  rewrite events_loop_step. destruct (numLeft <=? 0); [simpl; lia|].
  unfold bind at 1.
  pose proof (processNext_step_rel buf (to_int numLeft) firstTry s) as Hs.
  destruct (processNextInotifyEvent buf (to_int numLeft) firstTry s)
    as [r s1|n s1|s1|] eqn:E; try done;
    try (destruct Hs as [_ Hs]; simpl; lia).
  destruct Hs as [_ Hs].
  destruct buf as [|ev rest]; [done|].
  destruct (0 <? to_int r) eqn:Hr.
  - apply Z.ltb_lt in Hr.
    destruct (numLeft - to_int r <=? 0); [simpl; lia|].
    destruct (advance (to_int r) (ev :: rest)) as [buf'|] eqn:Ea; [|done].
    destruct (advance_shorter kernel_record _ _ _ Hr Ea) as [Hl Hk'].
    eapply reads_within_weaken; [|apply (IH buf' _ true more s1); auto; done].
    destruct firstTry; simpl in *; lia.
  - apply Z.ltb_ge in Hr.
    assert (firstTry = true) as ->.
    { destruct firstTry; [done|].
      pose proof (consumed_length_positive ev rest r Hk
                    (returns_processNext _ _ _ _ _ _ E)). lia. }
    unfold bind.
    pose proof (supplementaryRead_effect (ev :: rest) numLeft more s1) as He.
    destruct (supplementaryRead (ev :: rest) numLeft (next_read more) s1)
      as [bn s2|n s2|s2|] eqn:Es; try done.
    + destruct He as (Hc & evs & Hb & Hl & Hke).
      eapply reads_within_weaken;
        [|apply (IH (fst bn) (snd bn) false (tail more) s2)].
      * rewrite Hb, length_app. simpl. lia.
      * rewrite Hb. apply Forall_app. auto.
      * destruct more; [done | by apply Forall_cons in Hm as [_ ?]].
      * intros _. by rewrite Hb.
    + simpl. lia.
Qed.

(** C6. The supplementary read is attempted at most once for a pending
    "moved from" record: the step that asks for it is followed by the read
    and by a pass with the retry flag cleared, a step with the flag cleared
    never asks again, and the loop over the read buffer ends. *)
Theorem supplementary_read_once_and_loop_ends s buf numLeft more :
  Forall kernel_record buf ->
  single_retry s buf numLeft more.
Proof.
  intros Hk. repeat split.
  - intros bufSize v s' E. destruct buf as [|ev rest]; [done|].
    eapply consumed_length_positive; [done|].
    by eapply returns_processNext.
  - intros fuel r s1 Hpos E Hr. rewrite events_loop_step.
    assert ((numLeft <=? 0) = false) as -> by (apply Z.leb_gt; lia).
    unfold bind at 1. rewrite E.
    by assert ((0 <? to_int r) = false) as -> by (apply Z.ltb_ge; lia).
  - intros firstTry fuel s'. apply events_loop_terminates.
  - intros fuel s' Hb. unfold processInotifyEvents.
    rewrite bind_get. unfold bind, modify.
    destruct (bytes buf =? 0); [done|].
    destruct (INOTIFY_READ_BUF_LEN <? bytes buf); [done|].
    by apply events_loop_terminates.
  - intros fuel Hm. eapply reads_within_weaken;
      [|by apply (events_loop_reads fuel buf numLeft true more s)].
    lia.
Qed.

End RetryTheorems.

(** * The scenarios of the specification, and the claims on concrete runs *)

Section Scenarios.

Local Open Scope string_scope.

(** Scenario 1: the root [/tmp/t] is watched and [/tmp/t/a] is created. *)
Example scenario_create :
  let s := sim_state quiet [mkWatch 1 "/tmp/t"] [Some "/tmp/t"] 0
             ["/tmp/t"; "/tmp/t/a"] in
  active_paths
    match processNextInotifyEvent [created_a] 32 true s with
    | Ok _ s' => wlCache s'
    | _ => []
    end
  = ["/tmp/t"; "/tmp/t/a"].
Proof. by vm_compute. Qed.

(** Scenario 2: [/tmp/t/a] is renamed to [/tmp/t/b]. *)
Example scenario_rename :
  summarize (processNextInotifyEvent [moved_from_a; moved_to_b] 64 true demo_state)
  = SOk 64 [mkWatch 1 "/tmp/t"; mkWatch 2 "/tmp/t/b"] [Some "/tmp/t"].
Proof. by vm_compute. Qed.

(** Scenario 3: [/tmp/t/a] is moved out of the tree; the lone record is
    deferred, the supplementary read brings nothing, and the subtree is
    removed. *)
Example scenario_move_out :
  summarize (processInotifyEvents 5 (ReadData [moved_from_a]) [] demo_state)
  = SOk Finished [mkWatch 1 "/tmp/t"; empty_slot] [Some "/tmp/t"].
Proof. by vm_compute. Qed.

(** Scenario 4: an overflow record; the record behind it is never looked at. *)
Example scenario_overflow :
  final_trace (processInotifyEvents 5 (ReadData [overflow_event; moved_from_a])
                 [] demo_state)
  = [CRead 3 27200; CClose 3; CInotifyInit; CNftw "/tmp/t";
     CInotifyAddWatch 4 "/tmp/t" 0x1000DC0; CInotifyAddWatch 4 "/tmp/t/a" 0x10005C0].
Proof. by vm_compute. Qed.

(** Round trip: [/tmp/t/a] is deleted; no entry is left for it. *)
Example scenario_delete :
  summarize (processNextInotifyEvent [self_event 2 IN_DELETE_SELF] 16 true
               demo_state)
  = SOk 16 [mkWatch 1 "/tmp/t"; empty_slot] [Some "/tmp/t"].
Proof. by vm_compute. Qed.

(** Boundary: the last root is moved away; the engine exits. *)
Example scenario_last_root_moved :
  summarize (processNextInotifyEvent [self_event 1 IN_MOVE_SELF] 16 true
               demo_state)
  = SExited EXIT_SUCCESS.
Proof. by vm_compute. Qed.

Example rename_parent_and_child :
  rewriteCachedPaths "/t" "A" "/t" "B" parent_child_cache
  = [mkWatch 1 "/t"; mkWatch 2 "/t/B"; mkWatch 3 "/t/B/C"; empty_slot].
Proof. by vm_compute. Qed.

End Scenarios.

Section Witnesses.

Local Open Scope string_scope.

Lemma in_tree_rename_rewrites_paths_witness :
  ends_in parent_child_state
    (processNextInotifyEvent [moved_from_A; moved_to_B] 64 true
       parent_child_state)
    (fun s' => rename_applied "/t" "A" "/t" "B" parent_child_cache (wlCache s')).
Proof.
  apply (in_tree_rename_rewrites_paths parent_child_state moved_from_A
           moved_to_B (mkWatch 1 "/t") (mkWatch 1 "/t") [] 64 true).
  - repeat split; try done; try (by vm_compute); by exists 0%nat.
  - by vm_compute.
  - split; [apply Nat.ltb_lt; by vm_compute|].
    split; [apply Nat.ltb_lt; by vm_compute|].
    do 4 (apply Forall_cons; split;
            [intros _; apply Nat.ltb_lt; by vm_compute|]).
    apply Forall_nil_2.
Defined.

(** C1 as stated fails.  A cached path of 3964 characters lies under the
    renamed directory; with the new name the path has 4218 characters and is
    cut to the 4095 that fit a slot, so its suffix is not preserved.  And
    when the rename replaces an empty directory that is still cached, the
    rewrite leaves two slots with the same path. *)
Lemma rewriteCachedPaths_truncates_or_duplicates :
  (delimited_prefix "/t/a" ("/t/a" +:+ deep_suffix) /\
   (String.length ("/t/a" +:+ deep_suffix) < PATH_MAX)%nat /\
   path <$> rewriteCachedPaths "/t" "a" "/t" long_name deep_cache !! 2%nat
   = Some (str_take 4095 ("/t/" +:+ long_name +:+ deep_suffix)) /\
   path <$> rewriteCachedPaths "/t" "a" "/t" long_name deep_cache !! 2%nat
   <> Some ("/t/" +:+ long_name +:+ deep_suffix)) /\
  (let cache := [mkWatch 1 "/t"; mkWatch 2 "/t/a"; mkWatch 3 "/t/a/c";
                 mkWatch 4 "/t/b"] in
   NoDup (active_paths cache) /\
   rewriteCachedPaths "/t" "a" "/t" "b" cache
   = [mkWatch 1 "/t"; mkWatch 2 "/t/b"; mkWatch 3 "/t/b/c"; mkWatch 4 "/t/b"] /\
   ~ NoDup (active_paths (rewriteCachedPaths "/t" "a" "/t" "b" cache))).
Proof.
  split; [split; [|split; [|split]] | split; [|split]].
  - apply prefix_match_iff. by vm_compute.
  - apply Nat.ltb_lt. by vm_compute.
  - by vm_compute.
  - intros E. apply (f_equal (fmap String.length)) in E.
    vm_compute in E. discriminate.
  - apply (bool_decide_unpack _). by vm_compute.
  - by vm_compute.
  - apply (bool_decide_unpack _). by vm_compute.
Qed.

Lemma movedFrom_pairs_with_next_record_witness :
  one_record_pairing demo_state moved_from_a [moved_to_b] true 0
    (mkWatch 1 "/tmp/t").
Proof.
  apply movedFrom_pairs_with_next_record; try done.
  repeat constructor; by vm_compute.
Defined.



Lemma supplementary_read_once_and_loop_ends_witness :
  single_retry demo_state [moved_from_a] 32 [].
Proof.
  apply supplementary_read_once_and_loop_ends.
  repeat constructor. by vm_compute.
Defined.

Lemma isRootDirPath_exact_and_not_rewritten_witness :
  root_test_unchanged nested_state
    (processNextInotifyEvent [moved_from_a; moved_to_x] 64 true nested_state).
Proof.
  apply (isRootDirPath_exact_and_not_rewritten nested_state moved_from_a
           moved_to_x (mkWatch 1 "/t") (mkWatch 1 "/t") [] 64 true).
  - repeat split; try done; try (by vm_compute); by exists 0%nat.
  - by vm_compute.
Defined.

(** C7 as stated fails in its second half.  [/t] and [/t/a] are roots and
    [/t/a] is renamed to [/t/x]: the cached path of watch 2 is rewritten,
    the root strings are not, so the root test rejects the rewritten path of
    the root and still accepts its old one. *)
Lemma root_strings_do_not_track_renames :
  summarize (processNextInotifyEvent [moved_from_a; moved_to_x] 64 true nested_state)
  = SOk 64 [mkWatch 1 "/t"; mkWatch 2 "/t/x"] [Some "/t"; Some "/t/a"] /\
  isRootDirPath [Some "/t"; Some "/t/a"] "/t/x" = false /\
  isRootDirPath [Some "/t"; Some "/t/a"] "/t/a" = true.
Proof. by vm_compute. Qed.

Lemma zapRootDirPath_marks_and_terminates_witness :
  root_zapped demo_state "/tmp/t" 0.
Proof.
  apply zapRootDirPath_marks_and_terminates; [|done].
  split; by vm_compute.
Defined.

Lemma created_dir_already_cached_is_skipped_witness :
  created_skipped demo_state created_a
    (processNextInotifyEvent [created_a] 32 true demo_state).
Proof.
  apply (created_dir_already_cached_is_skipped demo_state created_a [] 32 true
           0 (mkWatch 1 "/tmp/t")); try done; try (by vm_compute).
  apply (bool_decide_unpack _). by vm_compute.
Defined.

(** C9 as stated fails in its conclusion.  [/t/a] is renamed onto the cached
    empty directory [/t/b]: the paths of the slots in use were distinct, and
    processing the pair of records leaves two slots in use with the path
    [/t/b]. *)
Lemma rename_onto_cached_directory_duplicates_path :
  NoDup (active_paths (wlCache overwrite_state)) /\
  summarize (processNextInotifyEvent [moved_from_a; moved_to_b] 64 true
               overwrite_state)
  = SOk 64 [mkWatch 1 "/t"; mkWatch 2 "/t/b"; mkWatch 3 "/t/b"] [Some "/t"] /\
  ~ NoDup (active_paths [mkWatch 1 "/t"; mkWatch 2 "/t/b"; mkWatch 3 "/t/b"]).
Proof.
  split; [|split].
  - apply (bool_decide_unpack _). by vm_compute.
  - by vm_compute.
  - apply (bool_decide_unpack _). by vm_compute.
Qed.

Lemma in_tree_rename_frame_witness :
  rename_frame nested_state moved_from_a moved_to_x (mkWatch 1 "/t")
    (mkWatch 1 "/t")
    (processNextInotifyEvent [moved_from_a; moved_to_x] 64 true nested_state).
Proof.
  apply in_tree_rename_frame.
  - repeat split; try done; try (by vm_compute); by exists 0%nat.
  - by vm_compute.
Defined.

End Witnesses.

(** * Further properties of the code *)

(** ** Searching the cache and the root set *)

Section SearchTheorems.

Lemma findWatch_from_first (cache : list watch) (d : Z) (k j : nat) :
  findWatch_from k cache d = Some j ->
  forall i w, (i < j - k)%nat -> cache !! i = Some w -> wd w <> d.
Proof.
  revert k; induction cache as [|w0 rest IH]; intros k; simpl; [done|].
  destruct (Z.eqb_spec (wd w0) d) as [E|Hne].
  - intros [= <-] i w Hi. lia.
  - intros Hf [|i] w Hi Hl; simpl in Hl.
    + by injection Hl as <-.
    + apply (IH _ Hf i); [|done].
      apply findWatch_from_lookup in Hf as (_ & _ & _ & Hk). lia.
Qed.

Lemma findWatch_from_None (cache : list watch) (d : Z) (k : nat) :
  findWatch_from k cache d = None <-> forall w, w ∈ cache -> wd w <> d.
Proof.
  revert k; induction cache as [|w0 rest IH]; intros k; simpl.
  - split; [|done]. intros _ w Hin. by apply elem_of_nil in Hin.
  - destruct (Z.eqb_spec (wd w0) d) as [E|Hne].
    + split; [done|]. intros Hall. destruct (Hall w0); [left | done].
    + rewrite IH. split.
      * intros Hall w Hin. apply elem_of_cons in Hin as [->|Hin]; auto.
      * intros Hall w Hin. apply Hall. by right.
Qed.

Lemma findWatch_from_intro (cache : list watch) (d : Z) (k j : nat) (w : watch) :
  cache !! j = Some w -> wd w = d ->
  (forall i w', (i < j)%nat -> cache !! i = Some w' -> wd w' <> d) ->
  findWatch_from k cache d = Some (k + j)%nat.
Proof.
  revert k j; induction cache as [|w0 rest IH]; intros k j Hl Hw Hfirst;
    simpl; [done|].
  destruct j as [|j]; simpl in Hl.
  - injection Hl as ->. rewrite Hw, Z.eqb_refl. f_equal. lia.
  - destruct (Z.eqb_spec (wd w0) d) as [E|Hne].
    + by destruct (Hfirst 0%nat w0); [lia | |].
    + rewrite (IH (S k) j); [f_equal; lia | done | done |].
      intros i w' Hi Hl'. apply (Hfirst (S i)); [lia | done].
Qed.

Lemma findWatch_Some_iff (cache : list watch) (d : Z) (j : nat) :
  findWatch cache d = Some j <-> first_slot (fun w => wd w = d) cache j.
Proof.
  unfold findWatch, first_slot. split.
  - intros Hf. split; [by apply findWatch_lookup|].
    intros i w Hi. apply (findWatch_from_first _ _ _ _ Hf). lia.
  - intros [(w & Hl & Hw) Hfirst].
    by apply (findWatch_from_intro cache d 0 j w).
Qed.

Lemma findWatch_None_iff (cache : list watch) (d : Z) :
  findWatch cache d = None <-> forall w, w ∈ cache -> wd w <> d.
Proof. apply findWatch_from_None. Qed.

(** X1. [findWatch] is a linear search that stops at the first hit: it
    returns a slot exactly when that slot is the first one that holds the
    descriptor, and it reports failure exactly when no slot holds it. *)
Theorem findWatch_first_match (cache : list watch) (d : Z) :
  (forall j, findWatch cache d = Some j
             <-> first_slot (fun w => wd w = d) cache j) /\
  (findWatch cache d = None <-> forall w, w ∈ cache -> wd w <> d).
Proof.
  split; [intros j; apply findWatch_Some_iff | apply findWatch_None_iff].
Qed.

Lemma pathnameToCacheSlot_from_first (cache : list watch) (p : string) (k j : nat) :
  pathnameToCacheSlot_from k cache p = Some j ->
  (k <= j)%nat /\
  (exists w, cache !! (j - k)%nat = Some w /\ 0 <= wd w /\ path w = p) /\
  forall i w, (i < j - k)%nat -> cache !! i = Some w ->
              ~ (0 <= wd w /\ path w = p).
Proof.
  revert k; induction cache as [|w0 rest IH]; intros k; simpl; [done|].
  destruct (Z.leb_spec 0 (wd w0)) as [Hact|Hfree]; simpl.
  - destruct (Z.eqb_spec (strcmp (path w0) p) 0) as [E|Hne].
    + intros [= <-]. rewrite Nat.sub_diag. apply strcmp_zero_iff in E.
      split; [done|]. split; [by exists w0|]. intros i w Hi. lia.
    + intros Hf. destruct (IH _ Hf) as (Hk & (w & Hl & Hw) & Hfirst).
      split; [lia|]. split.
      * exists w. by replace (j - k)%nat with (S (j - S k)) by lia.
      * intros [|i] w' Hi Hl'; simpl in Hl'.
        -- injection Hl' as <-. intros [_ Hp]. apply Hne.
           by apply strcmp_zero_iff.
        -- apply (Hfirst i); [lia | done].
  - intros Hf. destruct (IH _ Hf) as (Hk & (w & Hl & Hw) & Hfirst).
    split; [lia|]. split.
    + exists w. by replace (j - k)%nat with (S (j - S k)) by lia.
    + intros [|i] w' Hi Hl'; simpl in Hl'.
      * injection Hl' as <-. lia.
      * apply (Hfirst i); [lia | done].
Qed.

(** X2. [pathnameToCacheSlot] looks only at the slots in use and compares
    whole strings: the slot it returns is the first one in use with exactly
    that path, it fails exactly when no slot in use has the path, and
    [pathnameInCache] is that test. *)
Theorem pathnameToCacheSlot_first_match (cache : list watch) (p : string) :
  (forall j, pathnameToCacheSlot cache p = Some j ->
             first_slot (fun w => 0 <= wd w /\ path w = p) cache j) /\
  (pathnameToCacheSlot cache p = None <-> p ∉ active_paths cache) /\
  (pathnameInCache cache p = true <->
   exists w, w ∈ cache /\ 0 <= wd w /\ path w = p).
Proof.
  split; [|split].
  - intros j Hf. unfold pathnameToCacheSlot in Hf.
    destruct (pathnameToCacheSlot_from_first _ _ _ _ Hf) as (_ & Hw & Hfirst).
    rewrite Nat.sub_0_r in *. by split.
  - pose proof (pathnameInCache_iff cache p) as Hiff.
    unfold pathnameInCache in Hiff.
    destruct (pathnameToCacheSlot cache p); split; try done.
    + intros Hn. destruct Hn. by apply Hiff.
    + intros _ Hin. by apply Hiff in Hin.
  - rewrite pathnameInCache_iff. unfold active_paths.
    rewrite list_elem_of_fmap. split.
    + intros (w & -> & Hin). apply list_elem_of_filter in Hin as [Ha Hin].
      exists w. unfold active in Ha. split; [done|]. split; [lia | done].
    + intros (w & Hin & Hw & <-). exists w. split; [done|].
      apply list_elem_of_filter. split; [|done]. unfold active. lia.
Qed.

Lemma findRootDirPath_from_first (roots : list (option string)) (p : string)
    (k j : nat) :
  findRootDirPath_from k roots p = Some j ->
  forall i, (i < j - k)%nat -> roots !! i <> Some (Some p).
Proof.
  revert k; induction roots as [|r rest IH]; intros k; simpl; [done|].
  assert (Hrec : r <> Some p -> findRootDirPath_from (S k) rest p = Some j ->
            forall i, (i < j - k)%nat -> (r :: rest) !! i <> Some (Some p)).
  { intros Hr Hf [|i] Hi; simpl; [congruence|].
    apply (IH _ Hf). apply findRootDirPath_from_lookup in Hf. lia. }
  destruct r as [s|]; [|by apply Hrec].
  destruct (Z.eqb_spec (strcmp p s) 0) as [E|Hne].
  - intros [= <-] i Hi. lia.
  - apply Hrec. intros [= ->]. apply Hne. by apply strcmp_zero_iff.
Qed.

(** X3. [findRootDirPath] skips the zapped roots and returns the first root
    whose string is exactly the path; once a root is zapped, and no other
    root has the same string, the path is no longer a root. *)
Theorem findRootDirPath_first_match (roots : list (option string)) (p : string) :
  (forall j, findRootDirPath roots p = Some j ->
     roots !! j = Some (Some p) /\
     forall i, (i < j)%nat -> roots !! i <> Some (Some p)) /\
  (findRootDirPath roots p = None <-> Some p ∉ roots) /\
  (forall j, findRootDirPath roots p = Some j ->
     (forall i, i <> j -> roots !! i <> Some (Some p)) ->
     isRootDirPath (<[j := None]> roots) p = false).
Proof.
  split; [|split].
  - intros j Hf. split; [by apply findRootDirPath_lookup|].
    intros i Hi. apply (findRootDirPath_from_first _ _ _ _ Hf). lia.
  - pose proof (isRootDirPath_true roots p) as Hiff. unfold isRootDirPath in Hiff.
    destruct (findRootDirPath roots p); split; try done.
    + intros Hn. destruct Hn. by apply Hiff.
    + intros _ Hin. by apply Hiff in Hin.
  - intros j Hf Hother.
    destruct (isRootDirPath (<[j:=None]> roots) p) eqn:E; [|done].
    apply isRootDirPath_true, list_elem_of_lookup in E as [i Hi].
    destruct (decide (i = j)) as [->|Hne].
    + apply findRootDirPath_lookup, lookup_lt_Some in Hf.
      by rewrite list_lookup_insert_eq in Hi.
    + rewrite list_lookup_insert_ne in Hi by done. by destruct (Hother i).
Qed.

End SearchTheorems.

(** ** Adding and removing cache entries *)

Section CacheEntryTheorems.

Context {World : Type} `{OS World}.

Implicit Types s : @State World.

Lemma cache_only_refl s : cache_only s s.
Proof. by repeat split. Qed.

Lemma pathnameInCache_exists (cache : list watch) (p : string) :
  pathnameInCache cache p = true <->
  exists w, w ∈ cache /\ 0 <= wd w /\ path w = p.
Proof.
  rewrite pathnameInCache_iff. unfold active_paths.
  rewrite list_elem_of_fmap. split.
  - intros (w & -> & Hin). apply list_elem_of_filter in Hin as [Ha Hin].
    exists w. unfold active in Ha. split; [done|]. split; [lia | done].
  - intros (w & Hin & Hw & <-). exists w. split; [done|].
    apply list_elem_of_filter. split; [|done]. unfold active. lia.
Qed.

Lemma findEmptyCacheSlot_run s :
  match findWatch (wlCache s) (-1) with
  | Some j => findEmptyCacheSlot s = Ok j s
  | None =>
      findEmptyCacheSlot s
      = if os_realloc (length (wlCache s) + ALLOC_INCR) (world s)
        then Ok (length (wlCache s))
               (set_wlCache (wlCache s ++ replicate ALLOC_INCR empty_slot) s)
        else Exited EXIT_FAILURE s
  end.
Proof.
  unfold findEmptyCacheSlot. rewrite bind_get.
  destruct (findWatch (wlCache s) (-1)); [done|].
  destruct (os_realloc _ _); [|done].
  unfold bind, modify, ret. do 2 f_equal. lia.
Qed.

Lemma addWatchToCache_run d p s :
  d <> -1 -> findWatch (wlCache s) d = None ->
  watch_added s d p (addWatchToCache d p s).
Proof.
  intros Hd Hnew. unfold addWatchToCache, bind at 1.
  pose proof (findEmptyCacheSlot_run s) as Hrun.
  pose proof (proj1 (findWatch_None_iff _ _) Hnew) as Hfresh.
  assert (Hgen : forall s1 slot,
            cache_only s s1 ->
            (forall j w, wlCache s !! j = Some w -> wlCache s1 !! j = Some w) ->
            (forall j w, wlCache s1 !! j = Some w ->
               wlCache s !! j = Some w \/
               (length (wlCache s) <= j)%nat /\ w = empty_slot) ->
            (slot < length (wlCache s1))%nat ->
            (findWatch (wlCache s) (-1) = Some slot /\
               length (wlCache s1) = length (wlCache s) \/
             findWatch (wlCache s) (-1) = None /\ slot = length (wlCache s) /\
               length (wlCache s1) = (length (wlCache s) + ALLOC_INCR)%nat) ->
            watch_added s d p
              (Ok slot (set_wlCache
                          (<[slot := mkWatch d (strncpy PATH_MAX p)]> (wlCache s1))
                          s1))).
  { intros s1 slot Hframe Hkeep Hnothing Hlt Hcase. unfold watch_added.
    cbn [wlCache set_wlCache].
    split; [done|]. split.
    { rewrite length_insert. done. }
    assert (Hslot : <[slot:=mkWatch d (strncpy PATH_MAX p)]> (wlCache s1) !! slot
                    = Some (mkWatch d (strncpy PATH_MAX p)))
      by by apply list_lookup_insert_eq.
    split; [done|]. split; [|split; [|split]].
    - apply findWatch_Some_iff. split; [by eexists|].
      intros i w Hi Hl. rewrite list_lookup_insert_ne in Hl by lia.
      destruct (Hnothing _ _ Hl) as [Hold|[_ ->]]; [|done].
      apply Hfresh. by eapply list_elem_of_lookup_2.
    - intros Hpos. apply pathnameInCache_exists.
      exists (mkWatch d (strncpy PATH_MAX p)). split; [|done].
      by eapply list_elem_of_lookup_2.
    - intros j w Hl Hne. rewrite list_lookup_insert_ne by done. by apply Hkeep.
    - intros j w Hl Hne. rewrite list_lookup_insert_ne in Hl by done.
      by apply Hnothing. }
  destruct (findWatch (wlCache s) (-1)) as [j|] eqn:Hfree.
  - rewrite Hrun. unfold bind, modify, ret.
    apply Hgen; [apply cache_only_refl | done | by left | | by left].
    apply findWatch_lookup in Hfree as (w & Hl & _).
    by eapply lookup_lt_Some.
  - rewrite Hrun. destruct (os_realloc _ _) eqn:Hmem; [|done].
    unfold bind, modify, ret.
    set (s1 := set_wlCache (wlCache s ++ replicate ALLOC_INCR empty_slot) s).
    assert (Hc1 : wlCache s1 = wlCache s ++ replicate ALLOC_INCR empty_slot)
      by done.
    apply Hgen.
    + by repeat split.
    + intros j w Hl. rewrite Hc1. by apply lookup_app_l_Some.
    + intros j w Hl. rewrite Hc1 in Hl.
      apply lookup_app_Some in Hl as [Hl|[Hge Hl]]; [by left|].
      right. split; [done|]. by apply lookup_replicate in Hl as [-> _].
    + rewrite Hc1, length_app, length_replicate. unfold ALLOC_INCR. lia.
    + right. split; [done|]. split; [done|].
      by rewrite Hc1, length_app, length_replicate.
Qed.

(** X4. Adding a watch and looking it up.  For a descriptor that the cache
    does not hold yet and a pathname shorter than [PATH_MAX], which is
    stored whole and terminated, [addWatchToCache] puts the entry in the
    first free slot, growing the array by [ALLOC_INCR] free slots when there
    is none; afterwards [findWatch] returns that slot and [pathnameInCache]
    finds the stored path, and no other entry has moved or changed.  The
    only failure is [exit(EXIT_FAILURE)] when the array cannot grow. *)
Theorem addWatchToCache_then_lookup d p s :
  d <> -1 -> findWatch (wlCache s) d = None ->
  (String.length p < PATH_MAX)%nat ->
  strncpy PATH_MAX p = p /\ watch_added s d p (addWatchToCache d p s).
Proof.
  intros Hd Hnew Hlen. split; [|by apply addWatchToCache_run].
  apply str_take_all. lia.
Qed.

(** X5. Emptying the slot just filled undoes the addition: the cache is
    back to what it was (followed by the free slots that were appended, if
    any), the descriptor is unknown again, and the freed slot is the one the
    next addition will take. *)
Theorem markCacheSlotEmpty_undoes_add d p s :
  d <> -1 -> findWatch (wlCache s) d = None -> slots_wf (wlCache s) ->
  add_undone s d (addWatchToCache d p s).
Proof.
  intros Hd Hnew Hwf slot s' Hrun.
  pose proof (addWatchToCache_run d p s Hd Hnew) as Hadd.
  rewrite Hrun in Hadd.
  destruct Hadd as (Hframe & Hcase & Hslot & _ & _ & Hkeep & Hnothing).
  exists (set_wlCache (markCacheSlotEmpty slot (wlCache s')) s').
  split; [done|]. simpl.
  pose proof (proj1 (findWatch_None_iff _ _) Hnew) as Hfresh.
  assert (Hlt : (slot < length (wlCache s'))%nat) by by eapply lookup_lt_Some.
  assert (Hlook : forall j,
            markCacheSlotEmpty slot (wlCache s') !! j
            = (wlCache s ++ (if decide (length (wlCache s') = length (wlCache s))
                             then [] else replicate ALLOC_INCR empty_slot)) !! j).
  { intros j. unfold markCacheSlotEmpty.
    destruct (decide (j = slot)) as [->|Hne].
    - rewrite list_lookup_insert_eq by done.
      destruct Hcase as [[Hfree Hlen]|(Hfree & -> & Hlen)].
      + rewrite decide_True by done. rewrite app_nil_r.
        apply findWatch_lookup in Hfree as ([d0 p0] & Hl & Hw).
        rewrite Hl. f_equal. simpl in Hw. subst d0.
        assert (Hp : p0 = "") by
          by apply (Hwf (mkWatch (-1) p0)); [eapply list_elem_of_lookup_2|].
        by rewrite Hp.
      + rewrite decide_False by (unfold ALLOC_INCR in *; lia).
        rewrite lookup_app_r by lia. rewrite Nat.sub_diag. done.
    - rewrite list_lookup_insert_ne by done.
      destruct (wlCache s' !! j) as [w|] eqn:Hl.
      + destruct (Hnothing _ _ Hl Hne) as [Hold|[Hge ->]].
        * symmetry. by apply lookup_app_l_Some.
        * destruct Hcase as [[_ Hlen]|(_ & _ & Hlen)].
          -- apply lookup_lt_Some in Hl. lia.
          -- rewrite decide_False by (unfold ALLOC_INCR in *; lia).
             rewrite lookup_app_r by done. symmetry.
             apply lookup_replicate. split; [done|].
             apply lookup_lt_Some in Hl. lia.
      + apply lookup_ge_None in Hl. symmetry. apply lookup_ge_None.
        rewrite length_app. destruct Hcase as [[_ Hlen]|(_ & _ & Hlen)].
        * rewrite decide_True by done. simpl. lia.
        * rewrite decide_False by (unfold ALLOC_INCR in *; lia).
          rewrite length_replicate. lia. }
  apply list_eq in Hlook.
  split; [|split; [|split]].
  - destruct Hframe as (? & ? & ? & ? & ? & ? & ?). by repeat split.
  - rewrite Hlook. destruct (decide _); [left; by rewrite app_nil_r | by right].
  - apply findWatch_None_iff. intros w Hin. rewrite Hlook in Hin.
    apply elem_of_app in Hin as [Hin|Hin]; [by apply Hfresh|].
    destruct (decide _); [by apply elem_of_nil in Hin|].
    apply elem_of_replicate in Hin as [-> _]. done.
  - apply findWatch_Some_iff. split.
    + exists empty_slot. split; [|done].
      unfold markCacheSlotEmpty. by apply list_lookup_insert_eq.
    + intros i w Hi Hl. unfold markCacheSlotEmpty in Hl.
      rewrite list_lookup_insert_ne in Hl by lia.
      destruct Hcase as [[Hfree _]|(Hfree & -> & _)].
      * pose proof (proj1 (findWatch_Some_iff _ _ _) Hfree) as [_ Hfirst].
        destruct (Hnothing _ _ Hl) as [Hold|[Hge ->]]; [lia | |].
        -- by apply (Hfirst i).
        -- apply findWatch_lookup in Hfree as (w0 & Hl0 & _).
           apply lookup_lt_Some in Hl0. lia.
      * destruct (Hnothing _ _ Hl) as [Hold|[Hge ->]]; [lia | | lia].
        apply (proj1 (findWatch_None_iff _ _) Hfree).
        by eapply list_elem_of_lookup_2.
Qed.

End CacheEntryTheorems.

(** ** Removing a subtree *)

Section ZapTheorems.

Context {World : Type} `{OS World}.

Implicit Types s : @State World.

Lemma sys_inotify_rm_watch_run fd d s :
  exists r s1, sys_inotify_rm_watch fd d s = Ok r s1 /\
    same_setup s s1 /\ wlCache s1 = wlCache s /\
    trace s1 = trace s ++ [CInotifyRmWatch fd d].
Proof.
  unfold sys_inotify_rm_watch. rewrite bind_get.
  destruct (os_inotify_rm_watch fd d (world s)) as [[r e] w].
  unfold bind, modify, ret, when.
  destruct (r =? -1); simpl; by repeat eexists.
Qed.

Lemma under_iff p w :
  under p w = true <-> 0 <= wd w /\ delimited_prefix p (path w).
Proof.
  unfold under. rewrite andb_true_iff, Z.leb_le.
  split; intros [? ?]; (split; [done|]); by apply prefix_match_iff.
Qed.

(** One turn of the loop, the copy of the path at hand. *)
Lemma zap_loop_cons fd pn j js cnt s w :
  wlCache s !! j = Some w ->
  zap_loop fd (Some pn) (j :: js) cnt s
  = if under pn w then
      (r <- sys_inotify_rm_watch fd (wd w) ;;
       if r =? -1 then ret (-1)
       else markSlotEmpty j ;;; zap_loop fd (Some pn) js (cnt + 1)) s
    else zap_loop fd (Some pn) js cnt s.
Proof.
  intros Hw. simpl. rewrite bind_get, Hw. unfold under.
  by destruct (0 <=? wd w), (prefix_match pn (path w)).
Qed.

(** Without the copy the loop returns only when it meets no slot in use. *)
Lemma zap_loop_no_copy fd js : forall cnt s cnt' s',
  zap_loop fd None js cnt s = Ok cnt' s' ->
  s' = s /\ cnt' = cnt /\
  forall j w, j ∈ js -> wlCache s !! j = Some w -> (0 <=? wd w) = false.
Proof.
  induction js as [|j js IH]; intros cnt s cnt' s' E; simpl in E.
  - injection E as <- <-. split; [done|]. split; [done|].
    intros j w Hj. by apply elem_of_nil in Hj.
  - rewrite bind_get in E.
    destruct (wlCache s !! j) as [w|] eqn:Hw; [|done].
    destruct (0 <=? wd w) eqn:Hwd; [done|].
    destruct (IH _ _ _ _ E) as (-> & -> & Hall).
    split; [done|]. split; [done|].
    intros j' w' Hj' Hw'. apply elem_of_cons in Hj' as [->|Hj'].
    + congruence.
    + by eapply Hall.
Qed.

Lemma zap_loop_run fd pn n : forall k cnt s,
  (k + n = length (wlCache s))%nat -> 0 <= cnt ->
  exists cnt' s', zap_loop fd (Some pn) (seq k n) cnt s = Ok cnt' s' /\
    same_setup s s' /\
    length (wlCache s') = length (wlCache s) /\
    (forall j w, wlCache s !! j = Some w ->
       wlCache s' !! j = Some w \/
       under pn w = true /\ wlCache s' !! j = Some empty_slot) /\
    (exists ds, trace s' = trace s ++ map (CInotifyRmWatch fd) ds) /\
    (cnt' = -1 \/ 0 <= cnt') /\
    (cnt' <> -1 ->
       (forall j, (j < k)%nat -> wlCache s' !! j = wlCache s !! j) /\
       (forall j, (k <= j)%nat ->
          wlCache s' !! j = zapped pn <$> wlCache s !! j) /\
       cnt' = cnt + Z.of_nat (length (rm_calls fd pn (drop k (wlCache s)))) /\
       trace s' = trace s ++ rm_calls fd pn (drop k (wlCache s))).
Proof.
  induction n as [|n IH]; intros k cnt s Hlen Hcnt; cbn [seq].
  - simpl. exists cnt, s. split; [done|]. split; [done|]. split; [done|].
    split; [by left|]. split; [exists []; by rewrite app_nil_r|].
    split; [by right|]. intros _.
    rewrite drop_ge by lia. unfold rm_calls. simpl.
    split; [done|]. split; [|split; [lia | by rewrite app_nil_r]].
    intros j Hj. rewrite (proj2 (lookup_ge_None _ _)) by lia. done.
  - destruct (wlCache s !! k) as [w|] eqn:Hk;
      [|apply lookup_ge_None in Hk; lia].
    assert (Hdrop : drop k (wlCache s) = w :: drop (S k) (wlCache s))
      by by apply drop_S.
    rewrite (zap_loop_cons _ _ _ _ _ _ _ Hk).
    destruct (under pn w) eqn:Hu.
    + destruct (sys_inotify_rm_watch_run fd (wd w) s)
        as (r & s1 & Hrm & Hset1 & Hc1 & Ht1).
      unfold bind at 1. rewrite Hrm.
      destruct (r =? -1) eqn:Hr.
      * exists (-1), s1. split; [done|]. split; [done|].
        split; [by rewrite Hc1|]. split; [intros j w' Hl; left; by rewrite Hc1|].
        split; [by exists [wd w]|]. split; [by left | done].
      * unfold bind at 1, markSlotEmpty, modify.
        set (s2 := set_wlCache (markCacheSlotEmpty k (wlCache s1)) s1).
        destruct (IH (S k) (cnt + 1) s2) as
          (cnt' & s' & Hrun & Hset & Hlen' & Hslots & (ds & Htr) & Hsign & Hex).
        { subst s2. simpl. unfold markCacheSlotEmpty.
          rewrite length_insert, Hc1. lia. }
        { lia. }
        assert (Hc2 : wlCache s2 = <[k := empty_slot]> (wlCache s))
          by (subst s2; simpl; by rewrite Hc1).
        exists cnt', s'. split; [done|]. split.
        { destruct Hset as (? & ? & ? & ?), Hset1 as (? & ? & ? & ?).
          subst s2. simpl in *. repeat split; congruence. }
        split; [by rewrite Hlen', Hc2, length_insert|]. split.
        { intros j w' Hl. destruct (decide (j = k)) as [->|Hne].
          - assert (w' = w) as -> by congruence. right. split; [done|].
            destruct (Hslots k empty_slot) as [Hs|[_ Hs]]; try done.
            rewrite Hc2. apply list_lookup_insert_eq. by eapply lookup_lt_Some.
          - apply Hslots. rewrite Hc2. by rewrite list_lookup_insert_ne. }
        split.
        { exists (wd w :: ds). rewrite Htr. subst s2. simpl. rewrite Ht1.
          by rewrite <- app_assoc. }
        split; [done|]. intros Hne. destruct (Hex Hne) as (Hlow & Hhigh & Hn & Htr').
        assert (Hat : wlCache s' !! k = Some empty_slot).
        { rewrite Hlow by lia. rewrite Hc2. apply list_lookup_insert_eq.
          by eapply lookup_lt_Some. }
        split; [|split; [|split]].
        -- intros j Hj. rewrite Hlow by lia. rewrite Hc2.
           apply list_lookup_insert_ne. lia.
        -- intros j Hj. destruct (decide (j = k)) as [->|Hjk].
           ++ rewrite Hat, Hk. simpl. unfold zapped. by rewrite Hu.
           ++ rewrite Hhigh by lia. rewrite Hc2.
              by rewrite list_lookup_insert_ne by lia.
        -- rewrite Hn, Hc2, drop_insert_lt by lia. rewrite Hdrop.
           unfold rm_calls. rewrite filter_cons_True by done. simpl. lia.
        -- rewrite Htr', Hc2, drop_insert_lt by lia. rewrite Hdrop.
           unfold rm_calls. rewrite filter_cons_True by done. simpl.
           subst s2. simpl. rewrite Ht1. by rewrite <- app_assoc.
    + destruct (IH (S k) cnt s) as
        (cnt' & s' & Hrun & Hset & Hlen' & Hslots & Htr & Hsign & Hex);
        [lia | done |].
      exists cnt', s'. split; [done|]. split; [done|]. split; [done|].
      split; [done|]. split; [done|]. split; [done|].
      intros Hne. destruct (Hex Hne) as (Hlow & Hhigh & Hn & Htr').
      split; [|split; [|split]].
      * intros j Hj. apply Hlow. lia.
      * intros j Hj. destruct (decide (j = k)) as [->|Hjk].
        -- rewrite Hlow by lia. rewrite Hk. simpl. unfold zapped.
           by rewrite Hu.
        -- apply Hhigh. lia.
      * rewrite Hn, Hdrop. unfold rm_calls.
        rewrite filter_cons_False by by rewrite Hu. done.
      * rewrite Htr', Hdrop. unfold rm_calls.
        rewrite filter_cons_False by by rewrite Hu. done.
Qed.

Lemma zapSubtree_run fd p s :
  os_strdup p (world s) = true ->
  zap_frame s fd p (zapSubtree fd p s) /\ zap_exact s fd p (zapSubtree fd p s).
Proof.
  intros Hdup. unfold zapSubtree. rewrite bind_get, Hdup.
  destruct (zap_loop_run fd p (length (wlCache s)) 0 0 s) as
    (cnt & s' & Hrun & Hset & Hlen & Hslots & Htr & Hsign & Hex);
    [done | done |].
  split.
  - exists cnt, s'. do 5 (split; [done|]). done.
  - intros cnt0 s0 Hrun0 Hne. rewrite Hrun in Hrun0.
    injection Hrun0 as <- <-.
    destruct (Hex Hne) as (_ & Hhigh & Hn & Htr'). rewrite drop_0 in *.
    assert (Hmap : wlCache s' = map (zapped p) (wlCache s)).
    { apply list_eq. intros j. rewrite Hhigh by lia.
      by rewrite list_lookup_fmap. }
    split; [done|]. split; [lia|]. split; [done|]. split.
    + intros w Hin Hact Hpre. rewrite Hmap in Hin.
      apply list_elem_of_fmap in Hin as (w0 & -> & _).
      unfold zapped in *. destruct (under p w0) eqn:Hu; [simpl in Hact; lia|].
      assert (under p w0 = true) by by apply under_iff. congruence.
    + intros j w Hl Hout. rewrite Hmap, list_lookup_fmap, Hl. simpl.
      unfold zapped. destruct (under p w) eqn:Hu; [|done].
      by apply under_iff in Hu.
Qed.

(** Without the copy of the path, [zapSubtree] returns only when no slot
    is in use, and then it has done nothing. *)
Lemma zapSubtree_no_copy fd p s cnt s' :
  os_strdup p (world s) = false ->
  zapSubtree fd p s = Ok cnt s' ->
  s' = s /\ cnt = 0 /\ forall w, w ∈ wlCache s -> (0 <=? wd w) = false.
Proof.
  intros Hdup. unfold zapSubtree. rewrite bind_get, Hdup. intros E.
  destruct (zap_loop_no_copy _ _ _ _ _ _ E) as (-> & -> & Hall).
  split; [done|]. split; [done|].
  intros w Hin. apply list_elem_of_lookup in Hin as [j Hj].
  apply (Hall j); [|done].
  apply list_elem_of_In, in_seq. apply lookup_lt_Some in Hj. lia.
Qed.

(** X6. Once the copy of the path is made, [zapSubtree] returns, also when a
    removal fails.  It leaves the roots, the configuration and the descriptor
    alone, keeps the number of slots, never alters an entry that is not at or
    under the path, and the only calls it makes are [inotify_rm_watch]. *)
Theorem zapSubtree_touches_only_the_subtree fd p s :
  os_strdup p (world s) = true ->
  zap_frame s fd p (zapSubtree fd p s).
Proof. apply zapSubtree_run. Qed.

(** X7. When [zapSubtree] does not report [-1], it has freed exactly the
    entries in use whose path is the given one or lies under it, the value
    returned is their number, one [inotify_rm_watch] was issued for each of
    them in slot order, and nothing at or under the path is left in the
    cache. *)
Theorem zapSubtree_removes_exactly_the_subtree fd p s :
  zap_exact s fd p (zapSubtree fd p s).
Proof.
  destruct (os_strdup p (world s)) eqn:Hdup; [by apply zapSubtree_run|].
  intros cnt s' E _.
  destruct (zapSubtree_no_copy _ _ _ _ _ Hdup E) as (-> & -> & Hall).
  assert (Hun : forall w, w ∈ wlCache s -> under p w = false).
  { intros w Hin. unfold under. by rewrite (Hall w Hin). }
  assert (Hrm : rm_calls fd p (wlCache s) = []).
  { unfold rm_calls. induction (wlCache s) as [|w c IH]; [done|].
    rewrite filter_cons_False.
    - apply IH; intros w' Hw'; [apply Hall | apply Hun]; by right.
    - rewrite Hun; [done | by left]. }
  split.
  { apply list_eq. intros j. rewrite list_lookup_fmap.
    destruct (wlCache s !! j) as [w|] eqn:Hj; [|done]. simpl.
    unfold zapped. rewrite Hun; [done|]. by eapply list_elem_of_lookup_2. }
  rewrite Hrm. split; [done|]. split; [by rewrite app_nil_r|]. split.
  - intros w Hin Hact. specialize (Hall w Hin).
    apply Z.leb_gt in Hall. lia.
  - done.
Qed.

End ZapTheorems.

(** ** Renaming back *)

Section RenameBack.

Lemma watch_eq (w w' : watch) : wd w = wd w' -> path w = path w' -> w = w'.
Proof. destruct w, w'. simpl. by intros -> ->. Qed.

Lemma rewrite_entry_back (old new : string) (w : watch) :
  (delimited_prefix old (path w) ->
   (String.length new + String.length (path w) - String.length old < PATH_MAX)%nat
   /\ (String.length (path w) < PATH_MAX)%nat) ->
  ~ delimited_prefix new (path w) ->
  rewrite_entry new old (rewrite_entry old new w) = w.
Proof.
  intros Hfit Hfresh. apply watch_eq; [by rewrite !rewrite_entry_wd|].
  rewrite !rewrite_entry_path.
  destruct (prefix_match old (path w)) eqn:Mw.
  - apply prefix_match_iff in Mw as (suffix & E & Hs).
    destruct Hfit as [Hnew Hold]; [by exists suffix|].
    rewrite E, str_app_length in *.
    rewrite rewrite_path_match by (done || lia).
    apply rewrite_path_match; [lia | done].
  - unfold rewrite_path at 2. rewrite Mw.
    unfold rewrite_path. by rewrite (proj2 (prefix_match_false _ _) Hfresh).
Qed.

(** X8. Renaming a directory and renaming it back restores the cache.  When
    the paths fit a cache slot and nothing was cached at or under the new
    name, the rewrite for [old -> new] followed by the rewrite for
    [new -> old] gives back every entry, slot by slot. *)
Theorem rewriteCachedPaths_round_trip (oldP oldN newP newN : string)
    (cache : list watch) :
  rename_fits oldP oldN newP newN cache ->
  Forall (fun w => (String.length (path w) < PATH_MAX)%nat /\
                   ~ delimited_prefix (newP +:+ "/" +:+ newN) (path w)) cache ->
  rewriteCachedPaths newP newN oldP oldN
    (rewriteCachedPaths oldP oldN newP newN cache) = cache.
Proof.
  intros Hfits Hall. rewrite (rename_fits_paths _ _ _ _ _ Hfits).
  destruct Hfits as (Ho & Hn & Hfit). unfold rewriteCachedPaths.
  rewrite !snprintf_fits by done. rewrite !rewrite_slots_map, map_map.
  rewrite Forall_forall in Hall, Hfit.
  rewrite <- (map_id cache) at 2. apply map_ext_in. intros w Hin.
  apply list_elem_of_In in Hin. destruct (Hall w Hin) as [Hlen Hfresh].
  apply rewrite_entry_back; [|done]. intros Hd. split; [by apply Hfit | done].
Qed.

End RenameBack.

(** ** Induction over the steps of the engine *)

Section StepInduction.

Context {World : Type} `{OS World}.

Implicit Types s : @State World.

Variable R : @State World -> @State World -> Prop.

Hypothesis R_refl : forall s, R s s.
Hypothesis R_trans : forall s1 s2 s3, R s1 s2 -> R s2 s3 -> R s1 s3.
Hypothesis R_errno : forall e s, R s (set_errno e s).
Hypothesis R_world : forall w s, R s (set_world w s).
Hypothesis R_fd : forall fd s, R s (set_inotifyFd fd s).
Hypothesis R_call : forall c s, R s (add_call c s).
Hypothesis R_zap :
  forall p j s,
    findRootDirPath (rootDirPaths s) p = Some j ->
    R s (set_roots (<[j := None]> (rootDirPaths s))
                   (to_int (ignoreRootDirs s + 1)) s).
Hypothesis R_mark :
  forall slot s, R s (set_wlCache (markCacheSlotEmpty slot (wlCache s)) s).
Hypothesis R_clear : forall s, R s (set_wlCache [] s).
Hypothesis R_rewrite :
  forall a b c d s,
    R s (set_wlCache (rewriteCachedPaths a b c d (wlCache s)) s).
Hypothesis R_traverse : forall ifd entry, run_rel R (traverseTree ifd entry).

Local Ltac side := first [exact R_refl | exact R_trans | exact R_errno
                         | exact R_world | exact R_fd | exact R_zap
                         | (intros; apply R_call)].

Local Ltac seq_ := apply run_rel_bind; [exact R_trans| |].
Local Ltac ret_ := apply run_rel_ret; exact R_refl.

Lemma step_markSlotEmpty slot : run_rel R (markSlotEmpty slot).
Proof. intros s. apply R_mark. Qed.

Lemma step_watchSubtree fd p : run_rel R (watchSubtree fd p).
Proof.
  unfold watchSubtree. apply run_rel_get. intros s0.
  destruct (os_nftw p (world s0)) as [[entries r] e].
  seq_; [|intros _].
  { intros s. apply R_call. }
  seq_; [|intros _].
  { apply run_rel_for_each; [exact R_refl | exact R_trans |].
    intros entry. apply R_traverse. }
  apply run_rel_when; [exact R_refl|]. intros s. apply R_errno.
Qed.

Lemma step_sys_inotify_rm_watch fd d : run_rel R (sys_inotify_rm_watch fd d).
Proof. apply run_rel_sys_inotify_rm_watch; side. Qed.

Lemma step_zap_loop fd pn js cnt : run_rel R (zap_loop fd pn js cnt).
Proof.
  revert cnt; induction js as [|j js IH]; intros cnt; simpl; [ret_|].
  apply run_rel_get. intros s0.
  destruct (wlCache s0 !! j) as [w|]; [|apply run_rel_undefined].
  destruct (0 <=? wd w); [|apply IH].
  destruct pn as [copy|]; [|apply run_rel_undefined].
  destruct (prefix_match copy (path w)); [|apply IH].
  seq_; [apply step_sys_inotify_rm_watch | intros r].
  destruct (r =? -1); [ret_|].
  seq_; [apply step_markSlotEmpty | intros _; apply IH].
Qed.

Lemma step_zapSubtree fd p : run_rel R (zapSubtree fd p).
Proof.
  unfold zapSubtree. apply run_rel_get. intros s0. apply step_zap_loop.
Qed.

Lemma step_reinitialize old : run_rel R (reinitialize old).
Proof.
  unfold reinitialize.
  seq_; [|intros _].
  { apply run_rel_when; [exact R_refl|]. apply run_rel_sys_close; side. }
  seq_; [apply run_rel_sys_inotify_init; side | intros fd].
  destruct (fd =? -1); [apply run_rel_exit; exact R_refl|].
  seq_; [intros s; apply R_clear | intros _].
  apply run_rel_get. intros s0.
  seq_; [|intros _; ret_].
  apply run_rel_for_each; [exact R_refl | exact R_trans |].
  intros [p|]; [apply step_watchSubtree | ret_].
Qed.

Lemma step_reinitializeFd : run_rel R reinitializeFd.
Proof.
  unfold reinitializeFd. apply run_rel_get. intros s0.
  seq_; [apply step_reinitialize | intros fd].
  intros s. apply R_fd.
Qed.

Lemma step_discardBuffer : run_rel R discardBuffer.
Proof.
  unfold discardBuffer. seq_; [apply step_reinitializeFd | intros _; ret_].
Qed.

Lemma step_slotPath slot : run_rel R (slotPath slot).
Proof. apply run_rel_slotPath. exact R_refl. Qed.

Lemma step_findWatchChecked d : run_rel R (findWatchChecked d).
Proof. apply run_rel_findWatchChecked; side. Qed.

Lemma step_zapRootDirPath p : run_rel R (zapRootDirPath p).
Proof. apply run_rel_zapRootDirPath; side. Qed.

Lemma step_finish evLen : run_rel R (finish evLen).
Proof. apply run_rel_finish; side. Qed.

Lemma step_movedOut ev slot evLen : run_rel R (movedOut ev slot evLen).
Proof.
  unfold movedOut.
  seq_; [apply step_slotPath | intros p].
  apply run_rel_get. intros s0.
  seq_; [apply step_zapSubtree | intros r].
  destruct (r =? -1); [apply step_discardBuffer | ret_].
Qed.

Lemma step_movedFrom ev rest bufSize firstTry slot evLen :
  run_rel R (movedFrom ev rest bufSize firstTry slot evLen).
Proof.
  unfold movedFrom. destruct (_ <? _).
  - destruct rest as [|nextEv rest]; [apply run_rel_undefined|].
    destruct (_ && _); [|apply step_movedOut].
    seq_; [apply step_findWatchChecked | intros [nslot|]];
      [|apply step_discardBuffer].
    seq_; [apply step_slotPath | intros p].
    seq_; [apply step_slotPath | intros p'].
    seq_; [|intros _; ret_].
    intros s. apply R_rewrite.
  - destruct (negb firstTry); [apply step_movedOut | ret_].
Qed.

Lemma step_dispatch ev rest bufSize firstTry slot evLen :
  run_rel R (dispatch ev rest bufSize firstTry slot evLen).
Proof.
  unfold dispatch. destruct (_ && _).
  { seq_; [apply step_slotPath | intros p].
    apply run_rel_get. intros s0.
    seq_; [|intros _; ret_].
    apply run_rel_when; [exact R_refl | apply step_watchSubtree]. }
  destruct (has _ IN_DELETE_SELF).
  { seq_; [apply step_slotPath | intros p].
    apply run_rel_get. intros s0.
    seq_; [|intros _].
    { apply run_rel_when; [exact R_refl | apply step_zapRootDirPath]. }
    seq_; [|intros _; ret_].
    destruct slot; [apply step_markSlotEmpty | apply run_rel_undefined]. }
  destruct (_ =? _)%N; [apply step_movedFrom|].
  destruct (has _ IN_Q_OVERFLOW).
  { seq_; [apply step_reinitializeFd | intros _; ret_]. }
  destruct (has _ IN_UNMOUNT).
  { seq_; [|intros _; ret_].
    destruct slot; [apply step_markSlotEmpty | apply run_rel_undefined]. }
  destruct (has _ IN_MOVE_SELF); [|ret_].
  seq_; [apply step_slotPath | intros p].
  apply run_rel_get. intros s0.
  destruct (isRootDirPath _ _); [|ret_].
  seq_; [apply step_zapRootDirPath | intros _].
  seq_; [apply step_slotPath | intros p'].
  apply run_rel_get. intros s1.
  seq_; [apply step_zapSubtree | intros r].
  destruct (r =? -1); [apply step_discardBuffer | ret_].
Qed.

Lemma step_processNext buf bufSize firstTry :
  run_rel R (processNextInotifyEvent buf bufSize firstTry).
Proof.
  unfold processNextInotifyEvent.
  destruct buf as [|ev rest]; [apply run_rel_undefined|].
  seq_.
  - destruct (_ && _); [|ret_].
    seq_; [apply step_findWatchChecked | intros slot; ret_].
  - intros lookup. unfold process_end. seq_.
    + destruct lookup as [[slot|]|];
        try apply step_dispatch. apply step_discardBuffer.
    + intros [evLen|v]; [apply step_finish | ret_].
Qed.

Lemma step_supplementaryRead buf numRead rr :
  run_rel R (supplementaryRead buf numRead rr).
Proof.
  unfold supplementaryRead. apply run_rel_get. intros s0.
  seq_; [intros s; apply R_call | intros _].
  seq_; [|intros _].
  { destruct rr; [ret_ | intros s; apply R_errno]. }
  apply run_rel_get. intros s1.
  destruct (_ && _); [apply run_rel_exit; exact R_refl|].
  destruct (_ =? 0); [apply run_rel_exit; exact R_refl|].
  destruct rr; [|ret_].
  destruct (_ =? _); [ret_ | apply run_rel_undefined].
Qed.

Lemma step_events_loop fuel : forall buf numLeft firstTry more,
  run_rel R (events_loop fuel buf numLeft firstTry more).
Proof.
  induction fuel as [|fuel IH]; intros buf numLeft firstTry more; simpl;
    [ret_|].
  destruct (numLeft <=? 0); [ret_|].
  seq_; [apply step_processNext | intros r].
  destruct (0 <? to_int r).
  - destruct (_ <=? 0); [ret_|].
    destruct (advance _ _); [apply IH | apply run_rel_undefined].
  - seq_; [apply step_supplementaryRead | intros bn; apply IH].
Qed.

Lemma step_processInotifyEvents fuel first more :
  run_rel R (processInotifyEvents fuel first more).
Proof.
  unfold processInotifyEvents. apply run_rel_get. intros s0.
  seq_; [intros s; apply R_call | intros _].
  destruct first as [evs|e].
  - destruct (_ =? 0); [apply run_rel_exit; exact R_refl|].
    destruct (_ <? _); [apply run_rel_undefined|].
    apply step_events_loop.
  - seq_; [intros s; apply R_errno | intros _].
    apply run_rel_exit; exact R_refl.
Qed.

End StepInduction.

(** ** The invariants of the cache *)

Section CacheInvariant.

Context {World : Type} `{OS World}.

Implicit Types s : @State World.

Lemma cache_ok_nil : cache_ok [].
Proof.
  split; [by intros i j w w' Hi | intros w Hin; by apply elem_of_nil in Hin].
Qed.

Lemma cache_ok_insert (cache : list watch) (slot : nat) (e : watch) :
  cache_ok cache ->
  (wd e <> -1 -> forall w, w ∈ cache -> wd w <> wd e) ->
  (wd e = -1 -> path e = "") ->
  (String.length (path e) <= PATH_MAX)%nat ->
  cache_ok (<[slot := e]> cache).
Proof.
  intros [Hu Hwf] Hfresh Hfree Hlen. split.
  - intros i j w w' Hi Hj Hw Hused.
    apply list_lookup_insert_Some in Hi as [(<- & <- & Hi)|[Hi Hl]];
      apply list_lookup_insert_Some in Hj as [(<- & <- & Hj)|[Hj Hl']];
      try done.
    + destruct (Hfresh Hused w'); [by eapply list_elem_of_lookup_2 | done].
    + destruct (Hfresh (eq_ind _ (fun d => d <> -1) Hused _ Hw) w);
        [by eapply list_elem_of_lookup_2 | done].
    + by apply (Hu i j w w').
  - intros w Hin. apply list_elem_of_lookup in Hin as [j Hj].
    apply list_lookup_insert_Some in Hj as [(_ & <- & _)|[_ Hl]]; [done|].
    apply Hwf. by eapply list_elem_of_lookup_2.
Qed.

Lemma cache_ok_mark (slot : nat) (cache : list watch) :
  cache_ok cache -> cache_ok (markCacheSlotEmpty slot cache).
Proof.
  intros Hok. apply cache_ok_insert; try done. simpl. lia.
Qed.

Lemma cache_ok_grow (cache : list watch) :
  cache_ok cache -> cache_ok (cache ++ replicate ALLOC_INCR empty_slot).
Proof.
  intros [Hu Hwf]. split.
  - intros i j w w' Hi Hj Hw Hused.
    apply lookup_app_Some in Hi as [Hi|[_ Hi]];
      [|apply lookup_replicate in Hi as [-> _]; done].
    apply lookup_app_Some in Hj as [Hj|[_ Hj]];
      [|apply lookup_replicate in Hj as [-> _]; simpl in Hw; congruence].
    by apply (Hu i j w w').
  - intros w Hin. apply elem_of_app in Hin as [Hin|Hin]; [by apply Hwf|].
    apply elem_of_replicate in Hin as [-> _]. simpl. split; [done | lia].
Qed.

Lemma fullPath_nonempty (a b : string) :
  snprintf PATH_MAX (a +:+ "/" +:+ b) <> "".
Proof.
  intros E. apply (f_equal String.length) in E. unfold snprintf in E.
  rewrite str_take_length, !str_app_length in E.
  change (String.length "/") with 1%nat in E.
  change (String.length "") with 0%nat in E.
  unfold PATH_MAX in E. lia.
Qed.

Lemma cache_ok_rewrite (a b c d : string) (cache : list watch) :
  cache_ok cache -> cache_ok (rewriteCachedPaths a b c d cache).
Proof.
  intros [Hu Hwf]. unfold rewriteCachedPaths. rewrite rewrite_slots_map.
  set (f := snprintf PATH_MAX (a +:+ "/" +:+ b)).
  set (n := snprintf PATH_MAX (c +:+ "/" +:+ d)). split.
  - intros i j w w' Hi Hj Hw Hused. rewrite list_lookup_fmap in Hi, Hj.
    destruct (cache !! i) as [w0|] eqn:Hi0; [|done].
    destruct (cache !! j) as [w0'|] eqn:Hj0; [|done].
    simpl in Hi, Hj. injection Hi as <-. injection Hj as <-.
    rewrite !rewrite_entry_wd in *. by apply (Hu i j w0 w0').
  - intros w Hin. apply list_elem_of_fmap in Hin as (w0 & -> & Hin).
    destruct (Hwf w0 Hin) as [Hfree Hlen].
    rewrite rewrite_entry_wd, rewrite_entry_path. unfold rewrite_path.
    destruct (prefix_match f (path w0)) eqn:Hm; [|done]. split.
    + intros Hw. rewrite (Hfree Hw) in Hm.
      apply prefix_match_iff in Hm as (suffix & E & _).
      destruct (fullPath_nonempty a b). fold f.
      destruct f; [done|]. by rewrite str_app_cons in E.
    + unfold strncpy. rewrite str_take_length. lia.
Qed.

Lemma keeps_addWatchToCache d p s :
  d <> -1 -> findWatch (wlCache s) d = None ->
  cache_ok (wlCache s) -> preserves cache_ok (addWatchToCache d p) s.
Proof.
  intros Hd Hnew Hok. unfold preserves, addWatchToCache, bind at 1.
  pose proof (findEmptyCacheSlot_run s) as Hrun.
  pose proof (proj1 (findWatch_None_iff _ _) Hnew) as Hfresh.
  assert (Hlen : (String.length (strncpy PATH_MAX p) <= PATH_MAX)%nat).
  { unfold strncpy. rewrite str_take_length. lia. }
  destruct (findWatch (wlCache s) (-1)) as [j|].
  - rewrite Hrun. unfold bind, modify, ret. simpl.
    by apply cache_ok_insert.
  - rewrite Hrun. destruct (os_realloc _ _); [|done].
    unfold bind, modify, ret. cbn [wlCache set_wlCache].
    apply cache_ok_insert; [by apply cache_ok_grow | | done | done].
    intros _ w Hin. apply elem_of_app in Hin as [Hin|Hin]; [by apply Hfresh|].
    apply elem_of_replicate in Hin as [-> _]. simpl. congruence.
Qed.

Lemma keeps_refl (I : list watch -> Prop) s : keeps I s s.
Proof. by unfold keeps. Qed.

Lemma keeps_trans (I : list watch -> Prop) s1 s2 s3 :
  keeps I s1 s2 -> keeps I s2 s3 -> keeps I s1 s3.
Proof. unfold keeps. auto. Qed.

Lemma keeps_traverseTree ifd entry :
  run_rel (keeps cache_ok) (@traverseTree World _ ifd entry).
Proof.
  unfold traverseTree. destruct entry as [pathname isdir].
  destruct (negb isdir); [apply run_rel_ret, keeps_refl|].
  apply run_rel_get. intros s0.
  apply run_rel_bind;
    [apply keeps_trans
    | apply run_rel_sys_inotify_add_watch;
        (apply keeps_refl || apply keeps_trans || by unfold keeps)
    | intros d].
  destruct (d =? -1) eqn:Hd.
  - apply run_rel_get. intros s1.
    destruct (_ =? ENOENT);
      [apply run_rel_ret, keeps_refl | apply run_rel_exit, keeps_refl].
  - intros s. rewrite bind_get.
    destruct (findWatch (wlCache s) d) eqn:Hf; [apply keeps_refl|].
    pose proof (fun Hok => keeps_addWatchToCache d pathname s
                  (proj1 (Z.eqb_neq _ _) Hd) Hf Hok) as Hadd.
    unfold preserves in Hadd. unfold bind, ret.
    by destruct (addWatchToCache d pathname s).
Qed.

Lemma keeps_step {A} (c : @M World A) s :
  run_rel (keeps cache_ok) c -> cache_ok (wlCache s) -> preserves cache_ok c s.
Proof.
  intros Hc Hok. specialize (Hc s). unfold preserves.
  destruct (c s); try done; by apply Hc.
Qed.

Lemma keeps_processNext buf bufSize firstTry :
  run_rel (keeps cache_ok) (@processNextInotifyEvent World _ buf bufSize firstTry).
Proof.
  apply step_processNext; unfold keeps; simpl; auto.
  - intros slot s. apply cache_ok_mark.
  - intros _ _. apply cache_ok_nil.
  - intros a b c d s. apply cache_ok_rewrite.
  - apply keeps_traverseTree.
Qed.

(** X9. The cache invariants hold after every step of the event
    processor, whatever the records in the buffer, the size given and the
    try: no two slots hold the same watch descriptor, a free slot holds the
    empty path, and no cached path is longer than [PATH_MAX]. *)
Theorem processNextInotifyEvent_keeps_cache_invariants buf bufSize firstTry s :
  cache_ok (wlCache s) ->
  preserves cache_ok (processNextInotifyEvent buf bufSize firstTry) s.
Proof. apply keeps_step, keeps_processNext. Qed.

(** X10. The same invariants hold when [processInotifyEvents] ends,
    whatever the block read, the supplementary reads and the number of
    iterations. *)
Theorem processInotifyEvents_keeps_cache_invariants fuel first more s :
  cache_ok (wlCache s) ->
  preserves cache_ok (processInotifyEvents fuel first more) s.
Proof.
  apply keeps_step.
  apply step_processInotifyEvents; unfold keeps; simpl; auto.
  - intros slot s0. apply cache_ok_mark.
  - intros _ _. apply cache_ok_nil.
  - intros a b c d s0. apply cache_ok_rewrite.
  - apply keeps_traverseTree.
Qed.

End CacheInvariant.

(** ** Walks *)

Section WalkTheorems.

Context {World : Type} `{OS World}.

Implicit Types s : @State World.

Lemma fails_only_ret {A} (a : A) : fails_only (@ret World A a).
Proof. by intros s. Qed.

Lemma fails_only_bind {A B} (c : @M World A) (k : A -> @M World B) :
  fails_only c -> (forall a, fails_only (k a)) -> fails_only (bind c k).
Proof.
  intros Hc Hk s. unfold bind. specialize (Hc s).
  destruct (c s) as [a s1| | |]; try done. apply Hk.
Qed.

Lemma fails_only_get {B} (k : @State World -> @M World B) :
  (forall s0, fails_only (k s0)) -> fails_only (bind get k).
Proof. intros Hk s. apply (Hk s s). Qed.

Lemma fails_only_modify (f : @State World -> @State World) :
  fails_only (modify f).
Proof. by intros s. Qed.

Lemma fails_only_when b (c : @M World unit) :
  fails_only c -> fails_only (when b c).
Proof. intros Hc. destruct b; [done | apply fails_only_ret]. Qed.

Lemma fails_only_for_each {A} (l : list A) (body : A -> @M World unit) :
  (forall a, fails_only (body a)) -> fails_only (for_each l body).
Proof.
  intros Hb. induction l as [|a l IH]; simpl; [apply fails_only_ret|].
  apply fails_only_bind; [apply Hb | by intros _].
Qed.

Lemma fails_only_sys_inotify_add_watch fd p m :
  fails_only (sys_inotify_add_watch fd p m).
Proof.
  unfold sys_inotify_add_watch. apply fails_only_get. intros s0.
  destruct (os_inotify_add_watch fd p m (world s0)) as [[d e] w].
  apply fails_only_bind; [apply fails_only_modify | intros _].
  apply fails_only_bind; [|intros _; apply fails_only_ret].
  apply fails_only_when, fails_only_modify.
Qed.

Lemma fails_only_addWatchToCache d p : fails_only (addWatchToCache d p).
Proof.
  unfold addWatchToCache. apply fails_only_bind.
  - unfold findEmptyCacheSlot. apply fails_only_get. intros s0.
    destruct (findWatch _ _); [apply fails_only_ret|].
    destruct (os_realloc _ _); [|by intros s].
    apply fails_only_bind; [apply fails_only_modify|].
    intros _. apply fails_only_ret.
  - intros slot. apply fails_only_bind; [apply fails_only_modify|].
    intros _. apply fails_only_ret.
Qed.

Lemma fails_only_traverseTree ifd entry : fails_only (traverseTree ifd entry).
Proof.
  unfold traverseTree. destruct entry as [pathname isdir].
  destruct (negb isdir); [apply fails_only_ret|].
  apply fails_only_get. intros s0.
  apply fails_only_bind; [apply fails_only_sys_inotify_add_watch | intros d].
  destruct (d =? -1).
  - apply fails_only_get. intros s1.
    destruct (_ =? ENOENT); [apply fails_only_ret | by intros s].
  - apply fails_only_get. intros s1.
    destruct (findWatch _ _); [apply fails_only_ret|].
    apply fails_only_bind; [apply fails_only_addWatchToCache|].
    intros _. apply fails_only_ret.
Qed.

Lemma fails_only_watchSubtree fd p : fails_only (watchSubtree fd p).
Proof.
  unfold watchSubtree. apply fails_only_get. intros s0.
  destruct (os_nftw p (world s0)) as [[entries r] e].
  apply fails_only_bind; [apply fails_only_modify | intros _].
  apply fails_only_bind; [|intros _].
  { apply fails_only_for_each. intros entry. apply fails_only_traverseTree. }
  apply fails_only_when, fails_only_modify.
Qed.

Lemma fails_only_reinitialize old : fails_only (reinitialize old).
Proof.
  unfold reinitialize.
  apply fails_only_bind; [apply fails_only_when, fails_only_modify | intros _].
  apply fails_only_bind.
  { unfold sys_inotify_init. apply fails_only_get. intros s0.
    destruct (os_inotify_init (world s0)) as [fd w].
    apply fails_only_bind; [apply fails_only_modify|].
    intros _. apply fails_only_ret. }
  intros fd. destruct (fd =? -1); [by intros s|].
  apply fails_only_bind; [apply fails_only_modify | intros _].
  apply fails_only_get. intros s0.
  apply fails_only_bind; [|intros _; apply fails_only_ret].
  apply fails_only_for_each. intros [p|];
    [apply fails_only_watchSubtree | apply fails_only_ret].
Qed.

Lemma same_setup_refl s : same_setup s s.
Proof. by repeat split. Qed.

Lemma same_setup_trans s1 s2 s3 :
  same_setup s1 s2 -> same_setup s2 s3 -> same_setup s1 s3.
Proof.
  intros (? & ? & ? & ?) (? & ? & ? & ?). repeat split; congruence.
Qed.

Lemma walk_adds_refl fd s : walk_adds fd s s.
Proof.
  split; [apply same_setup_refl|]. exists []. rewrite app_nil_r.
  split; [done|]. split; [done|]. split; [done|]. intros j w Hl _. by left.
Qed.

Lemma walk_adds_trans fd s1 s2 s3 :
  walk_adds fd s1 s2 -> walk_adds fd s2 s3 -> walk_adds fd s1 s3.
Proof.
  intros (Hs1 & c1 & Ht1 & Hc1 & Hk1 & Hn1) (Hs2 & c2 & Ht2 & Hc2 & Hk2 & Hn2).
  split; [by eapply same_setup_trans|]. exists (c1 ++ c2).
  split; [by rewrite Ht2, Ht1, app_assoc|].
  split.
  { apply Forall_app. split; [done|].
    destruct Hs1 as (_ & <- & _). done. }
  split.
  - intros j w Hl Hu. by apply Hk2; [apply Hk1|].
  - intros j w Hl Hu. destruct (Hn2 j w Hl Hu) as [Hin|(p & m & Hin & Hp)].
    + destruct (Hn1 j w Hin Hu) as [Hin1|(p & m & Hin1 & Hp)]; [by left|].
      right. exists p, m. split; [|done]. apply elem_of_app. by left.
    + right. exists p, m. split; [|done]. apply elem_of_app. by right.
Qed.

Lemma walk_adds_call fd c s :
  walk_call fd (rootDirPaths s) c -> walk_adds fd s (add_call c s).
Proof.
  intros Hc. split; [by repeat split|]. exists [c].
  split; [done|]. split; [by apply Forall_singleton|]. split; [done|].
  intros j w Hl _. by left.
Qed.

Lemma walk_adds_errno fd e s : walk_adds fd s (set_errno e s).
Proof.
  split; [by repeat split|]. exists []. simpl. rewrite app_nil_r.
  split; [done|]. split; [done|]. split; [done|]. intros j w Hl _. by left.
Qed.

Lemma walk_adds_world fd w s : walk_adds fd s (set_world w s).
Proof.
  split; [by repeat split|]. exists []. simpl. rewrite app_nil_r.
  split; [done|]. split; [done|]. split; [done|]. intros j w0 Hl _. by left.
Qed.

Lemma walk_adds_traverseTree fd entry :
  run_rel (walk_adds fd) (@traverseTree World _ fd entry).
Proof.
  intros s. unfold traverseTree. destruct entry as [pathname isdir].
  destruct (negb isdir); [apply walk_adds_refl|].
  rewrite bind_get. set (mask := N.lor _ IN_ONLYDIR).
  unfold sys_inotify_add_watch. unfold bind at 1. rewrite bind_get.
  destruct (os_inotify_add_watch fd pathname mask (world s)) as [[d e] w].
  set (s1 := add_call (CInotifyAddWatch fd pathname mask) (set_world w s)).
  assert (Hmask : walk_call fd (rootDirPaths s)
                    (CInotifyAddWatch fd pathname mask)).
  { split; [done|]. subst mask. by destruct (isRootDirPath _ _). }
  assert (H1 : walk_adds fd s s1).
  { eapply walk_adds_trans; [apply walk_adds_world | by apply walk_adds_call]. }
  unfold bind, modify, when, ret, get, exit. fold s1.
  destruct (d =? -1) eqn:Hd; rewrite ?Hd; cbv beta.
  { assert (walk_adds fd s (set_errno e s1))
      by (eapply walk_adds_trans; [done | apply walk_adds_errno]).
    change (errno (set_errno e s1)) with e. by destruct (e =? ENOENT). }
  change (wlCache s1) with (wlCache s).
  destruct (findWatch (wlCache s) d) eqn:Hf; [done|].
  unfold addWatchToCache, bind, modify, ret.
  pose proof (findEmptyCacheSlot_run s1) as Hrun.
  change (wlCache s1) with (wlCache s) in Hrun.
  change (world s1) with w in Hrun.
  assert (Hgen : forall c1 slot,
            (forall j w0, wlCache s !! j = Some w0 -> c1 !! j = Some w0) ->
            (forall j w0, c1 !! j = Some w0 -> wd w0 <> -1 ->
               wlCache s !! j = Some w0) ->
            (forall w0, wlCache s !! slot = Some w0 -> wd w0 = -1) ->
            walk_adds fd s
              (set_wlCache (<[slot := mkWatch d (strncpy PATH_MAX pathname)]> c1)
                 (set_wlCache c1 s1))).
  { intros c1 slot Hkeep Hnothing Hfree.
    split; [by repeat split|].
    exists [CInotifyAddWatch fd pathname mask].
    split; [done|]. split; [by apply Forall_singleton|]. split.
    - intros j w0 Hl Hu. simpl.
      rewrite list_lookup_insert_ne; [by apply Hkeep|].
      intros <-. by apply Hu, Hfree.
    - intros j w0 Hl Hu. simpl in Hl.
      apply list_lookup_insert_Some in Hl as [(_ & <- & _)|[_ Hl]].
      + right. exists pathname, mask. split; [apply list_elem_of_singleton|];
          done.
      + left. by apply Hnothing. }
  destruct (findWatch (wlCache s) (-1)) as [j|] eqn:Hfree.
  - rewrite Hrun.
    replace s1 with (set_wlCache (wlCache s) s1) at 2 by done.
    apply Hgen; [done | done |].
    intros w0 Hl. apply findWatch_lookup in Hfree as (w1 & Hl1 & Hw).
    congruence.
  - rewrite Hrun. destruct (os_realloc _ _); [|done].
    apply Hgen.
    + intros j w0 Hl. by apply lookup_app_l_Some.
    + intros j w0 Hl Hu. apply lookup_app_Some in Hl as [Hl|[_ Hl]]; [done|].
      by apply lookup_replicate in Hl as [-> _].
    + intros w0 Hl. apply lookup_lt_Some in Hl. lia.
Qed.

Lemma walk_adds_watchSubtree fd p :
  run_rel (walk_adds fd) (@watchSubtree World _ fd p).
Proof.
  unfold watchSubtree. apply run_rel_get. intros s0.
  destruct (os_nftw p (world s0)) as [[entries r] e].
  apply run_rel_bind; [apply walk_adds_trans | | intros _].
  { intros s. by apply walk_adds_call. }
  apply run_rel_bind; [apply walk_adds_trans | | intros _].
  { apply run_rel_for_each;
      [apply walk_adds_refl | apply walk_adds_trans |].
    intros entry. apply walk_adds_traverseTree. }
  apply run_rel_when; [apply walk_adds_refl|].
  intros s. apply walk_adds_errno.
Qed.

Lemma walk_adds_finish fd evLen :
  run_rel (walk_adds fd) (@finish World _ evLen).
Proof.
  intros s. pose proof (finish_observes evLen s) as Hobs.
  unfold observes in Hobs.
  assert (Hq : forall s', quiet_step s s' -> walk_adds fd s s').
  { intros s' (Hc & Hw & Hr & Hi & Hfd & _ & calls & Ht & Hd).
    split; [by repeat split|]. exists calls. split; [done|]. split.
    - eapply Forall_impl; [exact Hd|]. intros c. by destruct c.
    - rewrite Hw. split; [done|]. intros j w Hl _. by left. }
  destruct (finish evLen s); try done; by apply Hq, Hobs.
Qed.

Lemma ends_well_intro {A} (c : @M World A)
    (R : @State World -> @State World -> Prop) s :
  fails_only c -> run_rel R c -> ends_well (c s) (R s).
Proof.
  intros Hf Hr. specialize (Hf s). specialize (Hr s). unfold ends_well.
  by destruct (c s).
Qed.

(** X11. [watchSubtree] only adds.  It returns or the process exits with
    failure; it leaves the roots and the descriptor alone; every slot in use
    keeps its entry; and an entry that appears holds the pathname of a
    directory for which [inotify_add_watch] was called on the given
    descriptor during the walk.  No call is made but [nftw],
    [inotify_add_watch] on that descriptor and diagnostics, and the watches
    are asked for directories only, with [IN_MOVE_SELF] exactly for the
    paths that are roots. *)
Theorem watchSubtree_only_adds fd p s :
  ends_well (watchSubtree fd p s) (walk_adds fd s).
Proof.
  apply (ends_well_intro (watchSubtree fd p));
    [apply fails_only_watchSubtree | apply walk_adds_watchSubtree].
Qed.

Lemma same_setup_reinitialize old :
  run_rel same_setup (@reinitialize World _ old).
Proof.
  apply run_rel_reinitialize; try done.
  - apply same_setup_trans.
Qed.

Lemma keeps_reinitialize old :
  run_rel (keeps cache_ok) (@reinitialize World _ old).
Proof.
  apply step_reinitialize; unfold keeps; simpl; auto.
  - intros _ _. apply cache_ok_nil.
  - apply keeps_traverseTree.
Qed.

Lemma reinitialize_fd old s fd s' :
  reinitialize old s = Ok fd s' -> fd <> -1.
Proof.
  unfold reinitialize. unfold bind at 1.
  destruct (when (0 <=? old) (sys_close old) s) as [[] s1| | |]; try done.
  unfold bind at 1, sys_inotify_init. rewrite bind_get.
  destruct (os_inotify_init (world s1)) as [fd0 w].
  unfold bind at 1, modify, ret at 1.
  destruct (fd0 =? -1) eqn:Hfd; [done|].
  unfold bind, ret, modify, get.
  destruct (for_each _ _ _); try done.
  intros [= <- _]. by apply Z.eqb_neq.
Qed.

(** X12. [reinitialize] rebuilds from nothing.  It returns or the process
    exits with failure; when it returns, the descriptor it gives is not
    [-1], the roots are as they were, and the cache, which owes nothing to
    the cache before, satisfies the invariants: distinct watch descriptors,
    free slots empty, paths within [PATH_MAX]. *)
Theorem reinitialize_rebuilds_cache old s :
  rebuilt s (reinitialize old s).
Proof.
  pose proof (fails_only_reinitialize old s) as Hf.
  pose proof (same_setup_reinitialize old s) as Hs.
  pose proof (keeps_reinitialize old (set_wlCache [] s)) as Hk.
  unfold rebuilt.
  destruct (reinitialize old s) as [fd s'| | |] eqn:Hrun; try done.
  split; [by eapply reinitialize_fd|].
  rewrite (reinitialize_forgets_cache _ [] _ _ _ Hrun) in Hk.
  split; [apply Hk, cache_ok_nil|].
  destruct Hs as (? & ? & ? & ?). by repeat split.
Qed.

Lemma dispatch_directory_arrived ev rest bufSize firstTry slot w evLen s :
  has (ev_mask ev) IN_ISDIR = true ->
  has (ev_mask ev) (N.lor IN_CREATE IN_MOVED_TO) = true ->
  wlCache s !! slot = Some w ->
  dispatch ev rest bufSize firstTry (Some slot) evLen s
  = (when (negb (pathnameInCache (wlCache s)
                   (snprintf (PATH_MAX + NAME_MAX)
                      (path w +:+ "/" +:+ ev_name ev))))
          (watchSubtree (inotifyFd s)
             (snprintf (PATH_MAX + NAME_MAX) (path w +:+ "/" +:+ ev_name ev))) ;;;
     ret (Fall evLen)) s.
Proof.
  intros H1 H2 Hw. unfold dispatch. rewrite H1, H2. cbn [andb].
  unfold bind at 1. rewrite (slotPath_found _ _ _ Hw). by rewrite bind_get.
Qed.

(** X13. A directory created in, or moved into, a watched directory and
    not cached yet is walked, and the step does nothing else: it returns or
    the process exits with failure, every entry in use stays in its slot, the
    roots and the descriptor are untouched, and each new entry comes from an
    [inotify_add_watch] on the current descriptor.  The step is undefined
    only when the cache is to be dumped and no log file is open. *)
Theorem created_dir_is_walked s ev rest bufSize firstTry slot w :
  directory_arrived s ev slot w ->
  directory_watched s ev w
    (processNextInotifyEvent (ev :: rest) bufSize firstTry s).
Proof.
  intros (H1 & H2 & Hig & Hwd & Hwf & Hf & Hw).
  rewrite (processNext_found _ _ _ _ _ _ Hwd Hig Hf).
  rewrite to_size_t_record by done.
  set (fullPath := snprintf (PATH_MAX + NAME_MAX)
                     (path w +:+ "/" +:+ ev_name ev)).
  assert (E : process_end (dispatch ev rest bufSize firstTry (Some slot)
                             (record_size ev)) s
              = (when (negb (pathnameInCache (wlCache s) fullPath))
                      (watchSubtree (inotifyFd s) fullPath) ;;;
                 finish (record_size ev)) s).
  { unfold process_end. unfold bind at 1.
    rewrite (dispatch_directory_arrived _ _ _ _ _ _ _ _ H1 H2 Hw).
    fold fullPath. unfold bind, ret.
    by destruct (when _ _ s). }
  split; [done|]. rewrite E.
  assert (Hw1 : ends_well
                  (when (negb (pathnameInCache (wlCache s) fullPath))
                        (watchSubtree (inotifyFd s) fullPath) s)
                  (walk_adds (inotifyFd s) s)).
  { apply (ends_well_intro
             (when (negb (pathnameInCache (wlCache s) fullPath))
                   (watchSubtree (inotifyFd s) fullPath))).
    - apply fails_only_when, fails_only_watchSubtree.
    - apply run_rel_when; [apply walk_adds_refl | apply walk_adds_watchSubtree]. }
  unfold bind, ends_well in *.
  destruct (when _ _ s) as [[] s1|n s1| |]; [|exact Hw1|done|done].
  pose proof (finish_ends (record_size ev) s1) as Hfin.
  pose proof (walk_adds_finish (inotifyFd s) (record_size ev) s1) as Hwfin.
  unfold ends_well_unless_dump.
  destruct (finish (record_size ev) s1) as [v s2|n s2|s2|].
  - by eapply walk_adds_trans.
  - split; [apply Hfin | by eapply walk_adds_trans].
  - done.
  - destruct Hw1 as [(Hc & _) _]. unfold dump_without_log in *.
    by rewrite <- Hc.
Qed.

End WalkTheorems.

(** ** The branches of the event processor *)

Section BranchTheorems.

Context {World : Type} `{OS World}.

Implicit Types s : @State World.

Lemma has_lor_r (m a b : N) :
  (N.land m (N.lor a b) =? N.lor a b)%N = true -> b <> 0%N -> has m b = true.
Proof.
  intros E Hb. apply N.eqb_eq in E. unfold has.
  assert (N.land m b = b) as ->; [|by apply negb_true_iff, N.eqb_neq].
  apply N.bits_inj. intros n.
  apply (f_equal (fun x => N.testbit x n)) in E.
  rewrite !N.land_spec, !N.lor_spec in *.
  destruct (N.testbit m n), (N.testbit a n), (N.testbit b n); done.
Qed.

Lemma not_moved_from_dir (m : N) :
  has m IN_ISDIR = false \/ has m IN_MOVED_FROM = false ->
  (N.land m (N.lor IN_MOVED_FROM IN_ISDIR) =? N.lor IN_MOVED_FROM IN_ISDIR)%N
  = false.
Proof.
  intros Hc.
  destruct (N.land m (N.lor IN_MOVED_FROM IN_ISDIR)
            =? N.lor IN_MOVED_FROM IN_ISDIR)%N eqn:E; [|done].
  destruct Hc as [Hc|Hc].
  - by rewrite (has_lor_r _ _ _ E) in Hc.
  - rewrite N.lor_comm in E. by rewrite (has_lor_r _ _ _ E) in Hc.
Qed.

Lemma process_end_fall (c : @M World flow) evLen s s1 :
  c s = Ok (Fall evLen) s1 -> process_end c s = finish evLen s1.
Proof. intros E. unfold process_end, bind. by rewrite E. Qed.

Lemma dispatch_no_directory ev rest bufSize firstTry slot evLen s :
  no_directory_record ev ->
  dispatch ev rest bufSize firstTry slot evLen s = Ok (Fall evLen) s.
Proof.
  intros (H1 & H2 & H3 & H4 & H5). unfold dispatch.
  rewrite H1, H2, H3, H4, H5. cbn [andb].
  by rewrite not_moved_from_dir by by left.
Qed.

(** X14. A record that is about no directory is skipped: with none of the
    bits [IN_ISDIR], [IN_DELETE_SELF], [IN_Q_OVERFLOW], [IN_UNMOUNT] and
    [IN_MOVE_SELF] set, as for every event on a file and for [IN_IGNORED],
    the step changes neither the cache nor the roots and calls the kernel for
    nothing but the optional diagnostics.  It is the end of the function,
    which is undefined only when the cache is to be dumped and no log file
    is open. *)
Theorem record_about_no_directory_is_skipped s ev rest bufSize firstTry :
  wf_event ev -> no_directory_record ev -> lookup_succeeds s ev ->
  skipped s ev (processNextInotifyEvent (ev :: rest) bufSize firstTry s).
Proof.
  intros Hwf Hno Hlook.
  assert (E : processNextInotifyEvent (ev :: rest) bufSize firstTry s
              = finish (record_size ev) s).
  { destruct (decide (ev_wd ev = -1)) as [Hwd|Hwd];
      [|destruct (has (ev_mask ev) IN_IGNORED) eqn:Hig].
    - rewrite processNext_unchecked by by left.
      rewrite to_size_t_record by done.
      apply process_end_fall. by apply dispatch_no_directory.
    - rewrite processNext_unchecked by by right.
      rewrite to_size_t_record by done.
      apply process_end_fall. by apply dispatch_no_directory.
    - destruct Hlook as [?|[?|[slot Hf]]]; [done | congruence |].
      rewrite (processNext_found _ _ _ _ _ _ Hwd Hig Hf).
      rewrite to_size_t_record by done.
      apply process_end_fall. by apply dispatch_no_directory. }
  split; [done|]. rewrite E. apply finish_ends.
Qed.

Lemma dispatch_deleted_self ev rest bufSize firstTry slot w evLen s :
  deleted_self ev -> wlCache s !! slot = Some w ->
  dispatch ev rest bufSize firstTry (Some slot) evLen s
  = (when (isRootDirPath (rootDirPaths s) (path w)) (zapRootDirPath (path w)) ;;;
     markSlotEmpty slot ;;; ret (Fall evLen)) s.
Proof.
  intros [H1 H2] Hw. unfold dispatch. rewrite H1, H2, andb_false_r.
  unfold bind at 1. rewrite (slotPath_found _ _ _ Hw). by rewrite bind_get.
Qed.

Lemma dispatch_unmounted ev rest bufSize firstTry slot evLen s :
  unmounted ev ->
  dispatch ev rest bufSize firstTry (Some slot) evLen s
  = Ok (Fall evLen) (set_wlCache (markCacheSlotEmpty slot (wlCache s)) s).
Proof.
  intros (H1 & H2 & H3 & H4 & H5). unfold dispatch.
  rewrite H1, H2, H3, H5, andb_false_r.
  by rewrite not_moved_from_dir by by right.
Qed.

(** X15. "Delete self" and "unmount" release the slot of the watch and
    nothing more: the slot is marked empty, no other slot changes (the
    entries below the directory stay until their own records arrive) and no
    [inotify_rm_watch] is issued.  A deleted root is zapped first, which ends
    the process with success when it was the last root; an unmounted root is
    not zapped. *)
Theorem deleted_or_unmounted_releases_slot s ev rest bufSize firstTry slot w :
  deleted_self ev \/ unmounted ev ->
  watch_cached s ev slot w ->
  slot_released s ev slot w
    (processNextInotifyEvent (ev :: rest) bufSize firstTry s).
Proof.
  intros Hkind (Hwd & Hig & Hwf & Hf & Hw).
  rewrite (processNext_found _ _ _ _ _ _ Hwd Hig Hf).
  rewrite to_size_t_record by done. split.
  - intros Hcase. apply process_end_fall.
    destruct Hkind as [Hdel|Hun].
    + destruct Hcase as [Hun|Hroot].
      * destruct Hdel as [Hd _], Hun as (_ & _ & Hd' & _). congruence.
      * rewrite (dispatch_deleted_self _ _ _ _ _ w) by done.
        by rewrite Hroot.
    + by apply dispatch_unmounted.
  - intros Hdel Hcons j Hj. cbv zeta.
    assert (isRootDirPath (rootDirPaths s) (path w) = true) as Hroot
      by (unfold isRootDirPath; by rewrite Hj).
    unfold process_end. unfold bind at 1.
    rewrite (dispatch_deleted_self _ _ _ _ _ w) by done.
    rewrite Hroot. unfold when. unfold bind at 1.
    rewrite (zapRootDirPath_run s (path w) j Hcons Hj).
    by destruct (decide _).
Qed.

Lemma zap_then_end fd p evLen s :
  os_strdup p (world s) = true ->
  subtree_dropped s fd p evLen
    (process_end (r <- zapSubtree fd p ;;
                  if r =? -1 then discardBuffer else ret (Fall evLen)) s).
Proof.
  intros Hdup.
  destruct (zapSubtree_run fd p s Hdup) as [(cnt & s1 & Hrun & Hset & _) Hex].
  exists cnt, s1. split; [done|]. split.
  - unfold process_end. unfold bind at 1. unfold bind at 1. rewrite Hrun.
    destruct (cnt =? -1); [|done].
    unfold discardBuffer, bind, ret. by destruct (reinitializeFd s1).
  - intros Hne. destruct (Hex cnt s1 Hrun Hne) as (Hc & _ & Ht & _).
    split; [done|]. by split.
Qed.

Lemma movedOut_run ev slot w evLen s :
  wlCache s !! slot = Some w ->
  process_end (movedOut ev (Some slot) evLen) s
  = process_end
      (r <- zapSubtree (inotifyFd s)
              (snprintf (PATH_MAX + NAME_MAX) (path w +:+ "/" +:+ ev_name ev)) ;;
       if r =? -1 then discardBuffer else ret (Fall evLen)) s.
Proof.
  intros Hw. unfold process_end, movedOut.
  unfold bind at 1. unfold bind at 1. rewrite (slotPath_found _ _ _ Hw).
  by rewrite bind_get.
Qed.

(** X16. A directory moved out of the monitored trees.  For a "moved from"
    record of a directory that has no partner (another record follows it, or
    it is still the last one on the second try) the engine drops the cached
    subtree of the old path [dir/name]: when no removal fails, exactly the
    entries at or under that path are freed and their kernel watches
    released, and the record alone is consumed; when a removal fails, the
    engine reinitializes.  [zapSubtree] works on a copy of the path, which
    is assumed to be made: the program does not test the result of
    [strdup]. *)
Theorem moved_out_directory_drops_subtree s ev rest firstTry slot w :
  moved_out_of_trees s ev rest firstTry slot w ->
  os_strdup (snprintf (PATH_MAX + NAME_MAX) (path w +:+ "/" +:+ ev_name ev))
            (world s) = true ->
  subtree_dropped s (inotifyFd s)
    (snprintf (PATH_MAX + NAME_MAX) (path w +:+ "/" +:+ ev_name ev))
    (record_size ev)
    (processNextInotifyEvent (ev :: rest) (bytes (ev :: rest)) firstTry s).
Proof.
  intros (Hm & (Hwd & Hig & Hwf & Hf & Hw) & Hrest) Hdup.
  rewrite (processNext_found _ _ _ _ _ _ Hwd Hig Hf).
  rewrite to_size_t_record by done.
  assert (E : process_end (dispatch ev rest (bytes (ev :: rest)) firstTry
                             (Some slot) (record_size ev)) s
              = process_end (movedOut ev (Some slot) (record_size ev)) s).
  { assert (D : dispatch ev rest (bytes (ev :: rest)) firstTry (Some slot)
                   (record_size ev) s
                 = movedOut ev (Some slot) (record_size ev) s).
    { rewrite (dispatch_moved_from _ _ _ _ _ _ _ Hm).
      destruct rest as [|nextEv rest'].
      - rewrite movedFrom_last by (simpl; lia). by rewrite Hrest.
      - rewrite movedFrom_unpaired; [done | | done].
        simpl. pose proof (record_size_pos nextEv).
        pose proof (bytes_nonneg rest'). lia. }
    unfold process_end, bind. by rewrite D. }
  rewrite E, (movedOut_run _ _ w) by done. by apply zap_then_end.
Qed.

Lemma dispatch_moved_self ev rest bufSize firstTry slot w evLen s :
  moved_self ev -> wlCache s !! slot = Some w ->
  dispatch ev rest bufSize firstTry (Some slot) evLen s
  = (if isRootDirPath (rootDirPaths s) (path w) then
       zapRootDirPath (path w) ;;;
       p <- slotPath (Some slot) ;;
       s' <- get ;;
       r <- zapSubtree (inotifyFd s') p ;;
       if r =? -1 then discardBuffer else ret (Fall evLen)
     else ret (Fall evLen)) s.
Proof.
  intros (H1 & H2 & H3 & H4 & H5 & H6) Hw. unfold dispatch.
  rewrite H1, H2, H3, H5, H6, andb_false_r.
  rewrite not_moved_from_dir by by right.
  unfold bind at 1. rewrite (slotPath_found _ _ _ Hw). by rewrite bind_get.
Qed.

(** X17. "Move self".  When the cached path of the watch is not a root the
    record is skipped.  When it is a root, the root is zapped, which ends the
    process with success if it was the last one, and otherwise the whole
    cached subtree of the root is dropped: exactly the entries at or under
    the root path are freed and their kernel watches released, or, when a
    removal fails, the engine reinitializes.  [zapSubtree] works on a copy
    of the path, which is assumed to be made: the program does not test the
    result of [strdup]. *)
Theorem moved_root_is_zapped_with_its_subtree s ev rest bufSize firstTry slot w :
  moved_self ev -> watch_cached s ev slot w ->
  os_strdup (path w) (world s) = true ->
  root_moved_away s ev w
    (processNextInotifyEvent (ev :: rest) bufSize firstTry s).
Proof.
  intros Hkind (Hwd & Hig & Hwf & Hf & Hw) Hdup.
  rewrite (processNext_found _ _ _ _ _ _ Hwd Hig Hf).
  rewrite to_size_t_record by done. split.
  - intros Hroot. apply process_end_fall.
    rewrite (dispatch_moved_self _ _ _ _ _ w) by done. by rewrite Hroot.
  - intros Hcons j Hj. cbv zeta.
    assert (isRootDirPath (rootDirPaths s) (path w) = true) as Hroot
      by (unfold isRootDirPath; by rewrite Hj).
    set (s1 := set_roots (<[j:=None]> (rootDirPaths s)) (ignoreRootDirs s + 1) s).
    assert (E : process_end (dispatch ev rest bufSize firstTry (Some slot)
                               (record_size ev)) s
                = if decide (active_roots (<[j:=None]> (rootDirPaths s)) = [])
                  then Exited EXIT_SUCCESS s1
                  else process_end
                         (r <- zapSubtree (inotifyFd s) (path w) ;;
                          if r =? -1 then discardBuffer
                          else ret (Fall (record_size ev))) s1).
    { unfold process_end. unfold bind at 1.
      rewrite (dispatch_moved_self _ _ _ _ _ w) by done.
      rewrite Hroot. unfold bind at 1.
      rewrite (zapRootDirPath_run s (path w) j Hcons Hj). fold s1.
      destruct (decide _); [done|].
      unfold bind at 1.
      rewrite (slotPath_found slot w s1) by done.
      rewrite bind_get. done. }
    rewrite E. destruct (decide _); [done|]. by apply zap_then_end.
Qed.

End BranchTheorems.

(** ** The consistency check and the dump *)

Section CheckTheorems.

Context {World : Type} `{OS World}.

Implicit Types s : @State World.

Lemma sys_lstat_run p s :
  exists s1, sys_lstat p s = Ok (fst (os_lstat p (world s))) s1 /\
    quiet_step s s1 /\ trace s1 = trace s ++ [CLstat p].
Proof.
  pose proof (sys_lstat_observes p s) as Hobs. revert Hobs.
  unfold observes, sys_lstat, bind, get, modify, when, ret.
  destruct (os_lstat p (world s)) as [[b|] e]; simpl; intros [_ Hq];
    by eexists.
Qed.

Lemma not_a_directory_quiet s s' w :
  quiet_step s s' -> not_a_directory s' w = not_a_directory s w.
Proof.
  intros (_ & _ & _ & _ & _ & Hw & _). unfold not_a_directory. by rewrite Hw.
Qed.

Lemma check_loop n : forall k s,
  (k + n = length (wlCache s))%nat ->
  match for_each (seq k n) checkSlot s with
  | Ok _ s' =>
      quiet_step s s' /\
      trace s' = trace s ++ map CLstat (active_paths (drop k (wlCache s))) /\
      forall w, w ∈ drop k (wlCache s) -> not_a_directory s w = false
  | Exited m s' =>
      m = EXIT_FAILURE /\ quiet_step s s' /\
      exists w, w ∈ drop k (wlCache s) /\ not_a_directory s w = true
  | Aborted _ => False
  | Undefined => False
  end.
Proof.
  induction n as [|n IH]; intros k s Hlen; simpl.
  - rewrite drop_ge by lia. unfold ret, active_paths. simpl.
    split; [apply quiet_step_refl|]. split; [by rewrite app_nil_r|].
    intros w Hin. by apply elem_of_nil in Hin.
  - destruct (wlCache s !! k) as [w|] eqn:Hk;
      [|apply lookup_ge_None in Hk; lia].
    rewrite (drop_S _ _ _ Hk). unfold bind at 1, checkSlot.
    rewrite bind_get, Hk.
    assert (Hrest : forall s1 calls,
              quiet_step s s1 -> trace s1 = trace s ++ calls ->
              not_a_directory s w = false ->
              (map CLstat (active_paths [w]) = calls) ->
              match for_each (seq (S k) n) checkSlot s1 with
              | Ok _ s' =>
                  quiet_step s s' /\
                  trace s' = trace s
                    ++ map CLstat (active_paths (w :: drop (S k) (wlCache s))) /\
                  forall w0, w0 ∈ w :: drop (S k) (wlCache s) ->
                             not_a_directory s w0 = false
              | Exited m s' =>
                  m = EXIT_FAILURE /\ quiet_step s s' /\
                  exists w0, w0 ∈ w :: drop (S k) (wlCache s) /\
                             not_a_directory s w0 = true
              | Aborted _ => False
              | Undefined => False
              end).
    { intros s1 calls Hq Ht Hgood Hcalls.
      assert (Hc : wlCache s1 = wlCache s) by apply Hq.
      specialize (IH (S k) s1). rewrite Hc in IH.
      destruct (for_each (seq (S k) n) checkSlot s1) as [[] s'|m s'| |];
        try (apply IH; lia).
      - destruct IH as (Hq' & Ht' & Hall); [lia|].
        split; [by eapply quiet_step_trans|]. split.
        + rewrite Ht', Ht, <- Hcalls, <- app_assoc. f_equal.
          rewrite <- map_app. f_equal. unfold active_paths.
          rewrite <- map_app. f_equal.
          change (w :: drop (S k) (wlCache s))
            with ([w] ++ drop (S k) (wlCache s)).
          by rewrite filter_app.
        + intros w0 Hin. apply elem_of_cons in Hin as [->|Hin]; [done|].
          rewrite <- (not_a_directory_quiet s s1) by done. by apply Hall.
      - destruct IH as (-> & Hq' & w0 & Hin & Hbad); [lia|].
        split; [done|]. split; [by eapply quiet_step_trans|].
        exists w0. split; [by right|].
        by rewrite <- (not_a_directory_quiet s s1). }
    destruct (0 <=? wd w) eqn:Hact.
    + destruct (sys_lstat_run (path w) s) as (s1 & Hrun & Hq & Ht).
      unfold bind at 1. rewrite Hrun.
      assert (Hcalls : map CLstat (active_paths [w]) = [CLstat (path w)]).
      { unfold active_paths. rewrite filter_cons_True by done. done. }
      destruct (fst (os_lstat (path w) (world s))) as [[|]|] eqn:Hst.
      * apply (Hrest s1 [CLstat (path w)]); try done.
        unfold not_a_directory. by rewrite Hact, Hst.
      * unfold exit. split; [done|]. split; [done|].
        exists w. split; [by left|]. unfold not_a_directory.
        by rewrite Hact, Hst.
      * apply (Hrest s1 [CLstat (path w)]); try done.
        unfold not_a_directory. by rewrite Hact, Hst.
    + unfold ret. apply (Hrest s []).
      * apply quiet_step_refl.
      * by rewrite app_nil_r.
      * unfold not_a_directory. by rewrite Hact.
      * unfold active_paths. rewrite filter_cons_False; [done|].
        unfold active. by rewrite Hact.
Qed.

(** X18. [checkCacheConsistency] only observes, and it ends the process
    with failure exactly when [lstat] finds an entry in use whose path exists
    and is not a directory; a path that no longer exists is tolerated.  When
    it returns, [lstat] has been called once for each slot in use, in slot
    order. *)
Theorem checkCacheConsistency_fails_on_non_directory s :
  consistency_checked s (checkCacheConsistency s).
Proof.
  unfold checkCacheConsistency. rewrite bind_get.
  pose proof (check_loop (length (wlCache s)) 0 s eq_refl) as Hloop.
  rewrite drop_0 in Hloop. unfold consistency_checked.
  by destruct (for_each _ _ s).
Qed.

Lemma cache_lines_spec (cache : list watch) : forall k j d p,
  (j, d, p) ∈ cache_lines k cache <->
  (k <= j)%nat /\ cache !! (j - k)%nat = Some (mkWatch d p) /\ 0 <= d.
Proof.
  induction cache as [|w rest IH]; intros k j d p; simpl.
  - split; [intros Hin; by apply elem_of_nil in Hin | by intros (_ & ? & _)].
  - assert (Hrec : (j, d, p) ∈ cache_lines (S k) rest <->
              (k < j)%nat /\ (w :: rest) !! (j - k)%nat = Some (mkWatch d p)
              /\ 0 <= d).
    { rewrite IH. split.
      - intros (Hk & Hl & Hd). split; [lia|]. split; [|done].
        by replace (j - k)%nat with (S (j - S k)) by lia.
      - intros (Hk & Hl & Hd). split; [lia|]. split; [|done].
        by replace (j - k)%nat with (S (j - S k)) in Hl by lia. }
    destruct (Z.leb_spec 0 (wd w)) as [Hact|Hfree].
    + rewrite elem_of_cons, Hrec. split.
      * intros [[= -> -> ->]|(Hk & Hl & Hd)].
        -- rewrite Nat.sub_diag. by destruct w.
        -- split; [lia | done].
      * intros (Hk & Hl & Hd). destruct (decide (j = k)) as [->|Hne].
        -- left. rewrite Nat.sub_diag in Hl. simpl in Hl.
           by injection Hl as ->.
        -- right. split; [lia | done].
    + rewrite Hrec. split.
      * intros (Hk & Hl & Hd). split; [lia | done].
      * intros (Hk & Hl & Hd). destruct (decide (j = k)) as [->|Hne].
        -- rewrite Nat.sub_diag in Hl. simpl in Hl. injection Hl as ->.
           simpl in Hfree. lia.
        -- split; [lia | done].
Qed.

Lemma cache_lines_paths (cache : list watch) (k : nat) :
  map snd (cache_lines k cache) = active_paths cache.
Proof.
  revert k; unfold active_paths.
  induction cache as [|w rest IH]; intros k; simpl; [done|].
  destruct (0 <=? wd w) eqn:Hact.
  - rewrite filter_cons_True by done. simpl. by rewrite IH.
  - rewrite filter_cons_False; [apply IH|]. unfold active. by rewrite Hact.
Qed.

(** X19. With the log file open, [dumpCacheToLog] writes one line for each
    slot in use, with the index of the slot, its watch descriptor and its
    path, in slot order, and the total it reports is the number of these
    lines; free slots are left out, and nothing else changes.  Without a log
    file the dump is undefined: it writes to a null stream. *)
Theorem dumpCacheToLog_lists_slots_in_use s :
  if logfp (config s) then
    exists lines,
      dumpCacheToLog s
      = Ok tt (add_call (CDumpCache lines (Z.of_nat (length lines))) s) /\
      dump_lists_cache (wlCache s) lines /\
      length lines = length (active_paths (wlCache s))
  else dumpCacheToLog s = Undefined.
Proof.
  unfold dumpCacheToLog. rewrite bind_get.
  destruct (logfp (config s)); [|done].
  exists (cache_lines 0 (wlCache s)). split; [done|]. split; [split|].
  - intros j d p. rewrite cache_lines_spec, Nat.sub_0_r.
    split; [by intros (_ & ? & ?) | intros [? ?]; split; [lia | done]].
  - apply cache_lines_paths.
  - by rewrite <- (cache_lines_paths _ 0), length_map.
Qed.

End CheckTheorems.

(** ** Zapping a root twice, and the reader loop *)

Section LoopTheorems.

Context {World : Type} `{OS World}.

Implicit Types s : @State World.

Lemma active_roots_lookup (roots : list (option string)) (i : nat) (p : string) :
  roots !! i = Some (Some p) -> p ∈ active_roots roots.
Proof.
  revert i; induction roots as [|[q|] roots IH]; intros [|i]; simpl; try done.
  - intros [= ->]. by left.
  - intros Hl. right. by eapply IH.
  - intros Hl. by eapply IH.
Qed.

Lemma active_roots_unique (roots : list (option string)) (i j : nat) (p : string) :
  NoDup (active_roots roots) ->
  roots !! i = Some (Some p) -> roots !! j = Some (Some p) -> i = j.
Proof.
  revert i j; induction roots as [|[q|] roots IH]; intros i j Hnd Hi Hj;
    simpl in *; [done| |].
  - apply NoDup_cons in Hnd as [Hq Hnd].
    destruct i as [|i], j as [|j]; simpl in *; try done.
    + injection Hi as ->. destruct Hq. by eapply active_roots_lookup.
    + injection Hj as ->. destruct Hq. by eapply active_roots_lookup.
    + f_equal. by apply IH.
  - destruct i as [|i], j as [|j]; simpl in *; try done.
    f_equal. by apply IH.
Qed.

(** X20. A root is zapped once.  When the strings of the roots that are
    left are pairwise distinct, a path that was zapped is no longer a root,
    and zapping it again ends the process with failure. *)
Theorem zapRootDirPath_twice_fails s p s' :
  NoDup (active_roots (rootDirPaths s)) ->
  zapRootDirPath p s = Ok tt s' ->
  isRootDirPath (rootDirPaths s') p = false /\
  zapRootDirPath p s' = Exited EXIT_FAILURE s'.
Proof.
  intros Hnd Hrun. unfold zapRootDirPath in Hrun. rewrite bind_get in Hrun.
  destruct (findRootDirPath (rootDirPaths s) p) as [j|] eqn:Hf; [|done].
  unfold bind, modify, get in Hrun.
  destruct (_ =? _) in Hrun; [done|]. injection Hrun as <-. simpl.
  assert (Hno : findRootDirPath (<[j:=None]> (rootDirPaths s)) p = None).
  { destruct (findRootDirPath (<[j:=None]> (rootDirPaths s)) p) as [i|] eqn:Hi;
      [|done].
    apply findRootDirPath_lookup in Hi, Hf.
    destruct (decide (i = j)) as [->|Hne].
    - apply lookup_lt_Some in Hf. by rewrite list_lookup_insert_eq in Hi.
    - rewrite list_lookup_insert_ne in Hi by done.
      destruct Hne. by apply (active_roots_unique _ _ _ p Hnd). }
  split.
  - unfold isRootDirPath. by rewrite Hno.
  - unfold zapRootDirPath. rewrite bind_get. simpl. by rewrite Hno.
Qed.

Lemma advance_bytes (consumed rest : list inotify_event) :
  advance (bytes consumed) (consumed ++ rest) = Some rest.
Proof.
  induction consumed as [|e consumed IH]; simpl.
  - by destruct rest.
  - pose proof (record_size_pos e). pose proof (bytes_nonneg consumed).
    assert ((record_size e + bytes consumed =? 0) = false) as ->
      by (apply Z.eqb_neq; lia).
    assert ((record_size e + bytes consumed <? record_size e) = false) as ->
      by (apply Z.ltb_ge; lia).
    by replace (record_size e + bytes consumed - record_size e)
      with (bytes consumed) by lia.
Qed.

(** X21. The reader loop goes through the buffer in order.  After a step
    that consumed some records the loop ends when no byte is left, and
    otherwise goes on with the records that follow the consumed ones, as a
    first try, on the state the step left. *)
Theorem events_loop_resumes_after_consumed s s1 buf consumed rest numLeft
    firstTry more fuel :
  step_consumed s buf consumed rest numLeft firstTry s1 ->
  events_loop (S fuel) buf numLeft firstTry more s
  = if numLeft - bytes consumed <=? 0 then Ok Finished s1
    else events_loop fuel rest (numLeft - bytes consumed) true more s1.
Proof.
  intros (-> & Hne & Hpos & Hsmall & Hstep). rewrite events_loop_step.
  assert ((numLeft <=? 0) = false) as -> by (apply Z.leb_gt; lia).
  unfold bind. rewrite Hstep.
  assert (0 < bytes consumed).
  { destruct consumed as [|e c]; [done|]. simpl.
    pose proof (record_size_pos e). pose proof (bytes_nonneg c). lia. }
  rewrite to_int_small by lia.
  assert ((0 <? bytes consumed) = true) as -> by (apply Z.ltb_lt; lia).
  destruct (numLeft - bytes consumed <=? 0); [done|].
  by rewrite advance_bytes.
Qed.

End LoopTheorems.

(** ** The roots of the command line *)

Section StartupTheorems.

Context {World : Type} `{OS World} `{OSStartup World}.

Implicit Types s : @State World.

Lemma same_object_eq (a b : N * N) : same_object a b = true <-> a = b.
Proof.
  destruct a as [a1 a2], b as [b1 b2]. unfold same_object. simpl.
  rewrite andb_true_iff, !N.eqb_eq. split; [by intros [-> ->] | by intros [= -> ->]].
Qed.

Lemma existsb_same_object (id : N * N) (l : list (N * N)) :
  existsb (same_object id) l = true <-> id ∈ l.
Proof.
  rewrite existsb_exists. split.
  - intros (x & Hin & E). apply same_object_eq in E as ->.
    by apply list_elem_of_In.
  - intros Hin. exists id. split; [by apply list_elem_of_In|].
    by apply same_object_eq.
Qed.

Lemma active_roots_Some (l : list string) : active_roots (map Some l) = l.
Proof. induction l as [|p l IH]; simpl; [done | by rewrite IH]. Qed.

Lemma check_roots_run (argv : list string) : forall n s,
  0 <= n -> n + Z.of_nat (length argv) < 2 ^ 31 ->
  match check_roots argv n s with
  | Ok m s' =>
      m = n + Z.of_nat (length argv) /\ quiet_step s s' /\
      Forall (fun p => fst (os_lstat p (world s)) = Some true) argv
  | Exited c s' =>
      c = EXIT_FAILURE /\
      ~ Forall (fun p => fst (os_lstat p (world s)) = Some true) argv
  | Aborted _ => False
  | Undefined => False
  end.
Proof.
  induction argv as [|p rest IH]; intros n s Hn Hlen; simpl.
  - split; [lia|]. split; [apply quiet_step_refl | done].
  - destruct (sys_lstat_run p s) as (s1 & Hrun & Hq & _).
    unfold bind. rewrite Hrun.
    destruct (fst (os_lstat p (world s))) as [[|]|] eqn:Hst.
    + assert ((2 ^ 31 <=? n + 1) = false) as ->
        by (apply Z.leb_gt; simpl in Hlen; lia).
      specialize (IH (n + 1) s1). simpl in Hlen.
      assert (Hw : world s1 = world s) by apply Hq.
      rewrite Hw in IH.
      destruct (check_roots rest (n + 1) s1) as [m s'|c s'| |];
        try (apply IH; lia).
      * destruct IH as (-> & Hq' & Hall); [lia | lia |].
        split; [lia|]. split; [by eapply quiet_step_trans|].
        by apply Forall_cons.
      * destruct IH as (-> & Hno); [lia | lia |].
        split; [done|]. intros Hall. apply Forall_cons in Hall as [_ Hall].
        by apply Hno.
    + unfold exit. split; [done|]. intros Hall.
      apply Forall_cons in Hall as [Hp _]. congruence.
    + unfold exit. split; [done|]. intros Hall.
      apply Forall_cons in Hall as [Hp _]. congruence.
Qed.

Lemma copy_roots_run (rest : list string) : forall done_ s w0,
  world s = w0 ->
  Forall (fun p => fst (os_lstat p w0) = Some true) rest ->
  Forall (fun p => os_strdup p w0 = true) rest ->
  rootDirPaths s = map Some done_ ++ replicate (length rest) None ->
  NoDup (map (fun p => os_stat_id p w0) done_) ->
  match copy_roots true (length done_) rest
          (map (fun p => os_stat_id p w0) done_) s with
  | Ok _ s' =>
      rootDirPaths s' = map Some (done_ ++ rest) /\
      NoDup (map (fun p => os_stat_id p w0) (done_ ++ rest)) /\
      ignoreRootDirs s' = ignoreRootDirs s /\
      wlCache s' = wlCache s /\ world s' = world s /\
      inotifyFd s' = inotifyFd s /\ config s' = config s
  | Exited c _ =>
      c = EXIT_FAILURE /\
      ~ NoDup (map (fun p => os_stat_id p w0) (done_ ++ rest))
  | Aborted _ => False
  | Undefined => False
  end.
Proof.
  induction rest as [|a rest IH]; intros done_ s w0 Hw Hdirs Hmem Hroots Hnd;
    simpl.
  - rewrite app_nil_r. simpl in Hroots. rewrite app_nil_r in Hroots. done.
  - apply Forall_cons in Hdirs as [Ha Hdirs].
    apply Forall_cons in Hmem as [Hma Hmem].
    rewrite bind_get, Hw, Hma. unfold bind at 1, modify.
    set (s1 := set_roots _ _ s).
    destruct (sys_lstat_run a s1) as (s2 & Hrun & Hq & _).
    unfold bind at 1. rewrite Hrun.
    change (world s1) with (world s). rewrite Hw, Ha. rewrite bind_get.
    assert (Hw2 : world s2 = w0).
    { destruct Hq as (_ & _ & _ & _ & _ & -> & _). done. }
    rewrite Hw2.
    destruct (existsb (same_object (os_stat_id a w0))
                (map (fun p => os_stat_id p w0) done_)) eqn:Hdup.
    + unfold exit. split; [done|]. intros Hall.
      rewrite map_app in Hall. apply NoDup_app in Hall as (_ & Hdisj & _).
      apply existsb_same_object in Hdup.
      apply (Hdisj _ Hdup). simpl. by left.
    + assert (Hfresh : os_stat_id a w0 ∉ map (fun p => os_stat_id p w0) done_).
      { intros Hin. apply existsb_same_object in Hin. congruence. }
      assert (Hroots2 : rootDirPaths s2
                = map Some (done_ ++ [a]) ++ replicate (length rest) None).
      { destruct Hq as (_ & _ & -> & _). subst s1. simpl. rewrite Hroots.
        rewrite map_app, <- app_assoc. simpl.
        replace (length done_) with (length (map Some done_) + 0)%nat
          by (rewrite length_map; lia).
        by rewrite insert_app_r. }
      assert (Hnd2 : NoDup (map (fun p => os_stat_id p w0) (done_ ++ [a]))).
      { rewrite map_app. apply NoDup_app. split; [done|].
        split; [|apply NoDup_singleton].
        intros x Hx Hx'. apply list_elem_of_singleton in Hx' as ->. done. }
      specialize (IH (done_ ++ [a]) s2 w0 Hw2 Hdirs Hmem Hroots2 Hnd2).
      replace (length (done_ ++ [a])) with (S (length done_)) in IH
        by (rewrite length_app; simpl; lia).
      replace (map (fun p => os_stat_id p w0) (done_ ++ [a]))
        with (map (fun p => os_stat_id p w0) done_ ++ [os_stat_id a w0]) in IH
        by by rewrite map_app.
      replace ((done_ ++ [a]) ++ rest) with (done_ ++ a :: rest) in IH
        by by rewrite <- app_assoc.
      destruct (copy_roots true (S (length done_)) rest _ s2); try done.
      destruct IH as (Hr & Hn & Hi & Hc & Hwd & Hf & Hcf).
      destruct Hq as (Q1 & Q2 & Q3 & Q4 & Q5 & Q6 & _).
      split; [done|]. split; [done|].
      subst s1. simpl in *. repeat split; congruence.
Qed.

(** X22. [copyRootDirPaths].  With fewer than [2^31] arguments and enough
    memory, it returns exactly when every argument is a directory and no two
    arguments are the same file system object (same inode on the same
    device); otherwise the process exits with failure.  When it returns, the
    roots are the arguments in order, none of them zapped, their strings
    pairwise distinct, and [ignoreRootDirs] is zero. *)
Theorem copyRootDirPaths_accepts_distinct_directories s argv :
  startup_resources s argv ->
  roots_copied s argv (copyRootDirPaths argv s).
Proof.
  intros (Hlen & Hm1 & Hm2 & Hstr). unfold copyRootDirPaths, roots_copied.
  pose proof (check_roots_run argv 0 s (Z.le_refl 0)) as Hcheck.
  unfold bind at 1.
  destruct (check_roots argv 0 s) as [n s1|c s1| |]; try (apply Hcheck; lia).
  2:{ destruct Hcheck as [-> Hno]; [lia|]. split; [done|].
      intros [Hall _]. by apply Hno. }
  destruct Hcheck as (-> & Hq & Hdirs); [lia|].
  assert (Hw1 : world s1 = world s) by apply Hq.
  rewrite bind_get, Hw1. rewrite Z.add_0_l, Nat2Z.id, Hm1.
  unfold bind at 1, modify. rewrite bind_get.
  change (world (set_roots (replicate (length argv) None)
                   (ignoreRootDirs s1) s1)) with (world s1).
  rewrite Hw1, Hm2, firstn_all.
  set (s2 := set_roots _ _ s1).
  pose proof (copy_roots_run argv [] s2 (world s) Hw1 Hdirs Hstr) as Hcopy.
  simpl in Hcopy. unfold bind at 1.
  destruct (copy_roots true 0 argv [] s2) as [[] s3|c s3| |];
    try (apply Hcopy; [done | constructor]).
  - destruct Hcopy as (Hr & Hn & Hi & Hc & Hw & Hf & Hcf);
      [done | constructor |].
    destruct Hq as (Q1 & Q2 & Q3 & Q4 & Q5 & Q6 & _).
    unfold modify. simpl. rewrite Hr.
    split; [done|]. split; [done|]. split; [done|].
    split.
    { unfold roots_consistent. simpl.
      rewrite active_roots_Some, length_map. split; [lia | done]. }
    split.
    { rewrite active_roots_Some. by eapply NoDup_fmap_1. }
    subst s2. simpl in *. repeat split; congruence.
  - destruct Hcopy as [-> Hno]; [done | constructor |].
    split; [done|]. intros [_ Hnd]. by apply Hno.
Qed.

End StartupTheorems.

(** ** A rename that is never completed *)

Section TimeoutTheorems.

Context {World : Type} `{OS World}.

Implicit Types s : @State World.

Lemma supplementaryRead_interrupted buf numRead s :
  supplementaryRead buf numRead (ReadError EINTR) s
  = Ok (buf, numRead - 1)
       (set_errno EINTR
          (add_call (CRead (inotifyFd s) (INOTIFY_READ_BUF_LEN - numRead)) s)).
Proof. reflexivity. Qed.

(** X23. A "moved from" record of a directory that stays alone.  When the
    record is the only one in the buffer and the supplementary read is
    interrupted by the alarm without bringing anything, the loop processes
    the record a second time, now as a move out of the monitored trees, and
    ends.  (The interrupted read lowers the byte count by one, which does
    not change the outcome.) *)
Theorem hanging_move_times_out s ev slot w fuel :
  moved_out_of_trees s ev [] false slot w -> kernel_record ev ->
  events_loop (S (S fuel)) [ev] (record_size ev) true [] s
  = (process_end (movedOut ev (Some slot) (record_size ev)) ;;; ret Finished)
      (read_interrupted s ev).
Proof.
  intros (Hm & (Hwd & Hig & Hwf & Hf & Hw) & _) Hk.
  assert (Hsize : 16 <= record_size ev <= 272).
  { unfold kernel_record, NAME_MAX in Hk.
    unfold record_size, SIZEOF_INOTIFY_EVENT. lia. }
  assert (Hstep : forall b ft s0,
            wlCache s0 = wlCache s -> b <= record_size ev ->
            processNextInotifyEvent [ev] b ft s0
            = if ft then Ok (to_size_t (-1)) s0
              else process_end (movedOut ev (Some slot) (record_size ev)) s0).
  { intros b ft s0 Hc Hb.
    rewrite (processNext_found _ _ _ _ slot) by (done || by rewrite Hc).
    rewrite to_size_t_record by done.
    unfold process_end, bind.
    rewrite (dispatch_moved_from _ _ _ _ _ _ _ Hm), movedFrom_last by done.
    by destruct ft. }
  rewrite events_loop_step.
  assert ((record_size ev <=? 0) = false) as -> by (apply Z.leb_gt; lia).
  unfold bind at 1. rewrite Hstep by (done || rewrite to_int_small; lia).
  rewrite to_int_minus_one. change (0 <? -1) with false. cbv iota.
  unfold bind at 1. simpl next_read. rewrite supplementaryRead_interrupted.
  fold (read_interrupted s ev). simpl fst. simpl snd. simpl tail.
  rewrite events_loop_step.
  assert ((record_size ev - 1 <=? 0) = false) as -> by (apply Z.leb_gt; lia).
  unfold bind.
  rewrite Hstep by (done || rewrite to_int_small; lia).
  pose proof (returns_process_end
                (movedOut ev (Some slot) (record_size ev))
                (fun v => v = record_size ev \/
                          v = to_size_t INOTIFY_READ_BUF_LEN)
                (returns_movedOut ev (Some slot) (record_size ev))
                (read_interrupted s ev)) as Hret.
  destruct (process_end (movedOut ev (Some slot) (record_size ev))
              (read_interrupted s ev)) as [v s2| | |]; try done.
  destruct (Hret v s2 eq_refl) as [-> | ->].
  - rewrite to_int_small by lia.
    assert ((0 <? record_size ev) = true) as -> by (apply Z.ltb_lt; lia).
    by assert ((record_size ev - 1 - record_size ev <=? 0) = true) as ->
      by (apply Z.leb_le; lia).
  - change (to_int (to_size_t INOTIFY_READ_BUF_LEN)) with INOTIFY_READ_BUF_LEN.
    change (0 <? INOTIFY_READ_BUF_LEN) with true. cbv iota.
    by assert ((record_size ev - 1 - INOTIFY_READ_BUF_LEN <=? 0) = true) as ->
      by (apply Z.leb_le;
          assert (INOTIFY_READ_BUF_LEN = 27200) by reflexivity; lia).
Qed.

End TimeoutTheorems.

(** ** One entry of a walk *)

Section EntryTheorems.

Context {World : Type} `{OS World}.

Implicit Types s : @State World.

Lemma traverseTree_directory ifd p s :
  traverseTree ifd (p, true) s
  = let mask := watch_flags (isRootDirPath (rootDirPaths s) p) in
    let '(d, e, w) := os_inotify_add_watch ifd p mask (world s) in
    let s0 := add_call (CInotifyAddWatch ifd p mask) (set_world w s) in
    if d =? -1 then
      if e =? ENOENT then Ok tt (set_errno e s0)
      else Exited EXIT_FAILURE (set_errno e s0)
    else
      match findWatch (wlCache s) d with
      | Some _ => Ok tt s0
      | None => (addWatchToCache d p ;;; ret tt) s0
      end.
Proof.
  cbv zeta. unfold traverseTree. cbn [negb]. rewrite bind_get. cbv zeta.
  assert (N.lor (if isRootDirPath (rootDirPaths s) p
                 then N.lor (N.lor (N.lor (N.lor IN_CREATE IN_MOVED_FROM)
                                      IN_MOVED_TO) IN_DELETE_SELF) IN_MOVE_SELF
                 else N.lor (N.lor (N.lor IN_CREATE IN_MOVED_FROM)
                               IN_MOVED_TO) IN_DELETE_SELF) IN_ONLYDIR
          = watch_flags (isRootDirPath (rootDirPaths s) p)) as ->
    by by destruct (isRootDirPath _ _).
  unfold sys_inotify_add_watch, bind, get, modify, when, ret, exit.
  destruct (os_inotify_add_watch ifd p _ (world s)) as [[d e] w].
  cbv beta iota.
  destruct (d =? -1) eqn:Hd; rewrite ?Hd; cbv beta iota;
    cbn [errno set_errno wlCache add_call set_world];
    [by destruct (e =? ENOENT)|].
  by destruct (findWatch (wlCache s) d).
Qed.

(** X24. [traverseTree] on one entry.  A file that is not a directory is
    ignored.  For a directory [inotify_add_watch] is called, with the flags
    of a root or of an inner directory; if the directory has vanished in the
    meantime ([ENOENT]) the entry is skipped and the walk continues, any
    other failure ends the process with failure; a watch descriptor that is
    in the cache already leaves the cache as it is; a new one is added to
    the cache as [addWatchToCache] does. *)
Theorem traverseTree_skips_vanished_directories ifd p s :
  entry_visited s ifd p.
Proof.
  unfold entry_visited. cbv zeta. split; [done|].
  rewrite traverseTree_directory. cbv zeta.
  set (mask := watch_flags (isRootDirPath (rootDirPaths s) p)).
  destruct (os_inotify_add_watch ifd p mask (world s)) as [[d e] w].
  cbn [fst snd].
  set (s0 := add_call (CInotifyAddWatch ifd p mask) (set_world w s)).
  destruct (Z.eqb_spec d (-1)) as [->|Hd].
  - exists (set_errno e s0).
    split; [by repeat split|]. split; [done|]. split; [done|].
    split; [by intros _ -> |]. split; [|done].
    intros _ Hne. apply Z.eqb_neq in Hne. by rewrite Hne.
  - exists s0. split; [by repeat split|]. split; [done|]. split; [done|].
    split; [done|]. split; [done|]. split.
    + intros _ [slot ->]. done.
    + intros _ Hnew. rewrite Hnew. split; [done|].
      by apply addWatchToCache_run.
Qed.

End EntryTheorems.

(** ** Reinitialization: cache misses and queue overflow *)

Section ReinitTheorems.

Context {World : Type} `{OS World}.

Implicit Types s : @State World.

Lemma nftw_paths_app (a b : list call) :
  nftw_paths (a ++ b) = nftw_paths a ++ nftw_paths b.
Proof.
  induction a as [|c a IH]; [done|]. destruct c; simpl; by rewrite ?IH.
Qed.

Lemma no_walk_traverseTree ifd entry :
  run_rel no_walk (@traverseTree World _ ifd entry).
Proof.
  intros s. destruct entry as [p [|]]; [|done].
  rewrite traverseTree_directory. cbv zeta.
  destruct (os_inotify_add_watch _ _ _ _) as [[d e] w].
  assert (Hcall : forall s1, no_walk s1 (add_call (CInotifyAddWatch ifd p
            (watch_flags (isRootDirPath (rootDirPaths s) p))) (set_world w s1))).
  { intros s1. unfold no_walk. simpl. rewrite nftw_paths_app. simpl.
    by rewrite app_nil_r. }
  destruct (d =? -1).
  { destruct (e =? ENOENT); apply Hcall. }
  destruct (findWatch _ _); [apply Hcall|].
  set (s0 := add_call _ _).
  assert (Hadd : run_rel no_walk (addWatchToCache d p ;;; ret tt)).
  { apply run_rel_bind; [unfold no_walk; congruence | |intros _; by intros ?].
    apply run_rel_addWatchToCache; try done.
    unfold no_walk; congruence. }
  specialize (Hadd s0). specialize (Hcall s). fold s0 in Hcall.
  unfold no_walk in *.
  destruct ((addWatchToCache d p;;; ret tt) s0); try done; congruence.
Qed.

Lemma watchSubtree_walked fd p s v s' :
  watchSubtree fd p s = Ok v s' ->
  nftw_paths (trace s') = nftw_paths (trace s) ++ [p].
Proof.
  unfold watchSubtree. rewrite bind_get.
  destruct (os_nftw p (world s)) as [[entries r] e].
  unfold bind at 1, modify.
  set (s1 := add_call (CNftw p) s).
  assert (Hw : run_rel no_walk (for_each entries (traverseTree fd))).
  { apply run_rel_for_each; [done | unfold no_walk; congruence |].
    intros entry. apply no_walk_traverseTree. }
  specialize (Hw s1). unfold bind.
  destruct (for_each entries (traverseTree fd) s1) as [[] s2| | |]; try done.
  assert (E1 : nftw_paths (trace s1) = nftw_paths (trace s) ++ [p]).
  { subst s1. simpl. by rewrite nftw_paths_app. }
  unfold no_walk in Hw. rewrite <- E1, <- Hw.
  destruct (r =? -1); simpl; by intros [= _ <-].
Qed.

Lemma for_each_walked fd ps : forall s v s',
  for_each ps (watchSubtree fd) s = Ok v s' ->
  nftw_paths (trace s') = nftw_paths (trace s) ++ ps.
Proof.
  induction ps as [|p ps IH]; intros s v s'; simpl.
  - intros [= _ <-]. by rewrite app_nil_r.
  - unfold bind. destruct (watchSubtree fd p s) as [[] s1| | |] eqn:E1; try done.
    intros E2. rewrite (IH _ _ _ E2), (watchSubtree_walked _ _ _ _ _ E1).
    by rewrite <- app_assoc.
Qed.


Lemma closed_setup s :
  same_setup s (closed s) /\ wlCache (closed s) = wlCache s /\
  trace (closed s)
  = trace s ++ (if 0 <=? inotifyFd s then [CClose (inotifyFd s)] else []).
Proof.
  unfold closed. destruct (0 <=? inotifyFd s); simpl.
  - by repeat split.
  - rewrite app_nil_r. by repeat split.
Qed.

(** [reinitializeFd] step by step. *)
Lemma reinitializeFd_run s :
  reinitializeFd s
  = if new_instance s =? -1 then Exited EXIT_FAILURE (reopened s)
    else (for_each (active_roots (rootDirPaths s))
                   (watchSubtree (new_instance s)) ;;;
          modify (set_inotifyFd (new_instance s)))
           (set_wlCache [] (reopened s)).
Proof.
  unfold reinitializeFd, reinitialize. rewrite bind_get.
  unfold new_instance, reopened, closed.
  unfold bind at 1. unfold bind at 1.
  assert (Hc : when (0 <=? inotifyFd s) (sys_close (inotifyFd s)) s
               = Ok tt (if 0 <=? inotifyFd s
                        then add_call (CClose (inotifyFd s))
                               (set_world (os_close (inotifyFd s) (world s)) s)
                        else s)).
  { by destruct (0 <=? inotifyFd s). }
  rewrite Hc. set (s1 := if 0 <=? inotifyFd s then _ else s).
  unfold bind at 1, sys_inotify_init. rewrite bind_get.
  destruct (os_inotify_init (world s1)) as [fd w]. cbn [fst snd].
  unfold bind at 1, modify at 1, ret at 1.
  destruct (fd =? -1); [done|].
  unfold bind at 1, modify at 1. rewrite bind_get.
  unfold bind. cbn [rootDirPaths set_wlCache add_call set_world].
  assert (Hr : rootDirPaths s1 = rootDirPaths s)
    by (subst s1; by destruct (0 <=? inotifyFd s)).
  rewrite Hr, for_each_active_roots.
  by destruct (for_each _ _ _).
Qed.

Lemma reinitializeFd_reinitialized s : reinitialized s (reinitializeFd s).
Proof.
  unfold reinitialized. cbv zeta. rewrite reinitializeFd_run.
  destruct (new_instance s =? -1) eqn:Hfd; [done|]. split; [done|].
  set (fd := new_instance s). set (s0 := set_wlCache [] (reopened s)).
  set (W := for_each (active_roots (rootDirPaths s)) (watchSubtree fd)).
  destruct (closed_setup s) as ((Hc1 & Hc2 & Hc3 & Hc4) & _ & Hct).
  assert (Hfail : fails_only W).
  { apply fails_only_for_each. intros p. apply fails_only_watchSubtree. }
  assert (Hwalk : run_rel (walk_adds fd) W).
  { apply run_rel_for_each; [apply walk_adds_refl | apply walk_adds_trans |].
    intros p. apply walk_adds_watchSubtree. }
  assert (Hkeep : run_rel (keeps cache_ok) W).
  { apply run_rel_for_each; [apply keeps_refl | apply keeps_trans |].
    intros p. apply step_watchSubtree; unfold keeps; simpl; auto.
    apply keeps_traverseTree. }
  specialize (Hfail s0). specialize (Hwalk s0). specialize (Hkeep s0).
  pose proof (for_each_walked fd (active_roots (rootDirPaths s)) s0) as Hnftw.
  fold W in Hnftw. unfold bind.
  destruct (W s0) as [[] s1|n s1|s1|]; [|done..].
  unfold modify. cbn [inotifyFd config rootDirPaths ignoreRootDirs wlCache
                        trace set_inotifyFd].
  destruct Hwalk as ((Hs1 & Hs2 & Hs3 & _) & calls & Ht & Hcalls & _ & Hnew).
  subst s0. simpl in *.
  split; [done|]. split; [congruence|]. split; [congruence|].
  split; [congruence|]. split; [apply Hkeep, cache_ok_nil|].
  exists calls. split; [by rewrite Ht, Hct, <- !app_assoc|].
  split.
  { specialize (Hnftw tt s1 eq_refl). rewrite Ht, nftw_paths_app in Hnftw.
    by apply app_inv_head in Hnftw. }
  split; [by rewrite Hc2 in Hcalls|].
  intros j w Hl Hw. destruct (Hnew j w Hl Hw) as [Hold|Hadd]; [|done].
  by rewrite lookup_nil in Hold.
Qed.



(** C4. When a watch descriptor that is looked up is not in the cache, the
    rest of the read buffer is abandoned and the engine reinitializes (the
    old descriptor closed, a new instance opened, the cache emptied and
    rebuilt by walks of the non-zapped roots), returning the length of the
    whole buffer.  With [abortOnCacheProblem] the process creates the stop
    file and dumps the cache instead: with a log file open it writes the
    dump and aborts; without one the dump goes to a null stream and the
    behaviour is undefined before [abort] is reached. *)
Theorem cache_miss_escalates s ev rest bufSize firstTry :
  cache_miss s ev rest bufSize ->
  escalated s (ev :: rest) bufSize firstTry.
Proof.
  intros Hmiss.
  assert (E : processNextInotifyEvent (ev :: rest) bufSize firstTry s
              = if abortOnCacheProblem (config s) then createStopFileAndAbort s
                else (reinitializeFd ;;; ret (to_size_t INOTIFY_READ_BUF_LEN)) s).
  { destruct Hmiss as [(Hwd & Hig & Hf)
                      |(nextEv & rest' & slot & -> & Hm & Hwd & Hf & Hwf & Hlt & Hp & Hf')].
    - by apply processNext_missing.
    - destruct (has_moved_from_mask ev Hm) as (Hig & _).
      rewrite (processNext_found _ _ _ _ _ _ Hwd Hig Hf).
      assert (forall c, process_end (dispatch ev (nextEv :: rest') bufSize
                          firstTry (Some slot) (to_size_t (record_size ev))) c
                        = process_end (movedFrom ev (nextEv :: rest') bufSize
                            firstTry (Some slot) (record_size ev)) c) as ->.
      { intros c. unfold process_end, bind.
        by rewrite (dispatch_moved_from _ _ _ _ _ _ _ Hm), to_size_t_record. }
      by apply movedFrom_paired_missing. }
  unfold escalated. cbv zeta. rewrite E.
  destruct (abortOnCacheProblem (config s)).
  - split; [done|]. rewrite createStopFileAndAbort_run.
    unfold dumpCacheToLog. rewrite bind_get.
    cbn [config add_call set_world].
    by destruct (logfp (config s)).
  - split; [done|]. split; [apply reinitializeFd_reinitialized|].
    intros fuel numLeft more [Hpos Hle] Hsize. rewrite events_loop_step.
    assert ((numLeft <=? 0) = false) as -> by (apply Z.leb_gt; lia).
    unfold bind at 1. rewrite Hsize, E. unfold bind, ret.
    destruct (reinitializeFd s) as [[] s'| | |]; try done.
    change (to_size_t INOTIFY_READ_BUF_LEN) with INOTIFY_READ_BUF_LEN.
    rewrite to_int_buf_len.
    assert ((0 <? INOTIFY_READ_BUF_LEN) = true) as -> by done.
    by assert ((numLeft - INOTIFY_READ_BUF_LEN <=? 0) = true) as ->
      by (apply Z.leb_le; lia).
Qed.


End ReinitTheorems.

(** ** Instances of the properties above *)

Local Open Scope string_scope.

(** The invariants of a cache of four slots given in full. *)
Local Ltac four_slots_ok :=
  split;
  [ intros [|[|[|[|?]]]] [|[|[|[|?]]]] ? ? ? ? ? ?; by simplify_eq/=
  | let Hin := fresh in
    intros ? Hin; unfold parent_child_cache in Hin;
    repeat (apply elem_of_cons in Hin as [->|Hin]);
    try (by apply elem_of_nil in Hin);
    (split; [done | unfold PATH_MAX; simpl; lia]) ].

Lemma cache_miss_escalates_witness :
  escalated demo_state [dir_event 9 IN_CREATE 0 "z"] 32 true /\
  escalated debug_state [dir_event 9 IN_CREATE 0 "z"] 32 true /\
  escalated debug_state_no_log [dir_event 9 IN_CREATE 0 "z"] 32 true.
Proof.
  split; [|split]; apply cache_miss_escalates; left; by vm_compute.
Defined.


Example cache_miss_without_log_file :
  processNextInotifyEvent [dir_event 9 IN_CREATE 0 "z"] 32 true
    debug_state_no_log = Undefined /\
  summarize (processNextInotifyEvent [dir_event 9 IN_CREATE 0 "z"] 32 true
    debug_state) = SAborted.
Proof. by vm_compute. Qed.

Lemma addWatchToCache_then_lookup_witness :
  strncpy PATH_MAX "/t/B/D" = "/t/B/D" /\
  watch_added parent_child_state 7 "/t/B/D"
    (addWatchToCache 7 "/t/B/D" parent_child_state).
Proof.
  apply addWatchToCache_then_lookup;
    [done | by vm_compute | unfold PATH_MAX; simpl; lia].
Defined.

Lemma zapSubtree_touches_only_the_subtree_witness :
  zap_frame parent_child_state 3 "/t/A"
    (zapSubtree 3 "/t/A" parent_child_state).
Proof. apply zapSubtree_touches_only_the_subtree. reflexivity. Defined.

Lemma markCacheSlotEmpty_undoes_add_witness :
  add_undone parent_child_state 7
    (addWatchToCache 7 "/t/B/D" parent_child_state).
Proof.
  apply markCacheSlotEmpty_undoes_add; [done | by vm_compute |].
  assert (cache_ok parent_child_cache) as [_ Hwf] by four_slots_ok. exact Hwf.
Defined.

Lemma rewriteCachedPaths_round_trip_witness :
  rewriteCachedPaths "/t" "B" "/t" "A"
    (rewriteCachedPaths "/t" "A" "/t" "B" parent_child_cache)
  = parent_child_cache.
Proof.
  apply rewriteCachedPaths_round_trip.
  - unfold rename_fits, parent_child_cache.
    rewrite !str_app_length. unfold PATH_MAX. simpl.
    split; [lia|]. split; [lia|].
    do 4 (constructor; [intros _; simpl; lia|]). constructor.
  - unfold parent_child_cache, PATH_MAX.
    do 4 (constructor;
          [split; [simpl; lia | apply prefix_match_false; by vm_compute]|]).
    constructor.
Defined.

Lemma processNextInotifyEvent_keeps_cache_invariants_witness :
  preserves cache_ok
    (processNextInotifyEvent [moved_from_A; moved_to_B] 64 true)
    parent_child_state.
Proof.
  apply processNextInotifyEvent_keeps_cache_invariants.
  change (cache_ok parent_child_cache). four_slots_ok.
Defined.

Lemma processInotifyEvents_keeps_cache_invariants_witness :
  preserves cache_ok
    (processInotifyEvents 10 (ReadData [moved_from_A]) [ReadData [moved_to_B]])
    parent_child_state.
Proof.
  apply processInotifyEvents_keeps_cache_invariants.
  change (cache_ok parent_child_cache). four_slots_ok.
Defined.

Lemma created_dir_is_walked_witness :
  directory_watched demo_state created_z (mkWatch 1 "/tmp/t")
    (processNextInotifyEvent [created_z] 32 true demo_state).
Proof.
  apply (created_dir_is_walked demo_state created_z [] 32 true 0).
  repeat split; by vm_compute.
Defined.

Lemma record_about_no_directory_is_skipped_witness :
  skipped demo_state created_file
    (processNextInotifyEvent [created_file] 32 true demo_state).
Proof.
  apply record_about_no_directory_is_skipped.
  - by vm_compute.
  - repeat split; by vm_compute.
  - right. right. by exists 0%nat.
Defined.

Lemma deleted_or_unmounted_releases_slot_witness :
  slot_released demo_state deleted_a 1 (mkWatch 2 "/tmp/t/a")
    (processNextInotifyEvent [deleted_a] 16 true demo_state).
Proof.
  apply deleted_or_unmounted_releases_slot.
  - left. split; by vm_compute.
  - repeat split; by vm_compute.
Defined.

Lemma moved_out_directory_drops_subtree_witness :
  subtree_dropped demo_state 3
    (snprintf (PATH_MAX + NAME_MAX) ("/tmp/t" +:+ "/" +:+ "a")) 32
    (processNextInotifyEvent [moved_from_a; created_z] 64 true demo_state).
Proof.
  apply (moved_out_directory_drops_subtree demo_state moved_from_a [created_z]
           true 0 (mkWatch 1 "/tmp/t")).
  - repeat split; by vm_compute.
  - reflexivity.
Defined.

Lemma moved_root_is_zapped_with_its_subtree_witness :
  root_moved_away two_roots_state (self_event 2 IN_MOVE_SELF)
    (mkWatch 2 "/r2")
    (processNextInotifyEvent [self_event 2 IN_MOVE_SELF] 16 true
       two_roots_state).
Proof.
  apply (moved_root_is_zapped_with_its_subtree two_roots_state
           (self_event 2 IN_MOVE_SELF) [] 16 true 1).
  - repeat split; by vm_compute.
  - repeat split; by vm_compute.
  - reflexivity.
Defined.

Lemma zapRootDirPath_twice_fails_witness :
  let s' := set_roots [None; Some "/r2"] 1 two_roots_state in
  isRootDirPath (rootDirPaths s') "/r1" = false /\
  zapRootDirPath "/r1" s' = Exited EXIT_FAILURE s'.
Proof.
  apply (zapRootDirPath_twice_fails two_roots_state "/r1"
           (set_roots [None; Some "/r2"] 1 two_roots_state)).
  - apply (bool_decide_unpack _). by vm_compute.
  - by vm_compute.
Defined.

Lemma events_loop_resumes_after_consumed_witness :
  events_loop 3 [created_a; created_z] 64 true [] demo_state
  = events_loop 2 [created_z] 32 true [] demo_state.
Proof.
  apply (events_loop_resumes_after_consumed demo_state demo_state
           [created_a; created_z] [created_a] [created_z] 64 true [] 2).
  repeat split; by vm_compute.
Defined.

Lemma copyRootDirPaths_accepts_distinct_directories_witness :
  roots_copied two_roots_state ["/r1"; "/r2"]
    (copyRootDirPaths ["/r1"; "/r2"] two_roots_state).
Proof.
  apply copyRootDirPaths_accepts_distinct_directories.
  repeat split; try (by vm_compute). by repeat constructor.
Defined.

Lemma hanging_move_times_out_witness :
  events_loop 2 [moved_from_a] 32 true [] demo_state
  = (process_end (movedOut moved_from_a (Some 0%nat) 32) ;;; ret Finished)
      (read_interrupted demo_state moved_from_a).
Proof.
  apply (hanging_move_times_out demo_state moved_from_a 0
           (mkWatch 1 "/tmp/t") 0).
  - repeat split; by vm_compute.
  - by vm_compute.
Defined.

(** ** The properties at work *)

(** Two arguments that name the same directory are refused. *)
Example startup_rejects_duplicate :
  summarize (copyRootDirPaths ["/r1"; "/r2"; "/r1"] two_roots_state)
  = SExited EXIT_FAILURE.
Proof. by vm_compute. Qed.

(** A subdirectory moved out of the tree takes its cached subtree with it:
    both watches are removed, in slot order. *)
Example move_out_releases_watches :
  final_trace
    (processNextInotifyEvent
       [dir_event 1 IN_MOVED_FROM 5 "A"; created_z] 64 true parent_child_state)
  = [CInotifyRmWatch 3 2; CInotifyRmWatch 3 3].
Proof. by vm_compute. Qed.
